(** * CacheSimulator: a shallow embedding of the cache model and its proofs

    The development follows the C++ sources:
    - [cache_simulator.hpp]: the classes [CacheBlock], [AccessInfo],
      [CacheReplace], [Cache] and its three organisations;
    - [cache_base.cpp]: constructors, [CacheReplace::get_victim_index],
      [CacheReplace::mark_accessed], [Cache::is_accessed];
    - [direct_mapped.cpp], [fully_associative.cpp], [set_associative.cpp]:
      the [read] and [write] member functions.

    Conventions.
    - [uint32_t] and [int] values are integers of [Z]; the conversions and
      the wrap-around of the C++ arithmetic are written with [u32] and [i32].
    - A [vector<T>] is a [list T]; [operator[]] outside the vector, a
      division by zero and a loop that does not stop have no result
      ([None]).
    - A [vector<CacheBlock *>] owns one block per pointer and no pointer is
      shared, so it is a [list CacheBlock].
    - The outer vector of [SetAssocCache] is [reserve]d and never resized:
      its size stays 0 and every [cache_blocks[i]] of the class, unchecked
      by the library, reaches the reserved storage. The list
      [SetAssocCache.cache_blocks] is that storage, and the constructor
      receives what the storage held.
    - Members the constructors leave uninitialised ([CacheBlock::tag],
      [line_bits] and [index_bits] when the size is no power of two) take
      the value found in memory, which the constructors receive as an
      argument.
    - [rand()] is a sequence of integers fixed by the seed and a position
      in it. *)

From Stdlib Require Import ZArith Lia Permutation.
From stdpp Require Import base numbers option list.

Local Open Scope Z_scope.

(** ** Machine integers *)

(** Conversion to [uint32_t]. *)
Definition u32 (x : Z) : Z := x mod 4294967296.

(** Conversion to [int] (32 bits, two's complement). *)
Definition i32 (x : Z) : Z := (x + 2147483648) mod 4294967296 - 2147483648.

(** [x++] on a [uint32_t] counter. *)
Definition incr (x : Z) : Z := u32 (x + 1).

(** [a % b] on [uint32_t] operands. *)
Definition umod (a b : Z) : option Z :=
  if u32 b =? 0 then None else Some (u32 a mod u32 b).

(** ** Vectors *)

(** [v[i]] read. *)
Definition vec_get {A : Type} (v : list A) (i : Z) : option A :=
  if 0 <=? i then v !! Z.to_nat i else None.

(** [v[i] = x]. *)
Definition vec_set {A : Type} (v : list A) (i : Z) (x : A) : option (list A) :=
  if (0 <=? i) && (i <? Z.of_nat (length v))
  then Some (<[Z.to_nat i := x]> v) else None.

(** ** [CacheBlock] *)

Record CacheBlock : Type := mkCacheBlock {
  tag : Z;
  dirty : bool;
  valid : bool
}.

(** [CacheBlock::CacheBlock]: [valid] and [dirty] are cleared, [tag] is not
    assigned and keeps the value [uninit_tag] of the fresh memory. *)
Definition CacheBlock_new (block_size : Z) (uninit_tag : Z) : CacheBlock :=
  {| tag := uninit_tag; dirty := false; valid := false |}.

Definition set_tag (b : CacheBlock) (t : Z) : CacheBlock :=
  {| tag := t; dirty := dirty b; valid := valid b |}.
Definition set_dirty (b : CacheBlock) (d : bool) : CacheBlock :=
  {| tag := tag b; dirty := d; valid := valid b |}.
Definition set_valid (b : CacheBlock) (v : bool) : CacheBlock :=
  {| tag := tag b; dirty := dirty b; valid := v |}.

(** ** [AccessInfo] *)

Record AccessInfo : Type := mkAccessInfo {
  cache_access : Z;
  read_access : Z;
  write_access : Z;
  cache_misses : Z;
  compulsory_misses : Z;
  capacity_misses : Z;
  conflict_misses : Z;
  read_misses : Z;
  write_misses : Z;
  dirty_blocks_evicted : Z
}.

(** [AccessInfo::AccessInfo]. *)
Definition AccessInfo_new : AccessInfo :=
  mkAccessInfo 0 0 0 0 0 0 0 0 0 0.

Definition inc_cache_access (a : AccessInfo) : AccessInfo :=
  mkAccessInfo (incr (cache_access a)) (read_access a) (write_access a)
    (cache_misses a) (compulsory_misses a) (capacity_misses a)
    (conflict_misses a) (read_misses a) (write_misses a)
    (dirty_blocks_evicted a).
Definition inc_read_access (a : AccessInfo) : AccessInfo :=
  mkAccessInfo (cache_access a) (incr (read_access a)) (write_access a)
    (cache_misses a) (compulsory_misses a) (capacity_misses a)
    (conflict_misses a) (read_misses a) (write_misses a)
    (dirty_blocks_evicted a).
Definition inc_write_access (a : AccessInfo) : AccessInfo :=
  mkAccessInfo (cache_access a) (read_access a) (incr (write_access a))
    (cache_misses a) (compulsory_misses a) (capacity_misses a)
    (conflict_misses a) (read_misses a) (write_misses a)
    (dirty_blocks_evicted a).
Definition inc_cache_misses (a : AccessInfo) : AccessInfo :=
  mkAccessInfo (cache_access a) (read_access a) (write_access a)
    (incr (cache_misses a)) (compulsory_misses a) (capacity_misses a)
    (conflict_misses a) (read_misses a) (write_misses a)
    (dirty_blocks_evicted a).
Definition inc_compulsory_misses (a : AccessInfo) : AccessInfo :=
  mkAccessInfo (cache_access a) (read_access a) (write_access a)
    (cache_misses a) (incr (compulsory_misses a)) (capacity_misses a)
    (conflict_misses a) (read_misses a) (write_misses a)
    (dirty_blocks_evicted a).
Definition inc_capacity_misses (a : AccessInfo) : AccessInfo :=
  mkAccessInfo (cache_access a) (read_access a) (write_access a)
    (cache_misses a) (compulsory_misses a) (incr (capacity_misses a))
    (conflict_misses a) (read_misses a) (write_misses a)
    (dirty_blocks_evicted a).
Definition inc_conflict_misses (a : AccessInfo) : AccessInfo :=
  mkAccessInfo (cache_access a) (read_access a) (write_access a)
    (cache_misses a) (compulsory_misses a) (capacity_misses a)
    (incr (conflict_misses a)) (read_misses a) (write_misses a)
    (dirty_blocks_evicted a).
Definition inc_read_misses (a : AccessInfo) : AccessInfo :=
  mkAccessInfo (cache_access a) (read_access a) (write_access a)
    (cache_misses a) (compulsory_misses a) (capacity_misses a)
    (conflict_misses a) (incr (read_misses a)) (write_misses a)
    (dirty_blocks_evicted a).
Definition inc_write_misses (a : AccessInfo) : AccessInfo :=
  mkAccessInfo (cache_access a) (read_access a) (write_access a)
    (cache_misses a) (compulsory_misses a) (capacity_misses a)
    (conflict_misses a) (read_misses a) (incr (write_misses a))
    (dirty_blocks_evicted a).
Definition inc_dirty_blocks_evicted (a : AccessInfo) : AccessInfo :=
  mkAccessInfo (cache_access a) (read_access a) (write_access a)
    (cache_misses a) (compulsory_misses a) (capacity_misses a)
    (conflict_misses a) (read_misses a) (write_misses a)
    (incr (dirty_blocks_evicted a)).

(** ** [CacheReplace] *)

Inductive CacheReplacement_t : Type := RANDOM | LRU | PSEUDO_LRU.

#[global] Instance CacheReplacement_t_eq_dec : EqDecision CacheReplacement_t.
Proof. solve_decision. Defined.

(** [rand_out] and [rand_pos] stand for the state of the C library's
    generator after [srand(time(0))]: the [n]-th call of [rand()] returns
    [rand_out n]. *)
Record CacheReplace : Type := mkCacheReplace {
  num_sets : Z;
  ways : Z;
  replacement_policy : CacheReplacement_t;
  meta_data : list (list Z);
  rand_out : nat -> Z;
  rand_pos : nat
}.

Definition set_meta_data (r : CacheReplace) (m : list (list Z)) : CacheReplace :=
  mkCacheReplace (num_sets r) (ways r) (replacement_policy r) m
    (rand_out r) (rand_pos r).

Definition next_rand (r : CacheReplace) : CacheReplace :=
  mkCacheReplace (num_sets r) (ways r) (replacement_policy r) (meta_data r)
    (rand_out r) (S (rand_pos r)).

(** One set's tree in [CacheReplace::CacheReplace]: a [vector<int>] of
    [2 * ways - 1] cells, the first [ways - 1] set to [0] and the others to
    [-1]. The two loops count with an [int j] that is compared with the
    [uint32_t] bounds [ways - 1] and [2 * ways - 1]. With [ways = 0] the
    vector is asked 4294967295 cells and the first bound wraps to
    4294967295 too, so [j] runs past [INT_MAX]; with more than [2^30] ways
    [j] overflows in the second loop or leaves the vector. In both cases
    the loops have no result. *)
Definition plru_init_set (ways : Z) : option (list Z) :=
  if (1 <=? ways) && (ways <=? 1073741824)
  then Some (replicate (Z.to_nat (ways - 1)) 0
             ++ replicate (Z.to_nat ways) (-1))
  else None.

(** [CacheReplace::CacheReplace]: under [PSEUDO_LRU] one tree per set, and
    no tree when there is no set. *)
Definition CacheReplace_new (policy : CacheReplacement_t) (num_sets ways : Z)
    (seeded : nat -> Z) : option CacheReplace :=
  meta_data ←
    match policy with
    | PSEUDO_LRU =>
        if num_sets <=? 0 then Some []
        else replicate (Z.to_nat num_sets) <$> plru_init_set ways
    | _ => Some []
    end;
  Some {| num_sets := num_sets;
          ways := ways;
          replacement_policy := policy;
          meta_data := meta_data;
          rand_out := seeded;
          rand_pos := O |}.

(** The [while] loop of [get_victim_index] under [PSEUDO_LRU]:
    [current_index] is an [int], [this->ways - 1] a [uint32_t], so the test
    compares them as [uint32_t]. [fuel] bounds the number of iterations. *)
Fixpoint plru_walk (fuel : nat) (ways : Z) (set_meta_data : list Z)
    (current_index : Z) : option Z :=
  if u32 current_index <? u32 (ways - 1) then
    match fuel with
    | O => None
    | S fuel' =>
        cell ← vec_get set_meta_data current_index;
        if cell =? 0
        then plru_walk fuel' ways set_meta_data (i32 (2 * current_index + 1))
        else plru_walk fuel' ways set_meta_data (i32 (2 * current_index + 2))
    end
  else Some current_index.

(** Iterations granted to the walk: the index grows by at least one per
    iteration and the loop stops at [ways - 1]. *)
Definition walk_fuel (ways : Z) : nat := Z.to_nat (u32 (ways - 1)).

(** [CacheReplace::get_victim_index]. The vector [data] is passed by value
    and not read. The result is the victim and the policy object, changed
    only by the call of [rand()]. *)
Definition get_victim_index (r : CacheReplace) (set_index : Z)
    (data : list CacheBlock) : option (Z * CacheReplace) :=
  match replacement_policy r with
  | RANDOM =>
      v ← umod (rand_out r (rand_pos r)) (ways r);
      Some (i32 v, next_rand r)
  | LRU => Some (0, r)
  | PSEUDO_LRU =>
      set_meta_data ← vec_get (meta_data r) set_index;
      current_index ← plru_walk (walk_fuel (ways r)) (ways r) set_meta_data 0;
      Some (i32 (u32 (current_index - ways r + 1)), r)
  end.

(** The [do ... while (current_index > 0)] loop of [mark_accessed] under
    [PSEUDO_LRU]; [/] on [int] truncates towards zero ([Z.quot]). *)
Fixpoint plru_toggle (fuel : nat) (set_meta_data : list Z)
    (current_index : Z) : option (list Z) :=
  match fuel with
  | O => None
  | S fuel' =>
      let current_index := Z.quot (current_index - 1) 2 in
      cell ← vec_get set_meta_data current_index;
      set_meta_data ←
        vec_set set_meta_data current_index (if cell =? 0 then 1 else 0);
      if 0 <? current_index
      then plru_toggle fuel' set_meta_data current_index
      else Some set_meta_data
  end.

(** Iterations granted to the toggle loop, which halves a positive index. *)
Definition toggle_fuel (current_index : Z) : nat := S (Z.to_nat current_index).

(** [CacheReplace::mark_accessed]; [data] is passed by reference, so the
    vector is returned with the policy object. *)
Definition mark_accessed (r : CacheReplace) (set_index : Z)
    (data : list CacheBlock) (block_index : Z)
    : option (CacheReplace * list CacheBlock) :=
  data ←
    (if decide (replacement_policy r = LRU) then
       accessed_block ← vec_get data block_index;
       Some (delete (Z.to_nat block_index) data ++ [accessed_block])
     else Some data);
  if decide (replacement_policy r = PSEUDO_LRU) then
    accessed_block ← vec_get data block_index;
    set_md ← vec_get (meta_data r) set_index;
    set_md ← vec_set set_md (u32 (block_index + ways r - 1))
               (i32 (tag accessed_block));
    let current_index := i32 (u32 (ways r - 1 + block_index)) in
    set_md ← plru_toggle (toggle_fuel current_index) set_md current_index;
    meta ← vec_set (meta_data r) set_index set_md;
    Some (set_meta_data r meta, data)
  else Some (r, data).

(** ** The access history *)

(** The loop of [Cache::is_accessed] over the [list<uint32_t>]. *)
Fixpoint history_mem (accessed_blocks : list Z) (block_address : Z) : bool :=
  match accessed_blocks with
  | [] => false
  | x :: rest =>
      if x =? block_address then true else history_mem rest block_address
  end.

(** [Cache::is_accessed]: the answer and the history after the call. *)
Definition is_accessed (accessed_blocks : list Z) (block_address : Z)
    : bool * list Z :=
  if history_mem accessed_blocks block_address
  then (true, accessed_blocks)
  else (false, accessed_blocks ++ [block_address]).

(** ** The base class [Cache] *)

Record Cache : Type := mkCache {
  cache_size : Z;
  block_size : Z;
  num_blocks : Z;
  line_bits : Z;
  index_bits : Z;
  access_info : AccessInfo;
  accessed_blocks : list Z
}.

(** The statistics and the history are the only members an access
    assigns. *)
Definition update_cache (c : Cache) (ai : AccessInfo) (hist : list Z) : Cache :=
  mkCache (cache_size c) (block_size c) (num_blocks c) (line_bits c)
    (index_bits c) ai hist.

(** [a / b] on [uint32_t] operands. *)
Definition udiv (a b : Z) : option Z :=
  if u32 b =? 0 then None else Some (u32 a / u32 b).

(** [a >> s] on [uint32_t] operands; a shift by 32 or more is undefined. *)
Definition ushr (a s : Z) : option Z :=
  if u32 s <? 32 then Some (Z.shiftr (u32 a) (u32 s)) else None.

(** The loops [for (int i = 0; i < 32; i++) if ((1 << i) == x) ...] of
    [Cache::Cache]: the first [i] with [1 << i == x], and the value
    [uninit] of the unassigned member when there is none. *)
Fixpoint find_bits (n : nat) (i : Z) (x : Z) (uninit : Z) : Z :=
  match n with
  | O => uninit
  | S n' =>
      if u32 (i32 (Z.shiftl 1 i)) =? u32 x then i
      else find_bits n' (i + 1) x uninit
  end.

(** [Cache::Cache]. *)
Definition Cache_new (cache_size block_size : Z)
    (uninit_line_bits uninit_index_bits : Z) : option Cache :=
  num_blocks ← udiv cache_size block_size;
  Some {| cache_size := u32 cache_size;
          block_size := u32 block_size;
          num_blocks := num_blocks;
          line_bits := find_bits 32 0 block_size uninit_line_bits;
          index_bits := find_bits 32 0 num_blocks uninit_index_bits;
          access_info := AccessInfo_new;
          accessed_blocks := [] |}.

(** The blocks pushed by a constructor's loop: [n] new blocks, the [k]-th
    on memory that holds [uninit_tag (first + k)]. *)
Definition new_blocks (block_size : Z) (uninit_tag : nat -> Z)
    (first n : nat) : list CacheBlock :=
  (fun k => CacheBlock_new block_size (uninit_tag k)) <$> seq first n.

(** ** [DirectMappedCache] *)

Module DirectMappedCache.

Record t : Type := mk {
  base : Cache;
  cache_blocks : list CacheBlock
}.

(** [DirectMappedCache::DirectMappedCache]; the replacement policy is
    not used. *)
Definition new (cache_size block_size : Z) (policy : CacheReplacement_t)
    (uninit_line_bits uninit_index_bits : Z) (uninit_tag : nat -> Z)
    : option t :=
  b ← Cache_new cache_size block_size uninit_line_bits uninit_index_bits;
  Some {| base := b;
          cache_blocks :=
            new_blocks block_size uninit_tag 0 (Z.to_nat (num_blocks b)) |}.

(** [DirectMappedCache::read]. *)
Definition read (c : t) (address : Z) : option t :=
  let b := base c in
  let ai := inc_read_access (inc_cache_access (access_info b)) in
  ba ← ushr address (line_bits b);
  let block_address := i32 ba in
  idx ← umod block_address (num_blocks b);
  let index := i32 idx in
  tg ← ushr address (line_bits b + index_bits b);
  let addr_tag := i32 tg in
  let '(previously_accessed, hist) :=
    is_accessed (accessed_blocks b) (u32 block_address) in
  let ai :=
    if negb previously_accessed
    then inc_read_misses (inc_cache_misses (inc_compulsory_misses ai))
    else ai in
  block ← vec_get (cache_blocks c) index;
  let '(ai, block) :=
    if negb (valid block) then
      (ai, set_tag (set_valid block true) (u32 addr_tag))
    else if tag block =? u32 addr_tag then
      (ai, block)
    else
      let ai :=
        if previously_accessed
        then inc_cache_misses (inc_read_misses (inc_conflict_misses ai))
        else ai in
      let '(ai, block) :=
        if dirty block
        then (inc_dirty_blocks_evicted ai, set_dirty block false)
        else (ai, block) in
      (ai, set_tag block (u32 addr_tag)) in
  blocks ← vec_set (cache_blocks c) index block;
  Some {| base := update_cache b ai hist; cache_blocks := blocks |}.

(** [DirectMappedCache::write]. *)
Definition write (c : t) (address : Z) : option t :=
  let b := base c in
  let ai := inc_write_access (inc_cache_access (access_info b)) in
  ba ← ushr address (line_bits b);
  let block_address := i32 ba in
  idx ← umod block_address (num_blocks b);
  let index := i32 idx in
  tg ← ushr address (line_bits b + index_bits b);
  let addr_tag := i32 tg in
  let '(previously_accessed, hist) :=
    is_accessed (accessed_blocks b) (u32 block_address) in
  let ai :=
    if negb previously_accessed
    then inc_write_misses (inc_cache_misses (inc_compulsory_misses ai))
    else ai in
  block ← vec_get (cache_blocks c) index;
  let '(ai, block) :=
    if negb (valid block) then
      (ai, set_dirty (set_tag (set_valid block true) (u32 addr_tag)) true)
    else if tag block =? u32 addr_tag then
      (ai, set_dirty block true)
    else
      let ai :=
        if previously_accessed
        then inc_write_misses (inc_cache_misses (inc_conflict_misses ai))
        else ai in
      let '(ai, block) :=
        if dirty block
        then (inc_dirty_blocks_evicted ai, set_dirty block false)
        else (ai, block) in
      (ai, set_dirty (set_tag block (u32 addr_tag)) true) in
  blocks ← vec_set (cache_blocks c) index block;
  Some {| base := update_cache b ai hist; cache_blocks := blocks |}.

End DirectMappedCache.

(** ** The code shared by the associative organisations

    [FullyAssocCache::read], [FullyAssocCache::write], [SetAssocCache::read]
    and [SetAssocCache::write] repeat the same search loop and the same
    [if]/[else] after it; only the set searched and the miss counter
    ([read_misses] or [write_misses]) differ. Both parts are written once
    here. *)

(** The loop [for (int i = 0; i < blocks.size(); i++)]: it returns
    [(empty_block_index, found_block_index)]. The tag of a block is
    compared whatever its [valid] flag is. *)
Fixpoint search_set (blocks : list CacheBlock) (addr_tag : Z) (i : Z)
    (empty_block_index : Z) : Z * Z :=
  match blocks with
  | [] => (empty_block_index, -1)
  | block :: rest =>
      let empty_block_index :=
        if negb (valid block) && (empty_block_index =? -1)
        then i else empty_block_index in
      if tag block =? addr_tag
      then (empty_block_index, i)
      else search_set rest addr_tag (i + 1) empty_block_index
  end.

(** From the search loop up to the point where [found_block_index] is
    known: a tag match, the eviction of a victim, or the fill of the first
    empty block. [inc_rw_misses] is [inc_read_misses] in [read] and
    [inc_write_misses] in [write]. *)
Definition find_or_replace (inc_rw_misses : AccessInfo -> AccessInfo)
    (ai : AccessInfo) (repl : CacheReplace) (set_index : Z)
    (blocks : list CacheBlock) (addr_tag : Z) (previously_accessed : bool)
    : option (AccessInfo * CacheReplace * list CacheBlock * Z) :=
  let '(empty_block_index, found_block_index) :=
    search_set blocks addr_tag 0 (-1) in
  if negb (found_block_index =? -1) then
    Some (ai, repl, blocks, found_block_index)
  else if empty_block_index =? -1 then
    let ai :=
      if previously_accessed
      then inc_capacity_misses (inc_rw_misses (inc_cache_misses ai))
      else ai in
    '(victim_index, repl) ← get_victim_index repl set_index blocks;
    victim_block ← vec_get blocks victim_index;
    let '(ai, victim_block) :=
      if dirty victim_block
      then (inc_dirty_blocks_evicted ai, set_dirty victim_block false)
      else (ai, victim_block) in
    blocks ← vec_set blocks victim_index (set_tag victim_block addr_tag);
    Some (ai, repl, blocks, victim_index)
  else
    block ← vec_get blocks empty_block_index;
    blocks ← vec_set blocks empty_block_index
               (set_tag (set_valid block true) addr_tag);
    Some (ai, repl, blocks, empty_block_index).

(** ** [FullyAssocCache] *)

Module FullyAssocCache.

Record t : Type := mk {
  base : Cache;
  cache_blocks : list CacheBlock;
  all_blocks_valid : bool;
  cache_repl : CacheReplace
}.

(** [FullyAssocCache::FullyAssocCache]: one set of [num_blocks] ways. *)
Definition new (cache_size block_size : Z) (policy : CacheReplacement_t)
    (uninit_line_bits uninit_index_bits : Z) (uninit_tag : nat -> Z)
    (seeded : nat -> Z) : option t :=
  b ← Cache_new cache_size block_size uninit_line_bits uninit_index_bits;
  repl ← CacheReplace_new policy 1 (num_blocks b) seeded;
  Some {| base := b;
          cache_blocks :=
            new_blocks block_size uninit_tag 0 (Z.to_nat (num_blocks b));
          all_blocks_valid := false;
          cache_repl := repl |}.

(** [FullyAssocCache::read]. *)
Definition read (c : t) (address : Z) : option t :=
  let b := base c in
  let ai := inc_read_access (inc_cache_access (access_info b)) in
  addr_tag ← ushr address (line_bits b + index_bits b);
  ba ← ushr address (line_bits b);
  let block_address := i32 ba in
  let '(previously_accessed, hist) :=
    is_accessed (accessed_blocks b) (u32 block_address) in
  let ai :=
    if negb previously_accessed
    then inc_read_misses (inc_cache_misses (inc_compulsory_misses ai))
    else ai in
  '(ai, repl, blocks, found_block_index) ←
    find_or_replace inc_read_misses ai (cache_repl c) 0 (cache_blocks c)
      addr_tag previously_accessed;
  '(repl, blocks) ← mark_accessed repl 0 blocks found_block_index;
  Some {| base := update_cache b ai hist;
          cache_blocks := blocks;
          all_blocks_valid := all_blocks_valid c;
          cache_repl := repl |}.

(** [FullyAssocCache::write]. *)
Definition write (c : t) (address : Z) : option t :=
  let b := base c in
  let ai := inc_write_access (inc_cache_access (access_info b)) in
  addr_tag ← ushr address (line_bits b + index_bits b);
  ba ← ushr address (line_bits b);
  let block_address := i32 ba in
  let '(previously_accessed, hist) :=
    is_accessed (accessed_blocks b) (u32 block_address) in
  let ai :=
    if negb previously_accessed
    then inc_write_misses (inc_cache_misses (inc_compulsory_misses ai))
    else ai in
  '(ai, repl, blocks, found_block_index) ←
    find_or_replace inc_write_misses ai (cache_repl c) 0 (cache_blocks c)
      addr_tag previously_accessed;
  block ← vec_get blocks found_block_index;
  blocks ← vec_set blocks found_block_index (set_dirty block true);
  '(repl, blocks) ← mark_accessed repl 0 blocks found_block_index;
  Some {| base := update_cache b ai hist;
          cache_blocks := blocks;
          all_blocks_valid := all_blocks_valid c;
          cache_repl := repl |}.

End FullyAssocCache.

(** ** [SetAssocCache] *)

Module SetAssocCache.

Record t : Type := mk {
  base : Cache;
  cache_blocks : list (list CacheBlock);
  num_sets : Z;
  num_ways : Z;
  cache_repl : CacheReplace
}.

(** [SetAssocCache::SetAssocCache]: [num_sets] vectors of [num_ways]
    blocks each. The constructor calls [cache_blocks.reserve(num_sets)]
    and then [cache_blocks[i].reserve(num_ways)] and
    [cache_blocks[i].push_back(block)] on slot [i] of the reserved storage,
    where no vector was constructed. [raw_empty i] tells whether that slot
    reads as an empty vector (null pointers, as zeroed memory gives): the
    calls then leave a vector of [num_ways] blocks in it. On a slot that
    reads as anything else they follow wild pointers, and the constructor
    has no result. *)
Definition new (cache_size block_size num_ways : Z)
    (policy : CacheReplacement_t)
    (uninit_line_bits uninit_index_bits : Z) (uninit_tag : nat -> Z)
    (seeded : nat -> Z) (raw_empty : nat -> bool) : option t :=
  b ← Cache_new cache_size block_size uninit_line_bits uninit_index_bits;
  num_sets ← udiv (num_blocks b) num_ways;
  if forallb raw_empty (seq 0 (Z.to_nat num_sets)) then
    repl ← CacheReplace_new policy num_sets (u32 num_ways) seeded;
    Some {| base := b;
            cache_blocks :=
              map (fun i =>
                     new_blocks block_size uninit_tag
                       (i * Z.to_nat (u32 num_ways))
                       (Z.to_nat (u32 num_ways)))
                  (seq 0 (Z.to_nat num_sets));
            num_sets := num_sets;
            num_ways := u32 num_ways;
            cache_repl := repl |}
  else None.

(** [SetAssocCache::read]. *)
Definition read (c : t) (address : Z) : option t :=
  let b := base c in
  let ai := inc_read_access (inc_cache_access (access_info b)) in
  ba ← ushr address (line_bits b);
  si ← umod ba (num_sets c);
  let set_index := i32 si in
  tg ← ushr address (line_bits b + index_bits b);
  let addr_tag := i32 tg in
  let block_address := i32 ba in
  let '(previously_accessed, hist) :=
    is_accessed (accessed_blocks b) (u32 block_address) in
  let ai :=
    if negb previously_accessed
    then inc_read_misses (inc_cache_misses (inc_compulsory_misses ai))
    else ai in
  set_blocks ← vec_get (cache_blocks c) set_index;
  '(ai, repl, set_blocks, found_block_index) ←
    find_or_replace inc_read_misses ai (cache_repl c) (u32 set_index)
      set_blocks (u32 addr_tag) previously_accessed;
  '(repl, set_blocks) ←
    mark_accessed repl (u32 set_index) set_blocks found_block_index;
  blocks ← vec_set (cache_blocks c) set_index set_blocks;
  Some {| base := update_cache b ai hist;
          cache_blocks := blocks;
          num_sets := num_sets c;
          num_ways := num_ways c;
          cache_repl := repl |}.

(** [SetAssocCache::write]. *)
Definition write (c : t) (address : Z) : option t :=
  let b := base c in
  let ai := inc_write_access (inc_cache_access (access_info b)) in
  ba ← ushr address (line_bits b);
  si ← umod ba (num_sets c);
  let set_index := i32 si in
  tg ← ushr address (line_bits b + index_bits b);
  let addr_tag := i32 tg in
  let block_address := i32 ba in
  let '(previously_accessed, hist) :=
    is_accessed (accessed_blocks b) (u32 block_address) in
  let ai :=
    if negb previously_accessed
    then inc_write_misses (inc_cache_misses (inc_compulsory_misses ai))
    else ai in
  set_blocks ← vec_get (cache_blocks c) set_index;
  '(ai, repl, set_blocks, found_block_index) ←
    find_or_replace inc_write_misses ai (cache_repl c) (u32 set_index)
      set_blocks (u32 addr_tag) previously_accessed;
  block ← vec_get set_blocks found_block_index;
  set_blocks ← vec_set set_blocks found_block_index (set_dirty block true);
  '(repl, set_blocks) ←
    mark_accessed repl (u32 set_index) set_blocks found_block_index;
  blocks ← vec_set (cache_blocks c) set_index set_blocks;
  Some {| base := update_cache b ai hist;
          cache_blocks := blocks;
          num_sets := num_sets c;
          num_ways := num_ways c;
          cache_repl := repl |}.

End SetAssocCache.


(** ** The three organisations under one type, and the driver's loop *)

Inductive AnyCache : Type :=
  | DM (c : DirectMappedCache.t)
  | FA (c : FullyAssocCache.t)
  | SA (c : SetAssocCache.t).

(** A trace line: the operation character is ['r'] for a read, anything
    else is a write. *)
Inductive Operation : Type := Read | Write.

(** One iteration of the loops of [simulate_direct_mapped_cache],
    [simulate_fullyassoc_cache] and [simulate_setassoc_cache]. *)
Definition access (c : AnyCache) (op : Operation * Z) : option AnyCache :=
  match c, op with
  | DM c, (Read, address) => DM <$> DirectMappedCache.read c address
  | DM c, (Write, address) => DM <$> DirectMappedCache.write c address
  | FA c, (Read, address) => FA <$> FullyAssocCache.read c address
  | FA c, (Write, address) => FA <$> FullyAssocCache.write c address
  | SA c, (Read, address) => SA <$> SetAssocCache.read c address
  | SA c, (Write, address) => SA <$> SetAssocCache.write c address
  end.

(** The whole trace. *)
Fixpoint simulate (c : AnyCache) (trace : list (Operation * Z))
    : option AnyCache :=
  match trace with
  | [] => Some c
  | op :: rest => c' ← access c op; simulate c' rest
  end.

Definition cache_base (c : AnyCache) : Cache :=
  match c with
  | DM c => DirectMappedCache.base c
  | FA c => FullyAssocCache.base c
  | SA c => SetAssocCache.base c
  end.

(** The statistics snapshot. *)
Definition stats (c : AnyCache) : AccessInfo := access_info (cache_base c).

(** The blocks of a cache, set by set: a direct-mapped cache has one block
    per set, a fully associative cache one set. *)
Definition cache_sets (c : AnyCache) : list (list CacheBlock) :=
  match c with
  | DM c => (fun b => [b]) <$> DirectMappedCache.cache_blocks c
  | FA c => [FullyAssocCache.cache_blocks c]
  | SA c => SetAssocCache.cache_blocks c
  end.

(** Every block of a cache. *)
Definition all_blocks (c : AnyCache) : list CacheBlock := concat (cache_sets c).


(** ** The driver's checks ([test_cache_simulator.cpp]) *)

(** [valid_pow2]: [x == (1 << i)] for some [i] from 0 to 30. *)
Definition valid_pow2 (x : Z) : bool :=
  existsb (fun i => u32 x =? u32 (i32 (Z.shiftl 1 (Z.of_nat i)))) (seq 0 31).

(** [valid_assoc]: [x == (1 << i)] for some [i] from 1 to 5. *)
Definition valid_assoc (x : Z) : bool :=
  existsb (fun i => u32 x =? u32 (i32 (Z.shiftl 1 (Z.of_nat i)))) (seq 1 5).

(** The values of [CacheMap_t] that [main] tells apart. *)
Definition FULLY_ASSOCIATIVE : Z := 0.
Definition DIRECT_MAPPED : Z := 1.

(** The checks and the [switch] of [main], up to the construction of the
    cache by one of the [simulate_*] functions; [None] when [main] returns
    with "Invalid ..." and when the constructor has no result. *)
Definition configure (cache_size block_size associativity : Z)
    (policy : CacheReplacement_t)
    (uninit_line_bits uninit_index_bits : Z) (uninit_tag : nat -> Z)
    (seeded : nat -> Z) (raw_empty : nat -> bool) : option AnyCache :=
  if negb (valid_pow2 cache_size) then None
  else if negb (valid_pow2 block_size) then None
  else if u32 associativity =? DIRECT_MAPPED then
    DM <$> DirectMappedCache.new cache_size block_size policy
             uninit_line_bits uninit_index_bits uninit_tag
  else if u32 associativity =? FULLY_ASSOCIATIVE then
    FA <$> FullyAssocCache.new cache_size block_size policy
             uninit_line_bits uninit_index_bits uninit_tag seeded
  else if negb (valid_assoc associativity) then None
  else
    SA <$> SetAssocCache.new cache_size block_size associativity policy
             uninit_line_bits uninit_index_bits uninit_tag seeded raw_empty.

(** The geometry holds at least one set: the block is no larger than the
    cache and, for a set-associative cache, neither are the ways of one
    set. *)
Definition fits (cache_size block_size associativity : Z) : Prop :=
  u32 block_size * Z.max 1 (u32 associativity) <= u32 cache_size.

(** ** Predicates of the statements *)

(** The victim walk as the specification words it: from tree index [i],
    a stored [0] leads to the child [2 * i + 1], anything else to the child
    [2 * i + 2], and the walk stops at the first index that is at least
    [ways - 1]. *)
Inductive walk_reaches (ways : Z) (bits : list Z) : Z -> Z -> Prop :=
  | walk_leaf i :
      ways - 1 <= i -> walk_reaches ways bits i i
  | walk_left i j :
      i < ways - 1 -> vec_get bits i = Some 0 ->
      walk_reaches ways bits (2 * i + 1) j -> walk_reaches ways bits i j
  | walk_right i j bit :
      i < ways - 1 -> vec_get bits i = Some bit -> bit <> 0 ->
      walk_reaches ways bits (2 * i + 2) j -> walk_reaches ways bits i j.

(** Logical NOT of a stored cell ([cell ? 0 : 1]). *)
Definition logical_not (cell : Z) : Z := if cell =? 0 then 1 else 0.

(** [is_ancestor a i]: in the tree laid out in an array, cell [a] is on the
    path from the parent of cell [i] up to the root (cell 0). *)
Inductive is_ancestor : Z -> Z -> Prop :=
  | ancestor_parent i : 0 < i -> is_ancestor ((i - 1) / 2) i
  | ancestor_above a i : 0 < i -> is_ancestor a ((i - 1) / 2) -> is_ancestor a i.

(** The miss counters add up, as the C++ expression
    [compulsory_misses + capacity_misses + conflict_misses == cache_misses]
    on [uint32_t] members evaluates it. *)
Definition misses_add_up (a : AccessInfo) : Prop :=
  u32 (compulsory_misses a + capacity_misses a + conflict_misses a)
  = cache_misses a.

(** The same sum without the wrap-around of 32 bits. *)
Definition misses_add_up_exactly (a : AccessInfo) : Prop :=
  compulsory_misses a + capacity_misses a + conflict_misses a
  = cache_misses a.

(** The tree of one set and the policy object as
    [CacheReplace::CacheReplace] leaves them when it returns. *)
Definition fresh_tree (ways : Z) : list Z :=
  replicate (Z.to_nat (ways - 1)) 0 ++ replicate (Z.to_nat ways) (-1).

Definition fresh_replace (policy : CacheReplacement_t) (num_sets ways : Z)
    (seeded : nat -> Z) : CacheReplace :=
  mkCacheReplace num_sets ways policy
    (match policy with
     | PSEUDO_LRU => replicate (Z.to_nat num_sets) (fresh_tree ways)
     | _ => []
     end)
    seeded O.

(** The replacement metadata fits [nsets] sets of [nways] ways. *)
Definition wf_replace (r : CacheReplace) (nsets nways : Z) : Prop :=
  ways r = nways /\ 1 <= nways <= 1073741824
  /\ (replacement_policy r = PSEUDO_LRU ->
      Z.of_nat (length (meta_data r)) = nsets
      /\ Forall (fun md => Z.of_nat (length md) = 2 * nways - 1) (meta_data r)).

Definition wf_base (b : Cache) : Prop :=
  0 <= line_bits b /\ 0 <= index_bits b /\ line_bits b + index_bits b < 32.

(** The shape every cache keeps from its construction on: the vectors have
    the sizes the geometry gives them. *)
Definition wf (c : AnyCache) : Prop :=
  wf_base (cache_base c) /\
  match c with
  | DM c =>
      1 <= num_blocks (DirectMappedCache.base c) <= 1073741824
      /\ Z.of_nat (length (DirectMappedCache.cache_blocks c))
         = num_blocks (DirectMappedCache.base c)
  | FA c =>
      wf_replace (FullyAssocCache.cache_repl c) 1
        (Z.of_nat (length (FullyAssocCache.cache_blocks c)))
  | SA c =>
      1 <= SetAssocCache.num_sets c <= 1073741824
      /\ Z.of_nat (length (SetAssocCache.cache_blocks c))
         = SetAssocCache.num_sets c
      /\ Forall (fun s => Z.of_nat (length s)
                          = ways (SetAssocCache.cache_repl c))
           (SetAssocCache.cache_blocks c)
      /\ wf_replace (SetAssocCache.cache_repl c) (SetAssocCache.num_sets c)
           (ways (SetAssocCache.cache_repl c))
  end.

(** The decoding of an address, as every [read] and [write] starts:
    the block address, the tag compared with the blocks' tags, and the set
    the address maps to (set 0 of a fully associative cache, the block
    [index] of a direct-mapped one). *)
Definition block_address_of (c : AnyCache) (address : Z) : option Z :=
  ba ← ushr address (line_bits (cache_base c));
  Some (u32 (i32 ba)).

Definition addr_tag_of (c : AnyCache) (address : Z) : option Z :=
  let b := cache_base c in
  tg ← ushr address (line_bits b + index_bits b);
  Some (u32 (i32 tg)).

Definition set_index_of (c : AnyCache) (address : Z) : option Z :=
  ba ← ushr address (line_bits (cache_base c));
  match c with
  | DM c => i32 <$> umod (i32 ba) (num_blocks (DirectMappedCache.base c))
  | FA c => Some 0
  | SA c => i32 <$> umod ba (SetAssocCache.num_sets c)
  end.

(** The set an address maps to. *)
Definition target_set (c : AnyCache) (address : Z)
    : option (list CacheBlock) :=
  si ← set_index_of c address;
  vec_get (cache_sets c) si.

(** The block addresses seen so far. *)
Definition history (c : AnyCache) : list Z := accessed_blocks (cache_base c).

(** An access needs an eviction: no way of the target set is invalid and
    none holds the tag. *)
Definition eviction_required (c : AnyCache) (address : Z) : Prop :=
  exists blocks t,
    target_set c address = Some blocks /\ addr_tag_of c address = Some t
    /\ Forall (fun b => valid b = true /\ tag b <> t) blocks.

(** Two caches decode every address alike. *)
Definition same_geometry (c c' : AnyCache) : Prop :=
  forall address,
    block_address_of c' address = block_address_of c address
    /\ addr_tag_of c' address = addr_tag_of c address
    /\ set_index_of c' address = set_index_of c address.

Definition is_write (op : Operation) : bool :=
  match op with Write => true | Read => false end.

(** The history after a sequence of block addresses was presented to
    [is_accessed], starting from [h]. *)
Definition present_all (h : list Z) (presented : list Z) : list Z :=
  foldl (fun h a => snd (is_accessed h a)) h presented.

(** ** The effect of one access, in words of the protocol *)

(** What an access is counted as. *)
Inductive MissKind : Type := NoMiss | Compulsory | Capacity | Conflict.

Definition is_miss (k : MissKind) : bool :=
  match k with NoMiss => false | _ => true end.

(** The label of a miss that evicts a block of a previously accessed
    address: conflict in a direct-mapped cache, capacity otherwise. *)
Definition eviction_label (c : AnyCache) : MissKind :=
  match c with DM _ => Conflict | _ => Capacity end.

(** [counted w k evicted_dirty a a']: the counters [a'] are the counters
    [a] after one access, a write when [w] and a read otherwise, counted as
    [k], that wrote a dirty victim back when [evicted_dirty]. *)
Definition counted (w : bool) (k : MissKind) (evicted_dirty : bool)
    (a a' : AccessInfo) : Prop :=
  cache_access a' = incr (cache_access a)
  /\ read_access a' = (if w then read_access a else incr (read_access a))
  /\ write_access a' = (if w then incr (write_access a) else write_access a)
  /\ cache_misses a'
     = (if is_miss k then incr (cache_misses a) else cache_misses a)
  /\ compulsory_misses a'
     = (match k with
        | Compulsory => incr (compulsory_misses a)
        | _ => compulsory_misses a
        end)
  /\ capacity_misses a'
     = (match k with
        | Capacity => incr (capacity_misses a)
        | _ => capacity_misses a
        end)
  /\ conflict_misses a'
     = (match k with
        | Conflict => incr (conflict_misses a)
        | _ => conflict_misses a
        end)
  /\ read_misses a'
     = (if is_miss k && negb w then incr (read_misses a) else read_misses a)
  /\ write_misses a'
     = (if is_miss k && w then incr (write_misses a) else write_misses a)
  /\ dirty_blocks_evicted a'
     = (if evicted_dirty then incr (dirty_blocks_evicted a)
        else dirty_blocks_evicted a).

(** The order of a set after way [k] was touched: under LRU the block moves
    to the back, otherwise the vector keeps its order. *)
Definition reorder (policy : CacheReplacement_t) (k : nat)
    (l : list CacheBlock) : list CacheBlock :=
  if decide (policy = LRU) then
    match l !! k with
    | Some b => delete k l ++ [b]
    | None => l
    end
  else l.

(** The body shared by the four associative access functions, from the
    first counter to [mark_accessed], on the set and the tag the function
    decoded; [w] tells [write] from [read]. Each of the four functions is
    this body around its own decoding (lemmas [FullyAssocCache_read_eq] to
    [SetAssocCache_write_eq]). *)
Definition assoc_access (w : bool) (ai : AccessInfo) (hist : list Z)
    (repl : CacheReplace) (set_index : Z) (blocks : list CacheBlock)
    (addr_tag block_address : Z)
    : option (AccessInfo * list Z * CacheReplace * list CacheBlock) :=
  let inc_rw_access := if w then inc_write_access else inc_read_access in
  let inc_rw_misses := if w then inc_write_misses else inc_read_misses in
  let ai := inc_rw_access (inc_cache_access ai) in
  let '(previously_accessed, hist) := is_accessed hist block_address in
  let ai :=
    if negb previously_accessed
    then inc_rw_misses (inc_cache_misses (inc_compulsory_misses ai))
    else ai in
  '(ai, repl, blocks, found_block_index) ←
    find_or_replace inc_rw_misses ai repl set_index blocks addr_tag
      previously_accessed;
  blocks ←
    (if w then
       block ← vec_get blocks found_block_index;
       vec_set blocks found_block_index (set_dirty block true)
     else Some blocks);
  '(repl, blocks) ← mark_accessed repl set_index blocks found_block_index;
  Some (ai, hist, repl, blocks).

(** How an access resolves on its set [blocks], where [b] is the block of
    the way it ends on and [nb] the block it leaves there: a tag match, the
    fill of an invalid way, or the eviction of a victim. [prev] is the
    answer of the history, [k] what the access is counted as and
    [evicted_dirty] whether a dirty victim was written back. *)
Inductive Resolved (c : AnyCache) (w prev : bool) (t : Z)
    (blocks : list CacheBlock) (b nb : CacheBlock)
    : MissKind -> bool -> Prop :=
  | resolved_hit :
      tag b = t ->
      nb = (if w then set_dirty b true else b) ->
      Resolved c w prev t blocks b nb
        (if prev then NoMiss else Compulsory) false
  | resolved_fill :
      valid b = false ->
      Forall (fun b' => valid b' = true -> tag b' <> t) blocks ->
      nb = mkCacheBlock t (w || dirty b) true ->
      Resolved c w prev t blocks b nb
        (if prev then NoMiss else Compulsory) false
  | resolved_evict :
      Forall (fun b' => valid b' = true /\ tag b' <> t) blocks ->
      nb = mkCacheBlock t w true ->
      Resolved c w prev t blocks b nb
        (if prev then eviction_label c else Compulsory) (dirty b).

(** The caches of the statements: built by the driver from a geometry that
    fits, then driven through a trace. *)
Definition reachable (c : AnyCache) : Prop :=
  exists cache_size block_size associativity policy
         uninit_line_bits uninit_index_bits uninit_tag seeded raw_empty
         c0 trace,
    configure cache_size block_size associativity policy
      uninit_line_bits uninit_index_bits uninit_tag seeded raw_empty
    = Some c0
    /\ fits cache_size block_size associativity
    /\ simulate c0 trace = Some c.

(** What the miss counters satisfy after [n] accesses: the sum wraps like
    the total, and neither has wrapped while [n] fits 32 bits. *)
Definition counters_inv (n : Z) (a : AccessInfo) : Prop :=
  0 <= compulsory_misses a /\ 0 <= capacity_misses a
  /\ 0 <= conflict_misses a
  /\ misses_add_up a
  /\ (n < 4294967296 -> misses_add_up_exactly a /\ cache_misses a <= n).

(** ** Small caches used as instances of the statements *)

(** Fresh memory that reads as zero, as pages obtained from the system
    do, and memory that holds the pattern 7. *)
Definition zero_memory : nat -> Z := fun _ => 0.
Definition pattern_memory : nat -> Z := fun _ => 7.

(** A generator that returns 0 at every call. *)
Definition constant_rand : nat -> Z := fun _ => 0.

(** Reserved storage that reads as empty vectors at every slot. *)
Definition empty_storage : nat -> bool := fun _ => true.

(** The policy object of one set of four ways under pseudo-LRU, as
    constructed. *)
Definition plru_four_ways : CacheReplace :=
  mkCacheReplace 1 4 PSEUDO_LRU [[0; 0; 0; -1; -1; -1; -1]] constant_rand O.

(** A direct-mapped cache of two blocks of 64 bytes after [read(0x0)]. *)
Definition dm_after_read_0 : AnyCache :=
  DM (DirectMappedCache.mk
        (mkCache 128 64 2 6 1 (mkAccessInfo 1 1 0 1 1 0 0 1 0 0) [0])
        [mkCacheBlock 0 false true; mkCacheBlock 7 false false]).

(** The same cache after [read(0x0)] and [read(0x80)], which map to block 0
    of the cache. *)
Definition dm_after_two_reads : AnyCache :=
  DM (DirectMappedCache.mk
        (mkCache 128 64 2 6 1 (mkAccessInfo 2 2 0 2 2 0 0 2 0 0) [0; 2])
        [mkCacheBlock 1 false true; mkCacheBlock 7 false false]).

(** A fully associative cache of two blocks of 64 bytes under LRU after
    [read(0x0)], [read(0x80)] and [read(0x100)]: the third read evicted
    the block of the first. *)
Definition fa_after_three_reads : AnyCache :=
  FA (FullyAssocCache.mk
        (mkCache 128 64 2 6 1 (mkAccessInfo 3 3 0 3 3 0 0 3 0 0) [0; 2; 4])
        [mkCacheBlock 1 false true; mkCacheBlock 2 false true] false
        (mkCacheReplace 1 2 LRU [] constant_rand O)).

(** A two-way set-associative cache of two sets of blocks of 64 bytes under
    pseudo-LRU after [read(0x0)], [read(0x100)] and [read(0x200)], which
    map to set 0: the third read evicted the block of the first. *)
Definition sa_after_three_reads : AnyCache :=
  SA (SetAssocCache.mk
        (mkCache 256 64 4 6 2 (mkAccessInfo 3 3 0 3 3 0 0 3 0 0) [0; 4; 8])
        [[mkCacheBlock 2 false true; mkCacheBlock 1 false true];
         [mkCacheBlock 7 false false; mkCacheBlock 7 false false]]
        2 2
        (mkCacheReplace 2 2 PSEUDO_LRU [[1; 2; 1]; [0; -1; -1]]
           constant_rand O)).

(** The policy object of one set of one way under pseudo-LRU, as
    constructed, and the fully associative cache of one block of 64 bytes
    that holds it. *)
Definition plru_one_way : CacheReplace :=
  mkCacheReplace 1 1 PSEUDO_LRU [[-1]] constant_rand O.

Definition fa_one_way : AnyCache :=
  FA (FullyAssocCache.mk (mkCache 64 64 1 6 0 AccessInfo_new [])
        [mkCacheBlock 7 false false] false plru_one_way).

(** The tag an address decodes to ([0] stands for an undefined shift, which
    no constructed cache performs), and the block an access leaves in the
    cache when it fills or replaces a way. *)
Definition tag_of (c : AnyCache) (address : Z) : Z :=
  default 0 (addr_tag_of c address).

Definition resident (c : AnyCache) (acc : Operation * Z) : CacheBlock :=
  mkCacheBlock (tag_of c (snd acc)) (is_write (fst acc)) true.

(** A fully associative cache of two blocks of 64 bytes under LRU, on
    memory that holds the pattern 7, and the same cache on zeroed memory. *)
Definition fa_two_ways : AnyCache :=
  FA (FullyAssocCache.mk (mkCache 128 64 2 6 1 AccessInfo_new [])
        [mkCacheBlock 7 false false; mkCacheBlock 7 false false] false
        (mkCacheReplace 1 2 LRU [] constant_rand O)).

Definition fa_two_ways_zeroed : AnyCache :=
  FA (FullyAssocCache.mk (mkCache 128 64 2 6 1 AccessInfo_new [])
        [mkCacheBlock 0 false false; mkCacheBlock 0 false false] false
        (mkCacheReplace 1 2 LRU [] constant_rand O)).

(** The block address an access presents to the history ([0] stands for
    an undefined shift). *)
Definition block_of (c : AnyCache) (address : Z) : Z :=
  default 0 (block_address_of c address).

(** [lru_state c0 c blocks seen cap]: [c] is a fully associative cache
    under LRU with the geometry of [c0], its ways hold [blocks] from least
    to most recently touched, its history the block addresses [seen], and
    [cap] capacity misses are counted. *)
Definition lru_state (c0 c : AnyCache) (blocks : list CacheBlock)
    (seen : list Z) (cap : Z) : Prop :=
  exists fc,
    c = FA fc /\ wf c /\ same_geometry c0 c
    /\ replacement_policy (FullyAssocCache.cache_repl fc) = LRU
    /\ FullyAssocCache.cache_blocks fc = blocks
    /\ (forall x, history_mem (history c) x = true <-> In x seen)
    /\ capacity_misses (stats c) = cap.

(** ** The loop over the trace file ([test_cache_simulator.cpp])

    [simulate_direct_mapped_cache], [simulate_fullyassoc_cache] and
    [simulate_setassoc_cache] read the file line by line with
    [sscanf(line.c_str(), "0x%x %c", &address, &operation)] and do not look
    at the number of fields it stored. *)

(** What [sscanf] stored from one line: nothing, the address only, or the
    address and the operation character (a [char], as its code). *)
Inductive Scanned : Type :=
  | scanned_nothing
  | scanned_address (address : Z)
  | scanned_both (address : Z) (operation : Z).

(** The variables [address] and [operation] after the call: a field that
    was not stored keeps the value of the line before, and on the first
    line the value the uninitialised variable had. *)
Definition scan_store (vars : Z * Z) (s : Scanned) : Z * Z :=
  match s with
  | scanned_nothing => vars
  | scanned_address address => (u32 address, snd vars)
  | scanned_both address operation => (u32 address, operation)
  end.

(** [if (operation == 'r') Cache.read(address); else Cache.write(address);]
    where ['r'] is the character 114. *)
Definition operation_of (operation : Z) : Operation :=
  if operation =? 114 then Read else Write.

(** The loop, from the variables [vars] left by the lines before. *)
Fixpoint drive (c : AnyCache) (vars : Z * Z) (lines : list Scanned)
    : option AnyCache :=
  match lines with
  | [] => Some c
  | s :: rest =>
      let vars := scan_store vars s in
      c' ← access c (operation_of (snd vars), fst vars);
      drive c' vars rest
  end.

(** The accesses the loop makes. *)
Fixpoint accesses_of (vars : Z * Z) (lines : list Scanned)
    : list (Operation * Z) :=
  match lines with
  | [] => []
  | s :: rest =>
      let vars := scan_store vars s in
      (operation_of (snd vars), fst vars) :: accesses_of vars rest
  end.

(** ** Predicates of the further properties *)

(** The reads and the writes of a trace. *)
Definition reads_of (trace : list (Operation * Z)) : nat :=
  length (filter (fun op => negb (is_write (fst op))) trace).

Definition writes_of (trace : list (Operation * Z)) : nat :=
  length (filter (fun op => is_write (fst op)) trace).

(** The blocks whose dirty flag is set, valid or not. *)
Definition dirty_count (c : AnyCache) : nat :=
  length (filter (fun b => dirty b) (all_blocks c)).

(** The three states of a block: invalid and clean, valid and clean, valid
    and dirty. *)
Definition block_state_ok (b : CacheBlock) : Prop :=
  valid b = false -> dirty b = false.

(** The replacement policy of a cache; a direct-mapped cache has none. *)
Definition policy_of (c : AnyCache) : option CacheReplacement_t :=
  match c with
  | DM _ => None
  | FA c => Some (replacement_policy (FullyAssocCache.cache_repl c))
  | SA c => Some (replacement_policy (SetAssocCache.cache_repl c))
  end.

(** The replacement policy object of an associative cache. *)
Definition repl_of (c : AnyCache) : option CacheReplace :=
  match c with
  | DM _ => None
  | FA c => Some (FullyAssocCache.cache_repl c)
  | SA c => Some (SetAssocCache.cache_repl c)
  end.

(** How an associative access resolves on the ways [blocks] of its set, as
    the search loop and the branches after it decide: on the lowest way
    that holds the tag, else on the lowest invalid way, else on the way
    [victim] the policy gives. [b] is the block of way [k] and [nb] the
    block the access leaves there. *)
Definition resolves (w prev : bool) (t : Z) (blocks : list CacheBlock)
    (victim : nat -> Prop) (k : nat) (b nb : CacheBlock)
    (kind : MissKind) (evicted_dirty : bool) : Prop :=
  (tag b = t
   /\ (forall (j : nat) b', (j < k)%nat -> blocks !! j = Some b' ->
                            tag b' <> t)
   /\ nb = (if w then set_dirty b true else b)
   /\ kind = (if prev then NoMiss else Compulsory)
   /\ evicted_dirty = false)
  \/ (Forall (fun b => tag b <> t) blocks
      /\ valid b = false
      /\ (forall (j : nat) b', (j < k)%nat -> blocks !! j = Some b' ->
                               valid b' = true)
      /\ nb = mkCacheBlock t (w || dirty b) true
      /\ kind = (if prev then NoMiss else Compulsory)
      /\ evicted_dirty = false)
  \/ (Forall (fun b => valid b = true /\ tag b <> t) blocks
      /\ victim k
      /\ nb = mkCacheBlock t w true
      /\ kind = (if prev then Capacity else Compulsory)
      /\ evicted_dirty = dirty b).

(** Two caches of one organisation. *)
Definition same_kind (c d : AnyCache) : Prop :=
  match c, d with
  | DM _, DM _ | FA _, FA _ | SA _, SA _ => True
  | _, _ => False
  end.

(** [alike c d]: [d] has the organisation, the geometry and the policy of
    [c]. *)
Definition alike (c d : AnyCache) : Prop :=
  same_kind c d
  /\ line_bits (cache_base d) = line_bits (cache_base c)
  /\ index_bits (cache_base d) = index_bits (cache_base c)
  /\ num_blocks (cache_base d) = num_blocks (cache_base c)
  /\ length (cache_sets d) = length (cache_sets c)
  /\ match repl_of c, repl_of d with
     | Some r, Some r2 =>
         replacement_policy r2 = replacement_policy r /\ ways r2 = ways r
     | None, None => True
     | _, _ => False
     end.

(** The pseudo-LRU cells of set [si]. *)
Definition cells_of (c : AnyCache) (si : Z) : option (list Z) :=
  r ← repl_of c; vec_get (meta_data r) si.

(** What an access does to the policy object outside random replacement:
    nothing, or it stores the cells [md'] for set [si]. *)
Definition repl_step (si : Z) (before after : option CacheReplace)
    (md : option (list Z)) : Prop :=
  match md with
  | None => after = before
  | Some md' =>
      exists r,
        before = Some r
        /\ after = Some (set_meta_data r
                           (<[Z.to_nat si := md']> (meta_data r)))
  end.

(** A two-way set-associative cache of two sets of blocks of 64 bytes under
    pseudo-LRU, as [main] builds it on memory that holds the pattern 7 and
    reserved storage that reads as empty vectors. *)
Definition sa_two_sets : AnyCache :=
  SA (SetAssocCache.mk (mkCache 256 64 4 6 2 AccessInfo_new [])
        [[mkCacheBlock 7 false false; mkCacheBlock 7 false false];
         [mkCacheBlock 7 false false; mkCacheBlock 7 false false]]
        2 2
        (mkCacheReplace 2 2 PSEUDO_LRU [[0; -1; -1]; [0; -1; -1]]
           constant_rand O)).


(** * Proofs *)

(** ** Machine integers and vectors *)

Ltac zwrap :=
  unfold incr in *; unfold u32, i32 in *;
  Z.to_euclidean_division_equations; lia.

(** Reduction of the option monad's binds, and of nothing else. *)
Ltac obind :=
  cbn [mbind option_bind mret option_ret fmap option_fmap option_map].

Lemma u32_small x : 0 <= x < 4294967296 -> u32 x = x.
Proof. intros; zwrap. Qed.

Lemma i32_small x : -2147483648 <= x < 2147483648 -> i32 x = x.
Proof. intros; zwrap. Qed.

Lemma u32_range x : 0 <= u32 x < 4294967296.
Proof. zwrap. Qed.

Lemma u32_i32_small x : 0 <= x < 4294967296 -> u32 (i32 x) = x.
Proof. intros; zwrap. Qed.

Section Vectors.
Context {A : Type}.
Implicit Types (v : list A) (i : Z).

Lemma vec_get_lookup v i : 0 <= i -> vec_get v i = v !! Z.to_nat i.
Proof. unfold vec_get; intros H. destruct (Z.leb_spec 0 i); [done | lia]. Qed.

Lemma vec_get_Some_range v i x :
  vec_get v i = Some x -> 0 <= i < Z.of_nat (length v).
Proof.
  unfold vec_get. destruct (Z.leb_spec 0 i); [|done].
  intros Hl%lookup_lt_Some. lia.
Qed.

Lemma vec_get_in_range v i :
  0 <= i < Z.of_nat (length v) -> exists x, vec_get v i = Some x.
Proof.
  intros [H0 H1]. rewrite vec_get_lookup by done.
  apply lookup_lt_is_Some_2. lia.
Qed.

Lemma vec_set_in_range v i x :
  0 <= i < Z.of_nat (length v) -> vec_set v i x = Some (<[Z.to_nat i := x]> v).
Proof.
  intros [H0 H1]. unfold vec_set.
  destruct (Z.leb_spec 0 i); [|lia].
  destruct (Z.ltb_spec i (Z.of_nat (length v))); [done | lia].
Qed.

Lemma vec_get_insert_eq v i x :
  0 <= i < Z.of_nat (length v) -> vec_get (<[Z.to_nat i := x]> v) i = Some x.
Proof.
  intros [H0 H1]. rewrite vec_get_lookup by done.
  apply list_lookup_insert_eq. lia.
Qed.

Lemma vec_get_insert_ne v i j x :
  0 <= i -> i <> j -> vec_get (<[Z.to_nat i := x]> v) j = vec_get v j.
Proof.
  intros H0 Hne. unfold vec_get. destruct (Z.leb_spec 0 j); [|done].
  apply list_lookup_insert_ne. lia.
Qed.

End Vectors.

(** ** The pseudo-LRU victim walk *)

Lemma walk_reaches_fun ways bits i j1 j2 :
  walk_reaches ways bits i j1 -> walk_reaches ways bits i j2 -> j1 = j2.
Proof.
  intros H1; revert j2.
  induction H1 as [i Hi | i j Hi Hb _ IH | i j bit Hi Hb Hne _ IH];
    intros j2 H2; inversion H2; subst; try lia; try congruence; auto.
Qed.

(** With one unit of fuel per index below [ways - 1] the loop reaches a
    leaf, and the leaf is the one the bits lead to. *)
Lemma plru_walk_reaches ways md :
  1 <= ways <= 1073741824 ->
  2 * ways - 1 <= Z.of_nat (length md) ->
  forall fuel ci,
    0 <= ci <= 2 * ways - 2 ->
    ways - 1 - ci <= Z.of_nat fuel ->
    exists j, plru_walk fuel ways md ci = Some j
              /\ ways - 1 <= j <= 2 * ways - 2
              /\ ci <= j
              /\ walk_reaches ways md ci j.
Proof.
  intros Hw Hlen fuel.
  induction fuel as [|fuel IH]; intros ci Hci Hfuel.
  - simpl. rewrite !u32_small by lia.
    destruct (Z.ltb_spec ci (ways - 1)); [lia|].
    exists ci. repeat split; try lia. by constructor.
  - simpl. rewrite !u32_small by lia.
    destruct (Z.ltb_spec ci (ways - 1)) as [Hlt|Hge].
    + destruct (vec_get_in_range md ci) as [cell Hcell]; [lia|].
      rewrite Hcell. simpl.
      rewrite !i32_small by lia.
      destruct (Z.eqb_spec cell 0) as [->|Hne].
      * destruct (IH (2 * ci + 1)) as (j & Hj & Hr & Hle & Hw'); [lia|lia|].
        exists j. repeat split; try lia; [done|]. by eapply walk_left.
      * destruct (IH (2 * ci + 2)) as (j & Hj & Hr & Hle & Hw'); [lia|lia|].
        exists j. repeat split; try lia; [done|]. by eapply walk_right.
    + exists ci. repeat split; try lia. by constructor.
Qed.

(** One iteration moves the index strictly towards the leaves, without
    overflow of the [int]. *)
Lemma plru_walk_step_increases ways ci :
  1 <= ways <= 1073741824 -> 0 <= ci < ways - 1 ->
  ci < i32 (2 * ci + 1) <= 2 * ways - 2 /\ ci < i32 (2 * ci + 2) <= 2 * ways - 2.
Proof. intros Hw Hci. rewrite !i32_small by lia. lia. Qed.

Lemma get_victim_index_plru r set_index data md :
  replacement_policy r = PSEUDO_LRU ->
  1 <= ways r <= 1073741824 ->
  vec_get (meta_data r) set_index = Some md ->
  Z.of_nat (length md) = 2 * ways r - 1 ->
  exists v,
    get_victim_index r set_index data = Some (v, r)
    /\ 0 <= v < ways r
    /\ walk_reaches (ways r) md 0 (v + (ways r - 1)).
Proof.
  intros Hp Hw Hmd Hlen. unfold get_victim_index. rewrite Hp, Hmd. simpl.
  destruct (plru_walk_reaches (ways r) md Hw ltac:(lia) (walk_fuel (ways r)) 0)
    as (j & Hj & Hr & _ & Hreach); [lia| |].
  { unfold walk_fuel. rewrite u32_small by lia. lia. }
  rewrite Hj. simpl. exists (j - (ways r - 1)).
  rewrite u32_small, i32_small by lia.
  split; [f_equal; f_equal; lia|]. split; [lia|].
  by replace (j - (ways r - 1) + (ways r - 1)) with j by lia.
Qed.

(** ** The pseudo-LRU toggle loop *)

Lemma is_ancestor_lt a i : is_ancestor a i -> 0 <= a < i.
Proof.
  induction 1 as [i Hi | a i Hi _ IH].
  - Z.to_euclidean_division_equations; lia.
  - split; [lia|]. assert ((i - 1) / 2 < i) by (Z.to_euclidean_division_equations; lia). lia.
Qed.

Lemma is_ancestor_inv a i :
  is_ancestor a i -> 0 < i /\ (a = (i - 1) / 2 \/ is_ancestor a ((i - 1) / 2)).
Proof. inversion 1; subst; auto. Qed.

Lemma quot_parent i : 0 < i -> Z.quot (i - 1) 2 = (i - 1) / 2.
Proof. intros. apply Z.quot_div_nonneg; lia. Qed.

(** From a positive index the loop flips the cell of every ancestor once
    and leaves the other cells alone. *)
Lemma plru_toggle_spec fuel :
  forall md ci,
    0 < ci < Z.of_nat (length md) ->
    ci <= Z.of_nat fuel ->
    exists md',
      plru_toggle fuel md ci = Some md'
      /\ length md' = length md
      /\ (forall j, is_ancestor j ci ->
                    vec_get md' j = logical_not <$> vec_get md j)
      /\ (forall j, ~ is_ancestor j ci -> vec_get md' j = vec_get md j).
Proof.
  induction fuel as [|fuel IH]; intros md ci Hci Hfuel; [lia|].
  simpl. rewrite quot_parent by lia.
  set (p := (ci - 1) / 2).
  assert (Hp : 0 <= p < ci) by (subst p; Z.to_euclidean_division_equations; lia).
  destruct (vec_get_in_range md p) as [cell Hcell]; [lia|].
  rewrite Hcell. simpl.
  rewrite vec_set_in_range by lia. simpl.
  fold (logical_not cell).
  set (md1 := <[Z.to_nat p := logical_not cell]> md).
  assert (Hlen1 : length md1 = length md) by apply length_insert.
  destruct (Z.ltb_spec 0 p) as [Hpos|Hzero].
  - destruct (IH md1 p) as (md' & Hrun & Hlen & Hanc & Hoth); [lia|lia|].
    exists md'. split; [done|]. split; [congruence|]. split.
    + intros j [_ [->|Hj]]%is_ancestor_inv.
      * rewrite Hoth by (intros Hself%is_ancestor_lt; lia).
        fold p. subst md1. rewrite vec_get_insert_eq by lia. by rewrite Hcell.
      * rewrite Hanc by done. fold p in Hj.
        apply is_ancestor_lt in Hj as Hlt.
        subst md1. rewrite vec_get_insert_ne by lia. done.
    + intros j Hj.
      assert (j <> p) by (intros ->; apply Hj; subst p; constructor; lia).
      rewrite Hoth by (intros Hjp; apply Hj; apply ancestor_above; [lia|done]).
      subst md1. by rewrite vec_get_insert_ne by lia.
  - assert (p = 0) by lia.
    exists md1. split; [done|]. split; [done|]. split.
    + intros j [_ [->|Hj]]%is_ancestor_inv.
      * fold p. subst md1. rewrite vec_get_insert_eq by lia. by rewrite Hcell.
      * fold p in Hj. apply is_ancestor_inv in Hj. lia.
    + intros j Hj.
      assert (j <> p) by (intros ->; apply Hj; subst p; constructor; lia).
      subst md1. by rewrite vec_get_insert_ne by lia.
Qed.

(** ** The access history *)

Lemma history_mem_In h a : history_mem h a = true <-> In a h.
Proof.
  induction h as [|x h IH]; simpl; [split; [done | tauto]|].
  destruct (Z.eqb_spec x a); [tauto|]. rewrite IH. intuition congruence.
Qed.

Lemma history_mem_false h a : history_mem h a = false <-> ~ In a h.
Proof. rewrite <- history_mem_In. destruct (history_mem h a); intuition congruence. Qed.

Lemma present_all_In p : forall h x,
  In x (present_all h p) <-> In x h \/ In x p.
Proof.
  induction p as [|a p IH]; intros h x; simpl; [tauto|].
  change (In x (present_all (snd (is_accessed h a)) p) <-> In x h \/ a = x \/ In x p).
  rewrite IH. unfold is_accessed.
  destruct (history_mem h a) eqn:Hm; simpl.
  - apply history_mem_In in Hm. intuition congruence.
  - rewrite in_app_iff. simpl. tauto.
Qed.

Lemma present_all_NoDup p : forall h, NoDup h -> NoDup (present_all h p).
Proof.
  induction p as [|a p IH]; intros h Hh; simpl; [done|].
  change (NoDup (present_all (snd (is_accessed h a)) p)). apply IH.
  unfold is_accessed. destruct (history_mem h a) eqn:Hm; simpl; [done|].
  apply history_mem_false in Hm.
  apply NoDup_app. split; [done|]. split; [|apply NoDup_singleton].
  intros x Hx ->%list_elem_of_singleton. apply Hm. by apply list_elem_of_In.
Qed.

(** ** The search loop *)

(** The outcome of the loop over [blocks], numbered from [i], with no
    empty block recorded yet: a tag match at the first block that holds the
    tag, valid or not; otherwise the first invalid block, or nothing. *)
Lemma search_set_cases blocks t :
  forall i, 0 <= i ->
    (exists (k : nat) b,
        snd (search_set blocks t i (-1)) = i + Z.of_nat k
        /\ blocks !! k = Some b /\ tag b = t
        /\ (forall (j : nat) b', (j < k)%nat -> blocks !! j = Some b' -> tag b' <> t))
    \/ (Forall (fun b => tag b <> t) blocks
        /\ ((exists (k : nat) b,
               search_set blocks t i (-1) = (i + Z.of_nat k, -1)
               /\ blocks !! k = Some b /\ valid b = false
               /\ (forall (j : nat) b', (j < k)%nat -> blocks !! j = Some b' ->
                                        valid b' = true))
            \/ (search_set blocks t i (-1) = (-1, -1)
                /\ Forall (fun b => valid b = true) blocks))).
Proof.
  assert (Hset : forall blocks i e, e <> -1 ->
            Forall (fun b => tag b <> t) blocks ->
            search_set blocks t i e = (e, -1)).
  { clear blocks. induction blocks as [|b blocks IH]; intros i e He Hall; [done|].
    apply Forall_cons in Hall as [Hb Hall]. simpl.
    destruct (Z.eqb_spec e (-1)); [done|]. rewrite andb_false_r.
    destruct (Z.eqb_spec (tag b) t); [done|]. by apply IH. }
  assert (Hfound : forall blocks i e e',
            snd (search_set blocks t i e) = snd (search_set blocks t i e')).
  { clear blocks. induction blocks as [|b blocks IH]; intros i e e'; [done|].
    simpl. destruct (Z.eqb_spec (tag b) t); [done|]. apply IH. }
  induction blocks as [|b blocks IH]; intros i Hi.
  - right. split; [constructor|]. right. split; [done|constructor].
  - simpl. destruct (Z.eqb_spec (tag b) t) as [Heq|Hne].
    + left. exists 0%nat, b. simpl. repeat split; [lia|done|].
      intros j b' Hj. lia.
    + destruct (decide (Forall (fun b => tag b <> t) blocks)) as [Hall|Hnall].
      * right. split; [by constructor|].
        destruct (valid b) eqn:Hv; simpl.
        -- destruct (IH (i + 1)) as [(k & b' & Hf & Hk & Ht & _)|[_ Hcase]]; [lia| |].
           { apply (Forall_lookup_1 _ _ _ _ Hall) in Hk. done. }
           destruct Hcase as [(k & b' & Hs & Hk & Hv' & Hfirst)|[Hs Hvalid]].
           ++ left. exists (S k), b'. rewrite Hs. simpl.
              repeat split; [f_equal; lia|done|done|].
              intros [|j] b'' Hj; simpl; [by intros [= <-]|].
              apply Hfirst. lia.
           ++ right. split; [done|]. by constructor.
        -- left. exists 0%nat, b. simpl.
           rewrite Hset by (done || lia).
           repeat split; [f_equal; lia|done|]. intros j b' Hj. lia.
      * left. rewrite (Hfound _ _ _ (-1)).
        destruct (IH (i + 1)) as [(k & b' & Hf & Hk & Ht & Hfirst)|[Hall _]];
          [lia| |done].
        exists (S k), b'. rewrite Hf. simpl.
        repeat split; [lia|done|done|].
        intros [|j] b'' Hj; simpl; [by intros [= <-]|].
        apply Hfirst. lia.
Qed.

(** ** The replacement policy never leaves the set *)

Lemma wf_replace_lookup r nsets nways set_index :
  wf_replace r nsets nways ->
  replacement_policy r = PSEUDO_LRU ->
  0 <= set_index < nsets ->
  exists md, vec_get (meta_data r) set_index = Some md
             /\ Z.of_nat (length md) = 2 * nways - 1.
Proof.
  intros (_ & _ & Hplru) Hp Hsi. destruct (Hplru Hp) as [Hlen Hall].
  destruct (vec_get_in_range (meta_data r) set_index) as [md Hmd]; [lia|].
  exists md. split; [done|].
  rewrite vec_get_lookup in Hmd by lia.
  by apply (Forall_lookup_1 _ _ _ _ Hall) in Hmd.
Qed.

Lemma get_victim_index_total r nsets nways set_index data :
  wf_replace r nsets nways ->
  0 <= set_index < nsets ->
  exists (v : nat) r',
    get_victim_index r set_index data = Some (Z.of_nat v, r')
    /\ Z.of_nat v < nways
    /\ wf_replace r' nsets nways
    /\ replacement_policy r' = replacement_policy r
    /\ meta_data r' = meta_data r.
Proof.
  intros Hwf Hsi. pose proof Hwf as (Hways & Hrange & Hplru).
  unfold get_victim_index.
  destruct (replacement_policy r) eqn:Hp.
  - unfold umod. rewrite (u32_small (ways r)) by lia.
    destruct (Z.eqb_spec (ways r) 0); [lia|]. obind.
    set (v := u32 (rand_out r (rand_pos r)) mod ways r).
    assert (0 <= v < ways r) by (apply Z.mod_pos_bound; lia).
    exists (Z.to_nat v), (next_rand r).
    rewrite i32_small, Z2Nat.id by lia.
    split; [done|]. split; [lia|]. split; [|by split].
    split; [done|]. split; [done|]. simpl. congruence.
  - exists 0%nat, r. split; [done|]. split; [lia|]. by split.
  - destruct (wf_replace_lookup r nsets nways set_index) as (md & Hmd & Hlen);
      [done..|].
    destruct (get_victim_index_plru r set_index data md) as (v & Hv & Hr & _);
      [done|lia|done|lia|].
    unfold get_victim_index in Hv. rewrite Hp in Hv. rewrite Hv.
    exists (Z.to_nat v), r. rewrite Z2Nat.id by lia.
    split; [done|]. split; [lia|]. by split.
Qed.

Lemma length_reorder policy k l : length (reorder policy k l) = length l.
Proof.
  unfold reorder. destruct (decide (policy = LRU)); [|done].
  destruct (l !! k) as [b|] eqn:Hk; [|done].
  rewrite length_app, length_delete by (by eexists).
  apply lookup_lt_Some in Hk. simpl. lia.
Qed.

Lemma reorder_Permutation policy k l : reorder policy k l ≡ₚ l.
Proof.
  unfold reorder. destruct (decide (policy = LRU)); [|done].
  destruct (l !! k) as [b|] eqn:Hk; [|done].
  rewrite (delete_Permutation l k b Hk) at 2.
  by rewrite Permutation_app_comm.
Qed.

(** The toggle loop stops, whatever leaf it starts from. *)
Lemma plru_toggle_total md ci :
  0 <= ci < Z.of_nat (length md) ->
  exists md', plru_toggle (toggle_fuel ci) md ci = Some md'
              /\ length md' = length md.
Proof.
  intros Hci. destruct (decide (ci = 0)) as [->|Hpos].
  - unfold toggle_fuel. simpl.
    destruct (vec_get_in_range md 0) as [cell Hcell]; [lia|].
    change ((0 - 1) `quot` 2) with 0. rewrite Hcell. obind.
    rewrite vec_set_in_range by lia. obind. simpl.
    eexists. split; [done|]. apply length_insert.
  - destruct (plru_toggle_spec (toggle_fuel ci) md ci) as (md' & Hrun & Hlen & _);
      [lia|unfold toggle_fuel; lia|].
    by exists md'.
Qed.

Lemma mark_accessed_total r nsets nways set_index data (k : nat) :
  wf_replace r nsets nways ->
  Z.of_nat (length data) = nways ->
  Z.of_nat k < nways ->
  0 <= set_index < nsets ->
  exists r',
    mark_accessed r set_index data (Z.of_nat k)
    = Some (r', reorder (replacement_policy r) k data)
    /\ wf_replace r' nsets nways
    /\ replacement_policy r' = replacement_policy r.
Proof.
  intros Hwf Hlen Hk Hsi. pose proof Hwf as (Hways & Hrange & Hplru).
  destruct (vec_get_in_range data (Z.of_nat k)) as [b Hb]; [lia|].
  pose proof Hb as Hbk. rewrite vec_get_lookup, Nat2Z.id in Hbk by lia.
  unfold mark_accessed, reorder.
  destruct (replacement_policy r) eqn:Hp.
  - destruct (decide (RANDOM = LRU)) as [|_]; [done|].
    destruct (decide (RANDOM = PSEUDO_LRU)) as [|_]; [done|].
    obind. by exists r.
  - destruct (decide (LRU = LRU)) as [_|]; [|done].
    destruct (decide (LRU = PSEUDO_LRU)) as [|_]; [done|].
    rewrite Hb, Hbk, Nat2Z.id. obind. by exists r.
  - destruct (decide (PSEUDO_LRU = LRU)) as [|_]; [done|].
    destruct (decide (PSEUDO_LRU = PSEUDO_LRU)) as [_|]; [|done].
    obind. rewrite Hb. obind.
    destruct (wf_replace_lookup r nsets nways set_index) as (md & Hmd & Hmdlen);
      [done..|].
    rewrite Hmd. obind.
    rewrite !u32_small, i32_small by lia.
    rewrite (vec_set_in_range md) by lia. obind.
    set (md0 := <[_ := _]> md).
    assert (Hlen0 : length md0 = length md) by apply length_insert.
    destruct (plru_toggle_total md0 (ways r - 1 + Z.of_nat k))
      as (md' & Hrun & Hlen'); [lia|].
    rewrite Hrun. obind.
    destruct (Hplru eq_refl) as [Hmlen Hall].
    rewrite vec_set_in_range by lia. obind.
    eexists. split; [done|]. split; [|done].
    split; [done|]. split; [done|]. intros _. simpl.
    split; [by rewrite length_insert|].
    apply Forall_insert; [done|]. lia.
Qed.

(** ** One associative access, case by case *)

Lemma find_or_replace_cases inc_rw ai repl si blocks t prev nsets nways :
  wf_replace repl nsets nways ->
  Z.of_nat (length blocks) = nways ->
  0 <= si < nsets ->
  exists ai1 repl1 (k : nat) b nb,
    find_or_replace inc_rw ai repl si blocks t prev
    = Some (ai1, repl1, <[k := nb]> blocks, Z.of_nat k)
    /\ wf_replace repl1 nsets nways
    /\ replacement_policy repl1 = replacement_policy repl
    /\ blocks !! k = Some b
    /\ ((tag b = t
         /\ (forall (j : nat) b', (j < k)%nat -> blocks !! j = Some b' ->
                                  tag b' <> t)
         /\ nb = b /\ ai1 = ai /\ repl1 = repl)
        \/ (Forall (fun b => tag b <> t) blocks
            /\ valid b = false
            /\ (forall (j : nat) b', (j < k)%nat -> blocks !! j = Some b' ->
                                     valid b' = true)
            /\ nb = mkCacheBlock t (dirty b) true /\ ai1 = ai /\ repl1 = repl)
        \/ (Forall (fun b => valid b = true /\ tag b <> t) blocks
            /\ get_victim_index repl si blocks = Some (Z.of_nat k, repl1)
            /\ nb = mkCacheBlock t false true
            /\ ai1 = (let a := if prev
                               then inc_capacity_misses
                                      (inc_rw (inc_cache_misses ai))
                               else ai in
                      if dirty b then inc_dirty_blocks_evicted a else a))).
Proof.
  intros Hwf Hlen Hsi. unfold find_or_replace.
  destruct (search_set_cases blocks t 0) as
    [(k & b & Hf & Hk & Ht & Hfirst)
    |[Hall [(k & b & Hs & Hk & Hv & Hfirst)|[Hs Hvalid]]]]; [lia|..].
  - destruct (search_set blocks t 0 (-1)) as [e f]. simpl in Hf. subst f.
    destruct (Z.eqb_spec (0 + Z.of_nat k) (-1)); [lia|]. simpl.
    exists ai, repl, k, b, b.
    rewrite list_insert_id by done.
    split; [repeat f_equal; lia|]. split; [done|]. split; [done|].
    split; [done|]. left. done.
  - rewrite Hs. simpl.
    destruct (Z.eqb_spec (0 + Z.of_nat k) (-1)); [lia|].
    apply lookup_lt_Some in Hk as Hklt.
    rewrite Z.add_0_l, vec_get_lookup, Nat2Z.id, Hk by lia. obind.
    rewrite vec_set_in_range, Nat2Z.id by lia. obind.
    exists ai, repl, k, b, (mkCacheBlock t (dirty b) true).
    split; [done|]. split; [done|]. split; [done|]. split; [done|].
    right; left. done.
  - rewrite Hs. simpl.
    destruct (get_victim_index_total repl nsets nways si blocks)
      as (k & repl1 & Hv & Hk & Hwf1 & Hp1 & _); [done..|].
    rewrite Hv. obind.
    destruct (vec_get_in_range blocks (Z.of_nat k)) as [b Hb]; [lia|].
    rewrite Hb.
    rewrite vec_get_lookup, Nat2Z.id in Hb by lia.
    apply (Forall_lookup_1 _ _ _ _ Hvalid) in Hb as Hbv.
    exists (let a := if prev
                     then inc_capacity_misses (inc_rw (inc_cache_misses ai))
                     else ai in
            if dirty b then inc_dirty_blocks_evicted a else a),
      repl1, k, b, (mkCacheBlock t false true).
    split.
    { obind. destruct b as [tg d v]; simpl in *; subst v.
      destruct d; simpl; rewrite vec_set_in_range, Nat2Z.id by lia; done. }
    split; [done|]. split; [done|]. split; [done|].
    right; right. split; [|done].
    apply Forall_and. done.
Qed.

(** The body with the history's answer named. *)
Lemma assoc_access_unfold w ai hist repl si blocks t ba :
  assoc_access w ai hist repl si blocks t ba
  = (let prev := history_mem hist ba in
     let inc_rw_misses := if w then inc_write_misses else inc_read_misses in
     let ai0 :=
       if negb prev
       then inc_rw_misses
              (inc_cache_misses (inc_compulsory_misses
                 ((if w then inc_write_access else inc_read_access)
                    (inc_cache_access ai))))
       else (if w then inc_write_access else inc_read_access)
              (inc_cache_access ai) in
     '(ai1, repl1, blocks1, found) ←
       find_or_replace inc_rw_misses ai0 repl si blocks t prev;
     blocks2 ←
       (if w then
          block ← vec_get blocks1 found;
          vec_set blocks1 found (set_dirty block true)
        else Some blocks1);
     '(repl2, blocks3) ← mark_accessed repl1 si blocks2 found;
     Some (ai1, snd (is_accessed hist ba), repl2, blocks3)).
Proof.
  unfold assoc_access, is_accessed.
  destruct (history_mem hist ba); reflexivity.
Qed.

Lemma assoc_access_cases w ai hist repl si blocks t ba nsets nways :
  wf_replace repl nsets nways ->
  Z.of_nat (length blocks) = nways ->
  0 <= si < nsets ->
  exists ai' repl' (k : nat) b nb kind vd,
    assoc_access w ai hist repl si blocks t ba
    = Some (ai', snd (is_accessed hist ba), repl',
            reorder (replacement_policy repl) k (<[k := nb]> blocks))
    /\ wf_replace repl' nsets nways
    /\ replacement_policy repl' = replacement_policy repl
    /\ blocks !! k = Some b
    /\ counted w kind vd ai ai'
    /\ ((tag b = t
         /\ (forall (j : nat) b', (j < k)%nat -> blocks !! j = Some b' ->
                                  tag b' <> t)
         /\ nb = (if w then set_dirty b true else b)
         /\ kind = (if history_mem hist ba then NoMiss else Compulsory)
         /\ vd = false)
        \/ (Forall (fun b => tag b <> t) blocks
            /\ valid b = false
            /\ (forall (j : nat) b', (j < k)%nat -> blocks !! j = Some b' ->
                                     valid b' = true)
            /\ nb = mkCacheBlock t (w || dirty b) true
            /\ kind = (if history_mem hist ba then NoMiss else Compulsory)
            /\ vd = false)
        \/ (Forall (fun b => valid b = true /\ tag b <> t) blocks
            /\ (exists r1,
                   get_victim_index repl si blocks = Some (Z.of_nat k, r1))
            /\ nb = mkCacheBlock t w true
            /\ kind = (if history_mem hist ba then Capacity else Compulsory)
            /\ vd = dirty b)).
Proof.
  intros Hwf Hlen Hsi. rewrite assoc_access_unfold.
  set (prev := history_mem hist ba).
  cbv zeta.
  set (ai0 := if negb prev then _ else _).
  assert (Hfr := find_or_replace_cases
                   (if w then inc_write_misses else inc_read_misses)
                   ai0 repl si blocks t prev nsets nways Hwf Hlen Hsi).
  destruct Hfr as (ai1 & repl1 & k & b & nb0 & Hfr & Hwf1 & Hp1 & Hk & Hcases).
  apply lookup_lt_Some in Hk as Hklt.
  set (nb := if w then set_dirty nb0 true else nb0).
  assert (Hdirty :
            (if w then
               block ← vec_get (<[k := nb0]> blocks) (Z.of_nat k);
               vec_set (<[k := nb0]> blocks) (Z.of_nat k) (set_dirty block true)
             else Some (<[k := nb0]> blocks))
            = Some (<[k := nb]> blocks)).
  { subst nb. destruct w; [|done].
    rewrite vec_get_lookup, Nat2Z.id, list_lookup_insert_eq by lia. obind.
    rewrite vec_set_in_range, Nat2Z.id by (rewrite length_insert; lia).
    by rewrite list_insert_insert_eq. }
  destruct (mark_accessed_total repl1 nsets nways si (<[k := nb]> blocks) k)
    as (repl' & Hmark & Hwf' & Hp'); [done|by rewrite length_insert|lia|done|].
  rewrite Hfr. obind. rewrite Hdirty. obind. rewrite Hmark. obind.
  rewrite Hp1.
  exists ai1, repl', k, b, nb.
  destruct Hcases as
    [(Ht & Hfirst & -> & -> & ->)
    |[(Hall & Hv & Hfirst & -> & -> & ->)|(Hall & Hvic & -> & ->)]].
  - exists (if prev then NoMiss else Compulsory), false.
    split; [done|]. split; [done|]. split; [congruence|]. split; [done|].
    split; [|left; done].
    subst ai0. unfold counted. destruct w, prev; simpl; done.
  - exists (if prev then NoMiss else Compulsory), false.
    split; [done|]. split; [done|]. split; [congruence|]. split; [done|].
    split; [|right; left; repeat split; try done; subst nb; by destruct w].
    subst ai0. unfold counted. destruct w, prev; simpl; done.
  - exists (if prev then Capacity else Compulsory), (dirty b).
    split; [done|]. split; [done|]. split; [congruence|]. split; [done|].
    split; [|right; right; repeat split; try done;
             [by exists repl1 | subst nb; by destruct w]].
    subst ai0. unfold counted. destruct w, prev, (dirty b); simpl; done.
Qed.

(** ** The four associative functions are the shared body *)

Lemma FullyAssocCache_read_eq c address :
  FullyAssocCache.read c address
  = (let b := FullyAssocCache.base c in
     addr_tag ← ushr address (line_bits b + index_bits b);
     ba ← ushr address (line_bits b);
     '(ai, hist, repl, blocks) ←
       assoc_access false (access_info b) (accessed_blocks b)
         (FullyAssocCache.cache_repl c) 0 (FullyAssocCache.cache_blocks c)
         addr_tag (u32 (i32 ba));
     Some (FullyAssocCache.mk (update_cache b ai hist) blocks
             (FullyAssocCache.all_blocks_valid c) repl)).
Proof.
  unfold FullyAssocCache.read, assoc_access. cbv zeta.
  destruct (ushr address (line_bits _ + index_bits _)) as [t|]; [|done]. obind.
  destruct (ushr address (line_bits _)) as [ba|]; [|done]. obind.
  destruct (is_accessed _ _) as [prev hist].
  destruct (find_or_replace _ _ _ _ _ _ _) as [[[[ai repl] blocks] f]|]; [|done].
  obind. destruct (mark_accessed _ _ _ _) as [[repl' blocks']|]; done.
Qed.

Lemma FullyAssocCache_write_eq c address :
  FullyAssocCache.write c address
  = (let b := FullyAssocCache.base c in
     addr_tag ← ushr address (line_bits b + index_bits b);
     ba ← ushr address (line_bits b);
     '(ai, hist, repl, blocks) ←
       assoc_access true (access_info b) (accessed_blocks b)
         (FullyAssocCache.cache_repl c) 0 (FullyAssocCache.cache_blocks c)
         addr_tag (u32 (i32 ba));
     Some (FullyAssocCache.mk (update_cache b ai hist) blocks
             (FullyAssocCache.all_blocks_valid c) repl)).
Proof.
  unfold FullyAssocCache.write, assoc_access. cbv zeta.
  destruct (ushr address (line_bits _ + index_bits _)) as [t|]; [|done]. obind.
  destruct (ushr address (line_bits _)) as [ba|]; [|done]. obind.
  destruct (is_accessed _ _) as [prev hist].
  destruct (find_or_replace _ _ _ _ _ _ _) as [[[[ai repl] blocks] f]|]; [|done].
  obind. destruct (vec_get blocks f) as [block|]; [|done]. obind.
  destruct (vec_set blocks f _) as [blocks1|]; [|done]. obind.
  destruct (mark_accessed _ _ _ _) as [[repl' blocks']|]; done.
Qed.

Lemma SetAssocCache_read_eq c address :
  SetAssocCache.read c address
  = (let b := SetAssocCache.base c in
     ba ← ushr address (line_bits b);
     si ← umod ba (SetAssocCache.num_sets c);
     tg ← ushr address (line_bits b + index_bits b);
     set_blocks ← vec_get (SetAssocCache.cache_blocks c) (i32 si);
     '(ai, hist, repl, set_blocks) ←
       assoc_access false (access_info b) (accessed_blocks b)
         (SetAssocCache.cache_repl c) (u32 (i32 si)) set_blocks
         (u32 (i32 tg)) (u32 (i32 ba));
     blocks ← vec_set (SetAssocCache.cache_blocks c) (i32 si) set_blocks;
     Some (SetAssocCache.mk (update_cache b ai hist) blocks
             (SetAssocCache.num_sets c) (SetAssocCache.num_ways c) repl)).
Proof.
  unfold SetAssocCache.read, assoc_access. cbv zeta.
  destruct (ushr address (line_bits _)) as [ba|]; [|done]. obind.
  destruct (umod _ _) as [si|]; [|done]. obind.
  destruct (ushr address (line_bits _ + index_bits _)) as [t|]; [|done]. obind.
  destruct (is_accessed _ _) as [prev hist].
  destruct (vec_get _ _) as [set_blocks|]; [|done]. obind.
  destruct (find_or_replace _ _ _ _ _ _ _) as [[[[ai repl] blocks] f]|]; [|done].
  obind. destruct (mark_accessed _ _ _ _) as [[repl' blocks']|]; done.
Qed.

Lemma SetAssocCache_write_eq c address :
  SetAssocCache.write c address
  = (let b := SetAssocCache.base c in
     ba ← ushr address (line_bits b);
     si ← umod ba (SetAssocCache.num_sets c);
     tg ← ushr address (line_bits b + index_bits b);
     set_blocks ← vec_get (SetAssocCache.cache_blocks c) (i32 si);
     '(ai, hist, repl, set_blocks) ←
       assoc_access true (access_info b) (accessed_blocks b)
         (SetAssocCache.cache_repl c) (u32 (i32 si)) set_blocks
         (u32 (i32 tg)) (u32 (i32 ba));
     blocks ← vec_set (SetAssocCache.cache_blocks c) (i32 si) set_blocks;
     Some (SetAssocCache.mk (update_cache b ai hist) blocks
             (SetAssocCache.num_sets c) (SetAssocCache.num_ways c) repl)).
Proof.
  unfold SetAssocCache.write, assoc_access. cbv zeta.
  destruct (ushr address (line_bits _)) as [ba|]; [|done]. obind.
  destruct (umod _ _) as [si|]; [|done]. obind.
  destruct (ushr address (line_bits _ + index_bits _)) as [t|]; [|done]. obind.
  destruct (is_accessed _ _) as [prev hist].
  destruct (vec_get _ _) as [set_blocks|]; [|done]. obind.
  destruct (find_or_replace _ _ _ _ _ _ _) as [[[[ai repl] blocks] f]|]; [|done].
  obind. destruct (vec_get blocks f) as [block|]; [|done]. obind.
  destruct (vec_set blocks f _) as [blocks1|]; [|done]. obind.
  destruct (mark_accessed _ _ _ _) as [[repl' blocks']|]; done.
Qed.

(** ** Decoding under a well-formed geometry *)

Lemma ushr_range a s x : ushr a s = Some x -> 0 <= x < 4294967296.
Proof.
  unfold ushr. destruct (Z.ltb_spec (u32 s) 32); [|done]. intros [= <-].
  pose proof (u32_range a). pose proof (u32_range s).
  rewrite Z.shiftr_div_pow2 by lia.
  assert (0 < 2 ^ u32 s) by (apply Z.pow_pos_nonneg; lia).
  split; [apply Z.div_pos; lia|].
  apply Z.le_lt_trans with (u32 a); [|lia].
  apply Z.div_le_upper_bound; [lia|]. nia.
Qed.

Lemma ushr_total a s : 0 <= s < 32 -> exists x, ushr a s = Some x.
Proof.
  intros Hs. unfold ushr. rewrite (u32_small s) by lia.
  destruct (Z.ltb_spec s 32); [|lia]. by eexists.
Qed.

Lemma umod_total a n :
  1 <= n <= 1073741824 ->
  exists x, umod a n = Some x /\ 0 <= x < n /\ i32 x = x.
Proof.
  intros Hn. unfold umod. rewrite (u32_small n) by lia.
  destruct (Z.eqb_spec n 0); [lia|].
  eexists. split; [done|].
  pose proof (Z.mod_pos_bound (u32 a) n ltac:(lia)).
  split; [lia|]. apply i32_small. lia.
Qed.

(** ** One access of any organisation *)

Lemma same_geometry_intro c c' :
  line_bits (cache_base c') = line_bits (cache_base c) ->
  index_bits (cache_base c') = index_bits (cache_base c) ->
  (forall address, set_index_of c' address = set_index_of c address) ->
  same_geometry c c'.
Proof.
  intros Hl Hi Hs address. unfold block_address_of, addr_tag_of.
  rewrite Hl, Hi. auto.
Qed.

(** A fully associative access, with the order of the ways it leaves. *)
Lemma fa_access_cases c op address :
  wf (FA c) ->
  exists t ba ai' repl' (k : nat) b nb kind vd,
    addr_tag_of (FA c) address = Some t
    /\ block_address_of (FA c) address = Some ba
    /\ access (FA c) (op, address)
       = Some (FA (FullyAssocCache.mk
                     (update_cache (FullyAssocCache.base c) ai'
                        (snd (is_accessed
                                (accessed_blocks (FullyAssocCache.base c)) ba)))
                     (reorder
                        (replacement_policy (FullyAssocCache.cache_repl c)) k
                        (<[k := nb]> (FullyAssocCache.cache_blocks c)))
                     (FullyAssocCache.all_blocks_valid c) repl'))
    /\ wf_replace repl' 1
         (Z.of_nat (length (FullyAssocCache.cache_blocks c)))
    /\ replacement_policy repl'
       = replacement_policy (FullyAssocCache.cache_repl c)
    /\ FullyAssocCache.cache_blocks c !! k = Some b
    /\ counted (is_write op) kind vd
         (access_info (FullyAssocCache.base c)) ai'
    /\ ((tag b = t
         /\ nb = (if is_write op then set_dirty b true else b)
         /\ kind = (if history_mem
                         (accessed_blocks (FullyAssocCache.base c)) ba
                    then NoMiss else Compulsory)
         /\ vd = false)
        \/ (Forall (fun b => tag b <> t) (FullyAssocCache.cache_blocks c)
            /\ valid b = false
            /\ (forall (j : nat) b', (j < k)%nat ->
                  FullyAssocCache.cache_blocks c !! j = Some b' ->
                  valid b' = true)
            /\ nb = mkCacheBlock t (is_write op || dirty b) true
            /\ kind = (if history_mem
                            (accessed_blocks (FullyAssocCache.base c)) ba
                       then NoMiss else Compulsory)
            /\ vd = false)
        \/ (Forall (fun b => valid b = true /\ tag b <> t)
              (FullyAssocCache.cache_blocks c)
            /\ (exists r1,
                   get_victim_index (FullyAssocCache.cache_repl c) 0
                     (FullyAssocCache.cache_blocks c)
                   = Some (Z.of_nat k, r1))
            /\ nb = mkCacheBlock t (is_write op) true
            /\ kind = (if history_mem
                            (accessed_blocks (FullyAssocCache.base c)) ba
                       then Capacity else Compulsory)
            /\ vd = dirty b)).
Proof.
  intros [Hbase Hwf]. simpl in Hbase, Hwf.
  destruct Hbase as (Hlb & Hib & Hsum).
  set (base := FullyAssocCache.base c) in *.
  destruct (ushr_total address (line_bits base + index_bits base))
    as [t Ht]; [lia|].
  destruct (ushr_total address (line_bits base)) as [ba Hba]; [lia|].
  pose proof (ushr_range _ _ _ Ht) as Htr.
  destruct (assoc_access_cases (is_write op) (access_info base)
              (accessed_blocks base) (FullyAssocCache.cache_repl c) 0
              (FullyAssocCache.cache_blocks c) t (u32 (i32 ba)) 1 _
              Hwf eq_refl ltac:(lia))
    as (ai' & repl' & k & b & nb & kind & vd & Hrun & Hwf' & Hp' & Hk
        & Hcount & Hcases).
  exists t, (u32 (i32 ba)), ai', repl', k, b, nb, kind, vd.
  split.
  { unfold addr_tag_of; simpl; fold base. rewrite Ht. obind.
    by rewrite u32_i32_small. }
  split; [unfold block_address_of; simpl; fold base; by rewrite Hba|].
  split.
  { unfold access. destruct op; simpl in Hrun |- *.
    - rewrite FullyAssocCache_read_eq. fold base. cbv zeta.
      rewrite Ht, Hba. obind. rewrite Hrun. obind. done.
    - rewrite FullyAssocCache_write_eq. fold base. cbv zeta.
      rewrite Ht, Hba. obind. rewrite Hrun. obind. done. }
  split; [done|]. split; [done|]. split; [done|]. split; [done|].
  destruct Hcases as
    [(Htag & _ & -> & -> & ->)
    |[(Hall & Hv & Hfirst & -> & -> & ->)|(Hall & Hvic & -> & -> & ->)]];
    auto 10.
Qed.

(** Every access of a well-formed cache returns, keeps the cache
    well-formed, changes one set and resolves in one of the three ways. *)
Lemma access_cases c op address :
  wf c ->
  exists c' ba t si blocks (k : nat) b nb kind vd blocks',
    access c (op, address) = Some c'
    /\ wf c' /\ same_geometry c c'
    /\ block_address_of c address = Some ba
    /\ addr_tag_of c address = Some t
    /\ set_index_of c address = Some si
    /\ vec_get (cache_sets c) si = Some blocks
    /\ history c' = snd (is_accessed (history c) ba)
    /\ cache_sets c' = <[Z.to_nat si := blocks']> (cache_sets c)
    /\ blocks' ≡ₚ <[k := nb]> blocks
    /\ blocks !! k = Some b
    /\ counted (is_write op) kind vd (stats c) (stats c')
    /\ Resolved c (is_write op) (history_mem (history c) ba) t blocks b nb
         kind vd.
Proof.
  intros [Hbase Hwf]. destruct c as [c|c|c].
  - (* direct-mapped *)
    simpl in Hbase, Hwf. destruct Hbase as (Hlb & Hib & Hsum).
    destruct Hwf as (Hnb & Hlen).
    set (base := DirectMappedCache.base c) in *.
    destruct (ushr_total address (line_bits base)) as [ba Hba]; [lia|].
    destruct (umod_total (i32 ba) (num_blocks base) Hnb)
      as (idx & Hidx & Hidxr & Hidx32).
    destruct (ushr_total address (line_bits base + index_bits base))
      as [tg Ht]; [lia|].
    destruct (vec_get_in_range (DirectMappedCache.cache_blocks c) idx)
      as [b Hb]; [lia|].
    pose proof Hb as Hbl. rewrite vec_get_lookup in Hbl by lia.
    assert (Hacc : forall nb kind vd ai',
      access (DM c) (op, address)
      = Some (DM (DirectMappedCache.mk
                    (update_cache base ai'
                       (snd (is_accessed (accessed_blocks base) (u32 (i32 ba)))))
                    (<[Z.to_nat idx := nb]> (DirectMappedCache.cache_blocks c)))) ->
      counted (is_write op) kind vd (access_info base) ai' ->
      Resolved (DM c) (is_write op)
        (history_mem (accessed_blocks base) (u32 (i32 ba))) (u32 (i32 tg))
        [b] b nb kind vd ->
      exists c' ba t si blocks (k : nat) b nb kind vd blocks',
        access (DM c) (op, address) = Some c'
        /\ wf c' /\ same_geometry (DM c) c'
        /\ block_address_of (DM c) address = Some ba
        /\ addr_tag_of (DM c) address = Some t
        /\ set_index_of (DM c) address = Some si
        /\ vec_get (cache_sets (DM c)) si = Some blocks
        /\ history c' = snd (is_accessed (history (DM c)) ba)
        /\ cache_sets c' = <[Z.to_nat si := blocks']> (cache_sets (DM c))
        /\ blocks' ≡ₚ <[k := nb]> blocks
        /\ blocks !! k = Some b
        /\ counted (is_write op) kind vd (stats (DM c)) (stats c')
        /\ Resolved (DM c) (is_write op)
             (history_mem (history (DM c)) ba) t blocks b nb kind vd).
    { intros nb kind vd ai' Hrun Hcount Hres.
      eexists _, (u32 (i32 ba)), (u32 (i32 tg)), idx, [b], 0%nat, b, nb,
        kind, vd, [nb].
      split; [exact Hrun|].
      split.
      { split; [done|]. simpl. by rewrite length_insert. }
      split; [by apply same_geometry_intro|].
      split; [unfold block_address_of; simpl; fold base; by rewrite Hba|].
      split; [unfold addr_tag_of; simpl; fold base; by rewrite Ht|].
      split.
      { unfold set_index_of; simpl; fold base. rewrite Hba. obind.
        rewrite Hidx. simpl. by rewrite Hidx32. }
      split.
      { rewrite vec_get_lookup by lia. simpl.
        rewrite list_lookup_fmap, Hbl. done. }
      split; [done|].
      split; [simpl; by rewrite list_fmap_insert|].
      split; [done|]. split; [done|]. split; [exact Hcount|exact Hres]. }
    unfold is_accessed in Hacc.
    destruct (history_mem (accessed_blocks base) (u32 (i32 ba))) eqn:Hprev;
      destruct (valid b) eqn:Hv;
      destruct (tag b =? u32 (i32 tg)) eqn:Htag;
      destruct (dirty b) eqn:Hd;
      try apply Z.eqb_eq in Htag as Htag'; try apply Z.eqb_neq in Htag as Htag';
      destruct op;
      (eapply Hacc;
       [ unfold access, DirectMappedCache.read, DirectMappedCache.write;
         fold base; cbv zeta; rewrite Hba; obind; rewrite Hidx; obind;
         rewrite Ht; obind; rewrite Hidx32; unfold is_accessed;
         rewrite Hprev, Hb; obind; rewrite Hv, ?Htag, ?Hd;
         simpl negb; cbv iota beta;
         rewrite vec_set_in_range by lia; reflexivity
       | | ]);
      cycle 1.
    all: try (apply resolved_hit; [done | done]).
    all: try (apply resolved_evict;
              [ repeat constructor; done
              | destruct b; simpl in *; by subst ]).
    all: try (apply resolved_fill;
              [ done | repeat constructor; congruence
              | destruct b; simpl in *; by subst ]).
    all: unfold counted; rewrite ?Hd; simpl; done.
  - (* fully associative *)
    destruct (fa_access_cases c op address (conj Hbase Hwf))
      as (t & ba & ai' & repl' & k & b & nb & kind & vd & Ht & Hba & Hacc
          & Hwf' & Hp' & Hk & Hcount & Hcases).
    eexists _, ba, t, 0, (FullyAssocCache.cache_blocks c), k, b, nb, kind,
      vd, _.
    split; [exact Hacc|].
    split.
    { split; [done|]. simpl. by rewrite length_reorder, length_insert. }
    split; [by apply same_geometry_intro|].
    split; [done|]. split; [done|].
    split.
    { unfold set_index_of, block_address_of in *. simpl in *.
      by destruct (ushr address _). }
    split; [done|]. split; [done|]. split; [done|].
    split; [apply reorder_Permutation|]. split; [done|]. split; [done|].
    destruct Hcases as
      [(Htag & -> & -> & ->)
      |[(Hall & Hv & _ & -> & -> & ->)|(Hall & _ & -> & -> & ->)]].
    + by constructor.
    + constructor; [done| |done].
      eapply Forall_impl; [exact Hall|]. auto.
    + by constructor.
  - (* set associative *)
    simpl in Hbase, Hwf. destruct Hbase as (Hlb & Hib & Hsum).
    destruct Hwf as (Hns & Hlen & Hsets & Hrepl).
    set (base := SetAssocCache.base c) in *.
    destruct (ushr_total address (line_bits base)) as [ba Hba]; [lia|].
    destruct (umod_total ba (SetAssocCache.num_sets c) Hns)
      as (si & Hsi & Hsir & Hsi32).
    destruct (ushr_total address (line_bits base + index_bits base))
      as [t Ht]; [lia|].
    destruct (vec_get_in_range (SetAssocCache.cache_blocks c) si)
      as [blocks Hblocks]; [lia|].
    pose proof Hblocks as Hbl. rewrite vec_get_lookup in Hbl by lia.
    apply (Forall_lookup_1 _ _ _ _ Hsets) in Hbl.
    destruct (assoc_access_cases (is_write op) (access_info base)
                (accessed_blocks base) (SetAssocCache.cache_repl c) si
                blocks (u32 (i32 t)) (u32 (i32 ba)) _ _ Hrepl Hbl ltac:(lia))
      as (ai' & repl' & k & b & nb & kind & vd & Hrun & Hwf' & Hp' & Hk
          & Hcount & Hcases).
    eexists _, (u32 (i32 ba)), (u32 (i32 t)), si, blocks, k, b, nb, kind, vd, _.
    split.
    { unfold access. destruct op; simpl in Hrun |- *.
      - rewrite SetAssocCache_read_eq. fold base. cbv zeta.
        rewrite Hba. obind. rewrite Hsi. obind. rewrite Ht. obind.
        rewrite Hsi32, Hblocks. obind. rewrite (u32_small si) by lia.
        rewrite Hrun. obind. rewrite vec_set_in_range by lia. done.
      - rewrite SetAssocCache_write_eq. fold base. cbv zeta.
        rewrite Hba. obind. rewrite Hsi. obind. rewrite Ht. obind.
        rewrite Hsi32, Hblocks. obind. rewrite (u32_small si) by lia.
        rewrite Hrun. obind. rewrite vec_set_in_range by lia. done. }
    destruct Hwf' as (Hways' & Hwr & Hplru').
    split.
    { split; [done|]. simpl. split; [done|].
      split; [by rewrite length_insert|]. split.
      - apply Forall_insert; [by rewrite Hways'|].
        by rewrite Hways', length_reorder, length_insert.
      - rewrite Hways'. done. }
    split; [by apply same_geometry_intro|].
    split; [unfold block_address_of; simpl; fold base; by rewrite Hba|].
    split; [unfold addr_tag_of; simpl; fold base; by rewrite Ht|].
    split.
    { unfold set_index_of; simpl; fold base. rewrite Hba. obind.
      rewrite Hsi. simpl. by rewrite Hsi32. }
    split; [done|]. split; [done|]. split; [done|].
    split; [apply reorder_Permutation|]. split; [done|]. split; [done|].
    destruct Hcases as
      [(Htag & _ & -> & -> & ->)
      |[(Hall & Hv & _ & -> & -> & ->)|(Hall & _ & -> & -> & ->)]].
    + by constructor.
    + constructor; [done| |done].
      eapply Forall_impl; [exact Hall|]. auto.
    + by constructor.
Qed.

(** ** The caches the driver builds are well-formed *)

Lemma pow2_range i : 0 <= i <= 30 -> 1 <= 2 ^ i <= 1073741824.
Proof.
  intros Hi. split.
  - change 1 with (2 ^ 0). apply Z.pow_le_mono_r; lia.
  - change 1073741824 with (2 ^ 30). apply Z.pow_le_mono_r; lia.
Qed.

Lemma valid_pow2_spec x :
  valid_pow2 x = true -> exists i, 0 <= i <= 30 /\ u32 x = 2 ^ i.
Proof.
  unfold valid_pow2. intros H.
  apply List.existsb_exists in H as (n & Hin & Hn).
  apply List.in_seq in Hin. apply Z.eqb_eq in Hn.
  exists (Z.of_nat n). split; [lia|].
  rewrite Hn, Z.shiftl_1_l.
  pose proof (pow2_range (Z.of_nat n) ltac:(lia)).
  apply u32_i32_small. lia.
Qed.

Lemma valid_assoc_spec x :
  valid_assoc x = true -> exists i, 1 <= i <= 5 /\ u32 x = 2 ^ i.
Proof.
  unfold valid_assoc. intros H.
  apply List.existsb_exists in H as (n & Hin & Hn).
  apply List.in_seq in Hin. apply Z.eqb_eq in Hn.
  exists (Z.of_nat n). split; [lia|].
  rewrite Hn, Z.shiftl_1_l.
  pose proof (pow2_range (Z.of_nat n) ltac:(lia)).
  apply u32_i32_small. lia.
Qed.

(** The loop of [Cache::Cache] finds the exponent of a power of two. *)
Lemma find_bits_pow2 x uninit b :
  0 <= b <= 30 -> u32 x = 2 ^ b -> find_bits 32 0 x uninit = b.
Proof.
  intros Hb Hx.
  assert (Hgen : forall n i, 0 <= i <= b -> b < i + Z.of_nat n ->
                   find_bits n i x uninit = b).
  { induction n as [|n IH]; intros i Hi Hn; [lia|].
    simpl. rewrite Hx, Z.shiftl_1_l.
    pose proof (pow2_range i ltac:(lia)).
    rewrite u32_i32_small by lia.
    destruct (Z.eqb_spec (2 ^ i) (2 ^ b)) as [Heq|Hne].
    - apply Z.pow_inj_r in Heq; lia.
    - apply IH; [|lia].
      assert (i <> b) by congruence. lia. }
  apply Hgen; simpl; lia.
Qed.

Lemma Cache_new_spec cache_size block_size ulb uib a b :
  0 <= b <= a -> a <= 30 ->
  u32 cache_size = 2 ^ a -> u32 block_size = 2 ^ b ->
  Cache_new cache_size block_size ulb uib
  = Some (mkCache (2 ^ a) (2 ^ b) (2 ^ (a - b)) b (a - b) AccessInfo_new []).
Proof.
  intros Hb Ha Hcs Hbs. unfold Cache_new, udiv.
  pose proof (pow2_range b ltac:(lia)).
  rewrite Hcs, Hbs.
  destruct (Z.eqb_spec (2 ^ b) 0); [lia|]. obind.
  rewrite <- Z.pow_sub_r by lia.
  rewrite (find_bits_pow2 block_size ulb b) by (done || lia).
  rewrite (find_bits_pow2 (2 ^ (a - b)) uib (a - b)); [done|lia|].
  pose proof (pow2_range (a - b) ltac:(lia)). apply u32_small. lia.
Qed.

Lemma length_new_blocks block_size uninit_tag first n :
  length (new_blocks block_size uninit_tag first n) = n.
Proof. unfold new_blocks. by rewrite length_fmap, length_seq. Qed.

Lemma plru_init_set_spec nways :
  1 <= nways <= 1073741824 -> plru_init_set nways = Some (fresh_tree nways).
Proof.
  intros Hw. unfold plru_init_set.
  destruct (Z.leb_spec 1 nways); [|lia].
  destruct (Z.leb_spec nways 1073741824); [|lia]. done.
Qed.

Lemma CacheReplace_new_spec policy nsets nways seeded :
  1 <= nways <= 1073741824 ->
  CacheReplace_new policy nsets nways seeded
  = Some (fresh_replace policy nsets nways seeded).
Proof.
  intros Hw. unfold CacheReplace_new, fresh_replace.
  destruct policy; try done.
  rewrite plru_init_set_spec by done.
  destruct (Z.leb_spec nsets 0); [|done].
  by replace (Z.to_nat nsets) with O by lia.
Qed.

(** The policy objects used as instances are the constructor's. *)
Lemma plru_instances_constructed :
  CacheReplace_new PSEUDO_LRU 1 4 constant_rand = Some plru_four_ways
  /\ CacheReplace_new PSEUDO_LRU 1 1 constant_rand = Some plru_one_way.
Proof. split; reflexivity. Qed.

Lemma wf_replace_new policy nsets nways seeded :
  0 <= nsets -> 1 <= nways <= 1073741824 ->
  wf_replace (fresh_replace policy nsets nways seeded) nsets nways.
Proof.
  intros Hs Hw. split; [done|]. split; [done|]. simpl. intros ->.
  split; [rewrite length_replicate; lia|].
  apply Forall_replicate. unfold fresh_tree.
  rewrite length_app, !length_replicate. lia.
Qed.

Lemma configure_wf cache_size block_size associativity policy ulb uib
    uninit_tag seeded raw_empty c :
  configure cache_size block_size associativity policy ulb uib uninit_tag
    seeded raw_empty = Some c ->
  fits cache_size block_size associativity ->
  wf c /\ stats c = AccessInfo_new /\ history c = [].
Proof.
  unfold configure, fits. intros Hc Hfits.
  destruct (valid_pow2 cache_size) eqn:Hcs; [|done].
  destruct (valid_pow2 block_size) eqn:Hbs; [|done].
  apply valid_pow2_spec in Hcs as (a & Ha & Hcs).
  apply valid_pow2_spec in Hbs as (b & Hb & Hbs).
  cbn [negb] in Hc. rewrite Hcs, Hbs in Hfits.
  pose proof (pow2_range a Ha) as Hpa. pose proof (pow2_range b Hb) as Hpb.
  assert (Hba : b <= a).
  { apply (Z.pow_le_mono_r_iff 2); [lia|lia|].
    assert (1 <= Z.max 1 (u32 associativity)) by lia. nia. }
  pose proof (pow2_range (a - b) ltac:(lia)) as Hpab.
  unfold DIRECT_MAPPED, FULLY_ASSOCIATIVE in Hc.
  unfold DirectMappedCache.new, FullyAssocCache.new, SetAssocCache.new in Hc.
  rewrite !(Cache_new_spec cache_size block_size ulb uib a b) in Hc
    by (done || lia).
  destruct (Z.eqb_spec (u32 associativity) 1) as [Hdm|Hndm].
  { simpl in Hc. injection Hc as <-. split; [|done].
    split; [simpl; unfold wf_base; simpl; lia|]. simpl.
    rewrite length_new_blocks. lia. }
  destruct (Z.eqb_spec (u32 associativity) 0) as [Hfa|Hnfa].
  { simpl in Hc. rewrite CacheReplace_new_spec in Hc by lia.
    simpl in Hc. injection Hc as <-. split; [|done].
    split; [simpl; unfold wf_base; simpl; lia|]. simpl.
    rewrite length_new_blocks, Z2Nat.id by lia.
    apply wf_replace_new; lia. }
  destruct (valid_assoc associativity) eqn:Hassoc; [|done].
  apply valid_assoc_spec in Hassoc as (j & Hj & Hassoc).
  pose proof (pow2_range j ltac:(lia)) as Hpj.
  assert (2 ^ j <= 32) by (change 32 with (2 ^ 5); apply Z.pow_le_mono_r; lia).
  rewrite Hassoc in Hfits.
  assert (Hja : b + j <= a).
  { apply (Z.pow_le_mono_r_iff 2); [lia|lia|].
    rewrite Z.pow_add_r by lia. lia. }
  simpl in Hc. unfold udiv in Hc. simpl in Hc.
  rewrite Hassoc, (u32_small (2 ^ (a - b))) in Hc by lia.
  destruct (Z.eqb_spec (2 ^ j) 0); [lia|]. simpl in Hc.
  rewrite <- Z.pow_sub_r in Hc by lia.
  pose proof (pow2_range (a - b - j) ltac:(lia)) as Hps.
  destruct (forallb raw_empty _); [|done].
  rewrite CacheReplace_new_spec in Hc by lia. simpl in Hc.
  injection Hc as <-. split; [|done].
  split; [simpl; unfold wf_base; simpl; lia|]. simpl.
  split; [lia|]. split; [rewrite length_fmap, length_seq; lia|].
  split.
  - apply Forall_fmap, Forall_forall. intros i _. simpl.
    rewrite length_new_blocks. lia.
  - apply wf_replace_new; lia.
Qed.

(** ** Traces *)

Lemma counted_inv w kind vd a a' n :
  0 <= n ->
  counted w kind vd a a' -> counters_inv n a -> counters_inv (n + 1) a'.
Proof.
  intros Hn (_ & _ & _ & Hm & Hcomp & Hcap & Hconf & _)
    (H1 & H2 & H3 & Hsum & Hexact).
  unfold counters_inv, misses_add_up, misses_add_up_exactly in *.
  rewrite Hm, Hcomp, Hcap, Hconf. clear Hm Hcomp Hcap Hconf.
  assert (Hstep : forall x, 0 <= x -> 0 <= incr x) by (intros; zwrap).
  assert (Hone : forall x, 0 <= x < 4294967295 -> incr x = x + 1)
    by (intros; zwrap).
  split; [destruct kind; auto|]. split; [destruct kind; auto|].
  split; [destruct kind; auto|]. split.
  - clear Hexact Hstep Hone. destruct kind; simpl; [done|zwrap..].
  - intros Hn'. destruct Hexact as [He Hle]; [lia|].
    destruct kind; simpl; [lia|rewrite !Hone by lia; lia..].
Qed.

Lemma same_geometry_refl c : same_geometry c c.
Proof. by intros address. Qed.

Lemma same_geometry_trans c1 c2 c3 :
  same_geometry c1 c2 -> same_geometry c2 c3 -> same_geometry c1 c3.
Proof.
  intros H12 H23 address.
  destruct (H12 address) as (? & ? & ?), (H23 address) as (? & ? & ?).
  repeat split; congruence.
Qed.

Lemma history_mem_is_accessed h a x :
  history_mem h x = true -> history_mem (snd (is_accessed h a)) x = true.
Proof.
  rewrite !history_mem_In. unfold is_accessed.
  destruct (history_mem h a); simpl; [done|].
  rewrite in_app_iff. auto.
Qed.

(** A trace runs to its end from any well-formed cache. *)
Lemma simulate_wf trace :
  forall c n,
    wf c -> 0 <= n -> counters_inv n (stats c) ->
    exists c',
      simulate c trace = Some c' /\ wf c' /\ same_geometry c c'
      /\ counters_inv (n + Z.of_nat (length trace)) (stats c')
      /\ (forall x, history_mem (history c) x = true ->
                    history_mem (history c') x = true).
Proof.
  induction trace as [|[op address] trace IH]; intros c n Hwf Hn Hinv.
  - exists c. simpl. rewrite Z.add_0_r.
    split; [done|]. split; [done|]. split; [apply same_geometry_refl|].
    split; done.
  - destruct (access_cases c op address Hwf)
      as (c1 & ba & t & si & blocks & k & b & nb & kind & vd & blocks'
          & Hacc & Hwf1 & Hgeo & _ & _ & _ & _ & Hhist & _ & _ & _ & Hcount & _).
    destruct (IH c1 (n + 1) Hwf1 ltac:(lia) (counted_inv _ _ _ _ _ _ Hn Hcount Hinv))
      as (c' & Hsim & Hwf' & Hgeo' & Hinv' & Hh').
    exists c'. simpl. rewrite Hacc. obind.
    split; [done|]. split; [done|].
    split; [by eapply same_geometry_trans|].
    split.
    + replace (n + Z.of_nat (S (length trace)))
        with (n + 1 + Z.of_nat (length trace)) by lia. done.
    + intros x Hx. apply Hh'. rewrite Hhist.
      by apply history_mem_is_accessed.
Qed.

Lemma counters_inv_new : counters_inv 0 AccessInfo_new.
Proof.
  unfold counters_inv, misses_add_up, misses_add_up_exactly. simpl.
  repeat split; try lia; reflexivity.
Qed.

Lemma reachable_wf c : reachable c -> wf c.
Proof.
  intros (cs & bs & assoc & policy & ulb & uib & utag
            & seeded & raw & c0 & trace
          & Hconf & Hfits & Hsim).
  destruct (configure_wf _ _ _ _ _ _ _ _ _ _ Hconf Hfits) as (Hwf & Hstats & _).
  destruct (simulate_wf trace c0 0 Hwf ltac:(lia)) as (c' & Hsim' & Hwf' & _).
  { rewrite Hstats. apply counters_inv_new. }
  congruence.
Qed.

Lemma simulate_app c trace1 trace2 :
  simulate c (trace1 ++ trace2) = (c' ← simulate c trace1; simulate c' trace2).
Proof.
  revert c. induction trace1 as [|op trace1 IH]; intros c; simpl; [done|].
  destruct (access c op) as [c1|]; simpl; [apply IH|done].
Qed.


(** ** The fully associative cache under LRU *)

(** The tag is made of the high bits of the block address. *)
Lemma tag_of_block_address c address ba t :
  wf_base (cache_base c) ->
  block_address_of c address = Some ba ->
  addr_tag_of c address = Some t ->
  t = Z.shiftr ba (index_bits (cache_base c)).
Proof.
  intros (Hlb & Hib & Hsum). unfold block_address_of, addr_tag_of.
  destruct (ushr address (line_bits _)) as [x|] eqn:Hx; [|done].
  destruct (ushr address (line_bits _ + _)) as [y|] eqn:Hy; [|done].
  simpl. intros [= <-] [= <-].
  pose proof (ushr_range _ _ _ Hx). pose proof (ushr_range _ _ _ Hy).
  rewrite !u32_i32_small by done.
  unfold ushr in Hx, Hy.
  destruct (u32 (line_bits (cache_base c)) <? 32); [|done].
  destruct (u32 (line_bits (cache_base c) + index_bits (cache_base c)) <? 32);
    [|done].
  injection Hx as <-. injection Hy as <-.
  rewrite (u32_small (line_bits (cache_base c))) by lia.
  rewrite (u32_small (line_bits (cache_base c) + index_bits (cache_base c)))
    by lia.
  rewrite Z.shiftr_shiftr by lia. done.
Qed.

Lemma reorder_lru_front b rest nb :
  reorder LRU 0 (<[0%nat := nb]> (b :: rest)) = rest ++ [nb].
Proof. reflexivity. Qed.

Lemma get_victim_index_lru r set_index data v r' :
  replacement_policy r = LRU ->
  get_victim_index r set_index data = Some (v, r') -> v = 0 /\ r' = r.
Proof.
  unfold get_victim_index. intros ->. by intros [= <- <-].
Qed.

Lemma mark_accessed_lru r set_index data (k : nat) b :
  replacement_policy r = LRU ->
  data !! k = Some b ->
  mark_accessed r set_index data (Z.of_nat k) = Some (r, delete k data ++ [b]).
Proof.
  intros Hp Hk. unfold mark_accessed. rewrite Hp.
  destruct (decide (LRU = LRU)) as [_|]; [|done].
  destruct (decide (LRU = PSEUDO_LRU)) as [|_]; [done|].
  rewrite vec_get_lookup, Nat2Z.id, Hk by lia. done.
Qed.

(** An access whose tag no way holds, on a front way that is invalid:
    the front way is filled and moves to the back. *)
Lemma lru_fill_step c0 c g rest seen cap op address t ba :
  lru_state c0 c (g :: rest) seen cap ->
  valid g = false ->
  addr_tag_of c0 address = Some t ->
  block_address_of c0 address = Some ba ->
  Forall (fun b => tag b <> t) (g :: rest) ->
  exists c',
    access c (op, address) = Some c'
    /\ lru_state c0 c'
         (rest ++ [mkCacheBlock t (is_write op || dirty g) true])
         (seen ++ [ba]) cap.
Proof.
  intros (fc & -> & Hwf & Hgeo & Hlru & Hblocks & Hseen & Hcap) Hg Ht Hba Hall.
  destruct (Hgeo address) as (Hba' & Ht' & _).
  destruct (fa_access_cases fc op address Hwf)
    as (t1 & ba1 & ai' & repl' & k & b & nb & kind & vd & Ht1 & Hba1 & Hacc
        & Hwf' & Hp' & Hk & Hcount & Hcases).
  assert (t1 = t) by congruence. assert (ba1 = ba) by congruence. subst t1 ba1.
  rewrite Hblocks in *. rewrite Hlru in *.
  destruct Hcases as
    [(Htag & _)|[(_ & Hv & Hfirst & -> & -> & _)|(Hvalid & _)]].
  - apply (Forall_lookup_1 _ _ _ _ Hall) in Hk. done.
  - assert (k = 0%nat) as ->.
    { destruct k as [|k]; [done|].
      specialize (Hfirst 0%nat g ltac:(lia) eq_refl). congruence. }
    simpl in Hk. injection Hk as <-.
    rewrite reorder_lru_front in Hacc.
    eexists. split; [exact Hacc|].
    eexists. split; [done|]. split.
    { destruct Hwf as [Hb Hw]. split; [done|]. simpl in *.
      rewrite length_app. simpl.
      replace (Z.of_nat (length rest + 1)) with (Z.of_nat (S (length rest)))
        by lia. done. }
    split.
    { eapply same_geometry_trans; [exact Hgeo|].
      by apply same_geometry_intro. }
    split; [simpl; congruence|]. split; [done|]. split.
    + intros x. unfold history. simpl.
      rewrite history_mem_In. unfold is_accessed.
      specialize (Hseen ba) as Hsb. unfold history in Hsb, Hseen. simpl in Hsb, Hseen.
      destruct (history_mem _ ba) eqn:Hm; simpl; rewrite in_app_iff; simpl.
      * rewrite <- history_mem_In, Hseen.
        split; [auto|]. intros [Hx|[<-|[]]]; [done|]. by apply Hsb.
      * rewrite in_app_iff. simpl. rewrite <- history_mem_In, Hseen. tauto.
    + unfold stats in *. simpl in *.
      destruct Hcount as (_ & _ & _ & _ & _ & Hc & _).
      rewrite Hc. by destruct (history_mem _ _).
  - apply Forall_cons in Hvalid as [[Hgv _] _]. congruence.
Qed.

(** An access whose tag no way holds, on a set without invalid way: the
    front way is the victim, and the new block moves to the back. The miss
    is a capacity miss when the history holds the block address. *)
Lemma lru_evict_step c0 c v rest seen cap op address t ba :
  lru_state c0 c (v :: rest) seen cap ->
  addr_tag_of c0 address = Some t ->
  block_address_of c0 address = Some ba ->
  Forall (fun b => valid b = true /\ tag b <> t) (v :: rest) ->
  exists c',
    access c (op, address) = Some c'
    /\ lru_state c0 c'
         (rest ++ [mkCacheBlock t (is_write op) true])
         (seen ++ [ba])
         (if history_mem seen ba then incr cap else cap).
Proof.
  intros (fc & -> & Hwf & Hgeo & Hlru & Hblocks & Hseen & Hcap) Ht Hba Hall.
  destruct (Hgeo address) as (Hba' & Ht' & _).
  destruct (fa_access_cases fc op address Hwf)
    as (t1 & ba1 & ai' & repl' & k & b & nb & kind & vd & Ht1 & Hba1 & Hacc
        & Hwf' & Hp' & Hk & Hcount & Hcases).
  assert (t1 = t) by congruence. assert (ba1 = ba) by congruence. subst t1 ba1.
  rewrite Hblocks in *. rewrite Hlru in *.
  destruct Hcases as
    [(Htag & _)|[(_ & Hv & _)|(_ & (r1 & Hvic) & -> & -> & _)]].
  - apply (Forall_lookup_1 _ _ _ _ Hall) in Hk as [_ Hk]. done.
  - apply (Forall_lookup_1 _ _ _ _ Hall) in Hk as [Hk _]. congruence.
  - apply get_victim_index_lru in Hvic as [Hk0 _]; [|done].
    assert (k = 0%nat) as -> by lia.
    rewrite reorder_lru_front in Hacc.
    eexists. split; [exact Hacc|].
    eexists. split; [done|]. split.
    { destruct Hwf as [Hb Hw]. split; [done|]. simpl in *.
      rewrite length_app. simpl.
      replace (Z.of_nat (length rest + 1)) with (Z.of_nat (S (length rest)))
        by lia. done. }
    split.
    { eapply same_geometry_trans; [exact Hgeo|].
      by apply same_geometry_intro. }
    split; [simpl; congruence|]. split; [done|].
    assert (Hmem : history_mem (accessed_blocks (FullyAssocCache.base fc)) ba
                   = history_mem seen ba).
    { specialize (Hseen ba) as Hsb. unfold history in Hsb. simpl in Hsb.
      destruct (history_mem seen ba) eqn:Hs.
      - apply history_mem_In in Hs. by apply Hsb.
      - apply history_mem_false in Hs.
        destruct (history_mem _ ba); [|done].
        destruct Hs. by apply Hsb. }
    split.
    + intros x. unfold history. simpl.
      rewrite history_mem_In. unfold is_accessed.
      specialize (Hseen ba) as Hsb. unfold history in Hsb, Hseen.
      simpl in Hsb, Hseen.
      destruct (history_mem _ ba) eqn:Hm; simpl; rewrite in_app_iff; simpl.
      * rewrite <- history_mem_In, Hseen.
        split; [auto|]. intros [Hx|[<-|[]]]; [done|]. by apply Hsb.
      * rewrite in_app_iff. simpl. rewrite <- history_mem_In, Hseen. tauto.
    + unfold stats in *. simpl in *.
      destruct Hcount as (_ & _ & _ & _ & _ & Hc & _).
      rewrite Hc, Hmem. destruct (history_mem seen ba); simpl; congruence.
Qed.

Lemma decode_total c address :
  wf_base (cache_base c) ->
  addr_tag_of c address = Some (tag_of c address)
  /\ block_address_of c address = Some (block_of c address).
Proof.
  intros (Hlb & Hib & Hsum). unfold tag_of, block_of, addr_tag_of,
    block_address_of.
  destruct (ushr_total address (line_bits (cache_base c))) as [x ->]; [lia|].
  destruct (ushr_total address
              (line_bits (cache_base c) + index_bits (cache_base c)))
    as [y ->]; [lia|].
  done.
Qed.

(** Different tags come from different block addresses. *)
Lemma block_of_tag_of c a1 a2 :
  wf_base (cache_base c) ->
  block_of c a1 = block_of c a2 -> tag_of c a1 = tag_of c a2.
Proof.
  intros Hb Heq.
  destruct (decode_total c a1 Hb) as [Ht1 Hb1].
  destruct (decode_total c a2 Hb) as [Ht2 Hb2].
  rewrite (tag_of_block_address c a1 _ _ Hb Hb1 Ht1).
  rewrite (tag_of_block_address c a2 _ _ Hb Hb2 Ht2).
  by rewrite Heq.
Qed.

(** While invalid ways remain at the front, accesses with fresh tags fill
    them one by one; the filled ways line up at the back in the order of
    the accesses. *)
Lemma lru_fill_phase c0 todo :
  wf_base (cache_base c0) ->
  forall c invalids filled seen cap,
    lru_state c0 c (invalids ++ filled) seen cap ->
    (length todo <= length invalids)%nat ->
    Forall (fun g => valid g = false /\ dirty g = false) invalids ->
    NoDup (tag_of c0 <$> (snd <$> todo)) ->
    (forall acc b, In acc todo -> In b (invalids ++ filled) ->
                   tag b <> tag_of c0 (snd acc)) ->
    exists c',
      simulate c todo = Some c'
      /\ lru_state c0 c'
           (drop (length todo) invalids ++ filled ++ (resident c0 <$> todo))
           (seen ++ (block_of c0 <$> (snd <$> todo))) cap.
Proof.
  intros Hb0. induction todo as [|[op address] todo IH];
    intros c invalids filled seen cap Hst Hlen Hinv Hnd Hfresh.
  - exists c. simpl. rewrite drop_0, !app_nil_r. done.
  - destruct invalids as [|g invalids]; [simpl in Hlen; lia|].
    apply Forall_cons in Hinv as [[Hgv Hgd] Hinv].
    simpl in Hnd. apply NoDup_cons in Hnd as [Hnotin Hnd].
    destruct (decode_total c0 address Hb0) as [Ht Hba].
    destruct (lru_fill_step c0 c g (invalids ++ filled) seen cap op address
                _ _ Hst Hgv Ht Hba) as (c1 & Hacc & Hst1).
    { apply Forall_forall. intros b Hin.
      apply (Hfresh (op, address) b); [by left|].
      by apply list_elem_of_In. }
    rewrite Hgd, orb_false_r, <- app_assoc in Hst1.
    destruct (IH c1 invalids (filled ++ [resident c0 (op, address)])
                (seen ++ [block_of c0 address]) cap Hst1)
      as (c' & Hsim & Hst'); [simpl in Hlen; lia|done|done| |].
    { intros acc b Hin Hb.
      rewrite app_assoc in Hb. apply in_app_iff in Hb as [Hb|[<-|[]]].
      - apply (Hfresh acc b); [by right|]. simpl. by right.
      - simpl. intros Heq. apply Hnotin.
        rewrite Heq. apply list_elem_of_fmap. exists (snd acc).
        split; [done|]. apply list_elem_of_fmap. exists acc.
        split; [done|]. by apply list_elem_of_In. }
    exists c'. simpl. rewrite Hacc. obind. split; [done|].
    rewrite <- !app_assoc in Hst'. exact Hst'.
Qed.

Lemma configure_fully_associative cache_size block_size policy ulb uib
    uninit_tag seeded raw_empty c0 :
  configure cache_size block_size FULLY_ASSOCIATIVE policy ulb uib uninit_tag
    seeded raw_empty = Some c0 ->
  exists b repl,
    CacheReplace_new policy 1 (num_blocks b) seeded = Some repl
    /\ c0 = FA (FullyAssocCache.mk b
                 (new_blocks block_size uninit_tag 0
                    (Z.to_nat (num_blocks b)))
                 false repl).
Proof.
  unfold configure.
  destruct (valid_pow2 cache_size); [|done].
  destruct (valid_pow2 block_size); [|done]. simpl.
  unfold FullyAssocCache.new.
  destruct (Cache_new _ _ _ _) as [b|]; [|done]. simpl.
  destruct (CacheReplace_new _ _ _ _) as [repl|] eqn:Hrepl; [|done]. simpl.
  intros [= <-]. by exists b, repl.
Qed.

Lemma new_blocks_invalid block_size uninit_tag first n :
  Forall (fun g => valid g = false /\ dirty g = false)
    (new_blocks block_size uninit_tag first n).
Proof. unfold new_blocks. apply Forall_fmap, Forall_forall. done. Qed.

Lemma new_blocks_tag block_size uninit_tag n b :
  In b (new_blocks block_size uninit_tag 0 n) ->
  exists i : nat, (i < n)%nat /\ tag b = uninit_tag i.
Proof.
  unfold new_blocks. intros Hin%list_elem_of_In.
  apply list_elem_of_fmap in Hin as (i & -> & Hi).
  apply elem_of_seq in Hi. exists i. split; [lia|done].
Qed.

Lemma Forall_resident c0 t accs :
  (forall acc, acc ∈ accs -> tag_of c0 (snd acc) <> t) ->
  Forall (fun b => valid b = true /\ tag b <> t) (resident c0 <$> accs).
Proof.
  intros H. apply Forall_fmap, Forall_forall. intros acc Hacc.
  split; [done|]. simpl. by apply H.
Qed.

(** The scenario of W + 1 accesses with different tags followed by the
    first address again, on a cache of W ways as constructed. *)
Lemma lru_scenario cache_size block_size ulb uib uninit_tag seeded raw_empty c0
    op0 a0 rest op :
  configure cache_size block_size FULLY_ASSOCIATIVE LRU ulb uib uninit_tag
    seeded raw_empty = Some c0 ->
  fits cache_size block_size FULLY_ASSOCIATIVE ->
  Z.of_nat (length rest) = num_blocks (cache_base c0) ->
  NoDup (tag_of c0 <$> (a0 :: (snd <$> rest))) ->
  (forall (i : nat) acc,
      Z.of_nat i < num_blocks (cache_base c0) ->
      In acc ((op0, a0) :: rest) -> uninit_tag i <> tag_of c0 (snd acc)) ->
  exists c1 c2,
    simulate c0 ((op0, a0) :: rest) = Some c1
    /\ cache_sets c1 = [resident c0 <$> rest]
    /\ capacity_misses (stats c1) = 0
    /\ access c1 (op, a0) = Some c2
    /\ cache_sets c2 = [resident c0 <$> (drop 1 rest ++ [(op, a0)])]
    /\ capacity_misses (stats c2) = 1.
Proof.
  intros Hconf Hfits Hlen Hnd Hgarbage.
  destruct (configure_wf _ _ _ _ _ _ _ _ _ _ Hconf Hfits)
    as (Hwf & Hstats & Hhist).
  destruct (configure_fully_associative _ _ _ _ _ _ _ _ _ Hconf)
    as (b & repl & [= <-] & ->).
  simpl in Hlen, Hgarbage.
  set (c0 := FA _) in *.
  set (init := new_blocks block_size uninit_tag 0 (Z.to_nat (num_blocks b))).
  pose proof Hwf as [Hb0 Hwr]. simpl in Hwr. fold init in Hwr.
  assert (Hinitlen : length init = length rest).
  { subst init. rewrite length_new_blocks. lia. }
  assert (Hrest : rest <> []).
  { destruct Hwr as (_ & Hr & _). intros ->. simpl in *. lia. }
  destruct (exists_last Hrest) as (mid & [opl al] & ->). clear Hrest.
  rewrite length_app in Hinitlen. simpl in Hinitlen.
  assert (Hst0 : lru_state c0 c0 (init ++ []) [] 0).
  { exists (FullyAssocCache.mk b init false
              (fresh_replace LRU 1 (num_blocks b) seeded)).
    split; [done|]. split; [done|]. split; [apply same_geometry_refl|].
    split; [done|]. split; [by rewrite app_nil_r|].
    split; [|by rewrite Hstats].
    intros x. rewrite Hhist. simpl. split; [done|tauto]. }
  rewrite fmap_app in Hnd. simpl in Hnd.
  apply NoDup_cons in Hnd as [Hn0 Hnd].
  rewrite fmap_app in Hnd, Hn0. simpl in Hnd, Hn0.
  apply NoDup_app in Hnd as (Hndmid & Hmidlast & _).
  rewrite elem_of_app, list_elem_of_singleton in Hn0.
  (* the first W accesses fill the ways *)
  destruct (lru_fill_phase c0 ((op0, a0) :: mid) Hb0 c0 init [] [] 0 Hst0)
    as (cW & HsimW & HstW).
  { simpl. lia. }
  { apply new_blocks_invalid. }
  { simpl. apply NoDup_cons. split; [tauto|done]. }
  { intros acc g Hacc Hg. rewrite app_nil_r in Hg.
    apply new_blocks_tag in Hg as (i & Hi & ->).
    apply Hgarbage; [lia|].
    destruct Hacc as [<-|Hacc]; [by left|].
    right. apply in_app_iff. by left. }
  rewrite drop_ge, !app_nil_l in HstW by (simpl; lia).
  (* access W + 1 replaces the block of the first *)
  destruct (decode_total c0 al Hb0) as [Htl Hbl].
  destruct (lru_evict_step c0 cW (resident c0 (op0, a0))
              (fmap (M := list) (resident c0) mid) _ _ opl al _ _
              HstW Htl Hbl)
    as (c1 & Hacc1 & Hst1).
  { apply (Forall_resident c0 _ ((op0, a0) :: mid)).
    intros acc Hacc Heq.
    apply elem_of_cons in Hacc as [->|Hacc].
    - apply Hn0. right. done.
    - apply (Hmidlast (tag_of c0 al)); [|by apply list_elem_of_singleton].
      rewrite <- Heq. apply list_elem_of_fmap. exists (snd acc).
      split; [done|]. apply list_elem_of_fmap. by exists acc. }
  match type of Hst1 with
  | lru_state _ _ _ _ (if history_mem ?s ?x then _ else _) =>
      assert (Hfresh : history_mem s x = false)
  end.
  { apply history_mem_false. intros Hin.
    change (In (block_of c0 al)
              (block_of c0 <$> (snd <$> ((op0, a0) :: mid)))) in Hin.
    apply list_elem_of_In, list_elem_of_fmap in Hin as (a & Ha & Hin).
    apply block_of_tag_of in Ha; [|done].
    apply list_elem_of_fmap in Hin as (acc & -> & Hin).
    apply elem_of_cons in Hin as [->|Hin].
    - apply Hn0. right. simpl in Ha. congruence.
    - apply (Hmidlast (tag_of c0 al)); [|by apply list_elem_of_singleton].
      rewrite Ha. apply list_elem_of_fmap. exists (snd acc).
      split; [done|]. apply list_elem_of_fmap. by exists acc. }
  rewrite Hfresh in Hst1.
  (* the first address again *)
  assert (Hblocks1 :
            (resident c0 <$> mid) ++ [resident c0 (opl, al)]
            = resident c0 <$> (mid ++ [(opl, al)])).
  { by rewrite fmap_app. }
  change (mkCacheBlock (tag_of c0 al) (is_write opl) true)
    with (resident c0 (opl, al)) in Hst1.
  rewrite Hblocks1 in Hst1.
  destruct (mid ++ [(opl, al)]) as [|acc1 rest'] eqn:Hrest;
    [by destruct mid|].
  destruct (decode_total c0 a0 Hb0) as [Ht0 Hb0a].
  destruct (lru_evict_step c0 c1 (resident c0 acc1)
              (fmap (M := list) (resident c0) rest')
              _ _ op a0 _ _ Hst1 Ht0 Hb0a)
    as (c2 & Hacc2 & Hst2).
  { apply (Forall_resident c0 _ (acc1 :: rest')).
    rewrite <- Hrest. intros acc Hacc Heq. apply Hn0.
    rewrite <- Heq.
    apply elem_of_app in Hacc as [Hacc|Hacc%list_elem_of_singleton].
    - left. apply list_elem_of_fmap. exists (snd acc).
      split; [done|]. apply list_elem_of_fmap. by exists acc.
    - right. by subst acc. }
  match type of Hst2 with
  | lru_state _ _ _ _ (if history_mem ?s ?x then _ else _) =>
      assert (Hseen0 : history_mem s x = true)
  end.
  { apply history_mem_In, in_app_iff. left. by left. }
  rewrite Hseen0 in Hst2.
  exists c1, c2.
  destruct Hst1 as (fc1 & -> & _ & _ & _ & Hb1 & _ & Hcap1).
  destruct Hst2 as (fc2 & -> & _ & _ & _ & Hb2 & _ & Hcap2).
  split.
  { rewrite <- Hrest, app_comm_cons, simulate_app, HsimW. simpl.
    rewrite Hacc1. done. }
  split; [unfold cache_sets; by rewrite Hb1|]. split; [done|].
  split; [done|]. split; [|done].
  unfold cache_sets. rewrite Hb2. simpl. rewrite drop_0, fmap_app. done.
Qed.

(** ** Dirty blocks across accesses *)

Lemma elem_of_insert_here {A} (l : list A) (k : nat) (x y : A) :
  l !! k = Some y -> x ∈ <[k := x]> l.
Proof.
  intros Hk. apply list_elem_of_lookup. exists k.
  apply list_lookup_insert_eq. by eapply lookup_lt_Some.
Qed.

Lemma elem_of_insert_other {A} (l : list A) (k i : nat) (x y : A) :
  i <> k -> l !! i = Some y -> y ∈ <[k := x]> l.
Proof.
  intros Hne Hi. apply list_elem_of_lookup. exists i.
  by rewrite list_lookup_insert_ne.
Qed.





(** * The claims *)

(** C10. For every number of ways that is a power of two from 2 up to the
    largest size the driver accepts (2^30) and every contents of the
    metadata cells, the pseudo-LRU walk of [get_victim_index] stops: with
    at least [ways - 1] iterations allowed it returns a leaf, each
    iteration moves the tree index strictly forward, and the victim
    returned lies in [0, ways). *)
Theorem plru_victim_walk_terminates (r : CacheReplace) (set_index : Z)
    (data : list CacheBlock) (md : list Z) (e : Z) :
  replacement_policy r = PSEUDO_LRU ->
  1 <= e <= 30 -> ways r = 2 ^ e ->
  vec_get (meta_data r) set_index = Some md ->
  Z.of_nat (length md) = 2 * ways r - 1 ->
  (exists v, get_victim_index r set_index data = Some (v, r)
             /\ 0 <= v < ways r)
  /\ (forall fuel, ways r - 1 <= Z.of_nat fuel ->
        exists leaf, plru_walk fuel (ways r) md 0 = Some leaf
                     /\ ways r - 1 <= leaf <= 2 * ways r - 2)
  /\ (forall ci, 0 <= ci < ways r - 1 ->
        ci < i32 (2 * ci + 1) /\ ci < i32 (2 * ci + 2)).
Proof.
  intros Hp He Hways Hmd Hlen.
  pose proof (pow2_range e ltac:(lia)) as Hr. rewrite <- Hways in Hr.
  split; [|split].
  - destruct (get_victim_index_plru r set_index data md)
      as (v & Hv & Hrange & _); [done|lia|done|done|].
    by exists v.
  - intros fuel Hfuel.
    destruct (plru_walk_reaches (ways r) md Hr ltac:(lia) fuel 0)
      as (leaf & Hleaf & Hrange & _); [lia|lia|].
    by exists leaf.
  - intros ci Hci.
    destruct (plru_walk_step_increases (ways r) ci Hr Hci). lia.
Qed.

Lemma plru_victim_walk_terminates_witness :
  exists v, get_victim_index plru_four_ways 0 [] = Some (v, plru_four_ways)
            /\ 0 <= v < 4.
Proof.
  exact (proj1 (plru_victim_walk_terminates plru_four_ways 0 []
                  [0; 0; 0; -1; -1; -1; -1] 2
                  eq_refl ltac:(lia) eq_refl eq_refl eq_refl)).
Defined.

(** C6. Under pseudo-LRU, for every set and every contents of its cells,
    [get_victim_index] hands the policy object back unchanged (it receives
    the blocks by value and has no other state to change) and returns the
    way of the one leaf the bit-directed walk reaches from tree index 0;
    so a second call on the state the first one left returns the same
    way. *)
Theorem plru_choose_victim_pure (r : CacheReplace) (set_index : Z)
    (data : list CacheBlock) (md : list Z) :
  replacement_policy r = PSEUDO_LRU ->
  1 <= ways r <= 1073741824 ->
  vec_get (meta_data r) set_index = Some md ->
  Z.of_nat (length md) = 2 * ways r - 1 ->
  exists v,
    get_victim_index r set_index data = Some (v, r)
    /\ walk_reaches (ways r) md 0 (v + (ways r - 1))
    /\ (forall leaf, walk_reaches (ways r) md 0 leaf ->
                     v = leaf - (ways r - 1))
    /\ (forall v1 r1, get_victim_index r set_index data = Some (v1, r1) ->
                      get_victim_index r1 set_index data = Some (v1, r1)).
Proof.
  intros Hp Hw Hmd Hlen.
  destruct (get_victim_index_plru r set_index data md)
    as (v & Hv & _ & Hreach); [done|lia|done|done|].
  exists v. split; [done|]. split; [done|]. split.
  - intros leaf Hleaf.
    pose proof (walk_reaches_fun _ _ _ _ _ Hreach Hleaf). lia.
  - intros v1 r1 H1. rewrite Hv in H1. injection H1 as <- <-. done.
Qed.

Lemma plru_choose_victim_pure_witness :
  exists v,
    get_victim_index plru_four_ways 0 [] = Some (v, plru_four_ways)
    /\ walk_reaches 4 [0; 0; 0; -1; -1; -1; -1] 0 (v + (4 - 1))
    /\ (forall leaf, walk_reaches 4 [0; 0; 0; -1; -1; -1; -1] 0 leaf ->
                     v = leaf - (4 - 1))
    /\ (forall v1 r1,
           get_victim_index plru_four_ways 0 [] = Some (v1, r1) ->
           get_victim_index r1 0 [] = Some (v1, r1)).
Proof.
  apply (plru_choose_victim_pure plru_four_ways 0 []
           [0; 0; 0; -1; -1; -1; -1]);
    [reflexivity | unfold plru_four_ways; simpl; lia | reflexivity
    | reflexivity].
Defined.

(** C7, as stated, fails on a set of one way, which [main] builds as the
    fully associative cache of one block: the tree is the single cell 0,
    leaf of way 0 and root at once, with no ancestor. [mark_accessed]
    stores the tag in it and then runs the body of its [do ... while] loop
    once, on cell [(0 - 1) / 2 = 0]: the cell is replaced by the logical
    NOT of the tag, so after [read(0x140)], whose tag is 5, the leaf cell
    [way + ways - 1] holds 0 and not the tag. *)
Lemma plru_one_way_counterexample :
  configure 64 64 FULLY_ASSOCIATIVE PSEUDO_LRU 0 0 pattern_memory
    constant_rand empty_storage
  = Some fa_one_way
  /\ access fa_one_way (Read, 320)
     = Some (FA (FullyAssocCache.mk
                   (mkCache 64 64 1 6 0 (mkAccessInfo 1 1 0 1 1 0 0 1 0 0)
                      [5])
                   [mkCacheBlock 5 false true] false
                   (set_meta_data plru_one_way [[0]])))
  /\ mark_accessed plru_one_way 0 [mkCacheBlock 5 false true] 0
     = Some (set_meta_data plru_one_way [[0]], [mkCacheBlock 5 false true])
  /\ vec_get [0] (0 + ways plru_one_way - 1)
     <> Some (i32 (tag (mkCacheBlock 5 false true)))
  /\ forall a, ~ is_ancestor a (0 + ways plru_one_way - 1).
Proof.
  split; [reflexivity|]. split; [reflexivity|]. split; [reflexivity|].
  split; [discriminate|].
  intros a H. inversion H; simpl in *; lia.
Qed.

(** C7, amended. Under pseudo-LRU, for a set of at least two ways and an
    in-range way, [mark_accessed] stores the block's tag (converted to
    [int]) in the leaf cell [way + ways - 1], replaces the cell of every
    ancestor of that leaf, parent to root, by its logical NOT, and leaves
    every other cell of the set, the metadata of the other sets, the other
    members of the policy object and the blocks as they were. *)
Theorem plru_mark_accessed_toggles (r : CacheReplace) (set_index : Z)
    (data : list CacheBlock) (block_index : Z) (md : list Z)
    (b : CacheBlock) :
  replacement_policy r = PSEUDO_LRU ->
  2 <= ways r <= 1073741824 ->
  0 <= block_index < ways r ->
  vec_get (meta_data r) set_index = Some md ->
  Z.of_nat (length md) = 2 * ways r - 1 ->
  vec_get data block_index = Some b ->
  exists md',
    mark_accessed r set_index data block_index
    = Some (set_meta_data r (<[Z.to_nat set_index := md']> (meta_data r)),
            data)
    /\ length md' = length md
    /\ vec_get md' (block_index + ways r - 1) = Some (i32 (tag b))
    /\ (forall j, is_ancestor j (block_index + ways r - 1) ->
                  vec_get md' j = logical_not <$> vec_get md j)
    /\ (forall j, j <> block_index + ways r - 1 ->
                  ~ is_ancestor j (block_index + ways r - 1) ->
                  vec_get md' j = vec_get md j).
Proof.
  intros Hp Hw Hbi Hmd Hlen Hb.
  set (leaf := block_index + ways r - 1).
  unfold mark_accessed. rewrite Hp.
  destruct (decide (PSEUDO_LRU = LRU)) as [|_]; [done|].
  destruct (decide (PSEUDO_LRU = PSEUDO_LRU)) as [_|]; [|done].
  obind. rewrite Hb. obind. rewrite Hmd. obind.
  rewrite u32_small by lia.
  replace (ways r - 1 + block_index) with leaf by (subst leaf; lia).
  replace (block_index + ways r - 1) with leaf by done.
  rewrite u32_small, i32_small by (subst leaf; lia).
  rewrite (vec_set_in_range md leaf) by (subst leaf; lia). obind.
  set (md0 := <[Z.to_nat leaf := i32 (tag b)]> md).
  assert (Hlen0 : length md0 = length md) by apply length_insert.
  destruct (plru_toggle_spec (toggle_fuel leaf) md0 leaf)
    as (md' & Hrun & Hlen' & Hanc & Hoth).
  { subst leaf; lia. }
  { unfold toggle_fuel. subst leaf; lia. }
  rewrite Hrun. obind.
  apply vec_get_Some_range in Hmd as Hsi.
  rewrite vec_set_in_range by done. obind.
  exists md'. split; [done|]. split; [congruence|]. split; [|split].
  - rewrite Hoth by (intros Hself%is_ancestor_lt; lia).
    subst md0. apply vec_get_insert_eq. subst leaf; lia.
  - intros j Hj. rewrite Hanc by done.
    apply is_ancestor_lt in Hj as Hlt.
    subst md0. by rewrite vec_get_insert_ne by (subst leaf; lia).
  - intros j Hne Hj. rewrite Hoth by done.
    subst md0. by rewrite vec_get_insert_ne by (subst leaf; lia).
Qed.

Lemma plru_mark_accessed_toggles_witness :
  exists md',
    mark_accessed plru_four_ways 0
      [mkCacheBlock 5 false true; mkCacheBlock 6 false true;
       mkCacheBlock 7 false true; mkCacheBlock 8 false true] 2
    = Some (set_meta_data plru_four_ways [md'],
            [mkCacheBlock 5 false true; mkCacheBlock 6 false true;
             mkCacheBlock 7 false true; mkCacheBlock 8 false true])
    /\ vec_get md' 5 = Some 7
    /\ vec_get md' 2 = Some 1 /\ vec_get md' 0 = Some 1
    /\ vec_get md' 1 = Some 0.
Proof.
  destruct (plru_mark_accessed_toggles plru_four_ways 0
              [mkCacheBlock 5 false true; mkCacheBlock 6 false true;
               mkCacheBlock 7 false true; mkCacheBlock 8 false true] 2
              [0; 0; 0; -1; -1; -1; -1] (mkCacheBlock 7 false true)
              eq_refl ltac:(unfold plru_four_ways; simpl; lia)
              ltac:(unfold plru_four_ways; simpl; lia) eq_refl eq_refl
              eq_refl)
    as (md' & Hrun & _ & Hleaf & Hanc & Hoth).
  exists md'. split; [exact Hrun|]. split; [exact Hleaf|].
  split; [|split].
  - apply (Hanc 2). apply (ancestor_parent 5). lia.
  - apply (Hanc 0). apply (ancestor_above 0 5); [lia|].
    apply (ancestor_parent 2). lia.
  - apply (Hoth 1); [simpl; lia|].
    intros H. apply is_ancestor_inv in H as [_ [H|H]]; [discriminate H|].
    apply is_ancestor_inv in H as [_ [H|H]]; [discriminate H|].
    apply is_ancestor_inv in H as [H _]. discriminate H.
Defined.

(** C8. Whatever block addresses were presented to [is_accessed] before,
    starting from the empty history, the call answers true exactly when
    the address is among them; on a first presentation it answers false
    and the history grows by that one entry, on a later presentation the
    history is left as it is, and so no address is ever recorded twice. *)
Theorem is_accessed_records_first_presentation (presented : list Z) (a : Z) :
  (fst (is_accessed (present_all [] presented) a) = true <-> In a presented)
  /\ (~ In a presented ->
      is_accessed (present_all [] presented) a
      = (false, present_all [] presented ++ [a])
      /\ length (snd (is_accessed (present_all [] presented) a))
         = S (length (present_all [] presented)))
  /\ (In a presented ->
      is_accessed (present_all [] presented) a
      = (true, present_all [] presented))
  /\ NoDup (present_all [] (presented ++ [a])).
Proof.
  assert (Hmem : history_mem (present_all [] presented) a = true
                 <-> In a presented).
  { rewrite history_mem_In, present_all_In. simpl. tauto. }
  unfold is_accessed.
  destruct (history_mem (present_all [] presented) a) eqn:Hm.
  - split; [simpl; tauto|]. split; [|split].
    + intros Hn. destruct Hn. by apply Hmem.
    + done.
    + apply present_all_NoDup. constructor.
  - split; [|split; [|split]].
    + simpl. rewrite <- Hmem. done.
    + intros _. split; [done|]. simpl.
      rewrite length_app. simpl. lia.
    + intros Hin. apply Hmem in Hin. discriminate Hin.
    + apply present_all_NoDup. constructor.
Qed.

(** C3. For every organisation the driver builds on a geometry that fits,
    and every trace, the simulation returns after each access of the trace
    with compulsory + capacity + conflict misses equal to the cache misses,
    the sum taken as the program takes it, on 32 bits; as long as fewer
    than 2^32 accesses were made, no counter has wrapped and the sum is
    equal as an integer too. *)
Theorem miss_counters_add_up (cache_size block_size associativity : Z)
    (policy : CacheReplacement_t) (uninit_line_bits uninit_index_bits : Z)
    (uninit_tag seeded : nat -> Z)
    (raw_empty : nat -> bool) (c0 : AnyCache)
    (trace : list (Operation * Z)) (n : nat) :
  configure cache_size block_size associativity policy
    uninit_line_bits uninit_index_bits uninit_tag seeded raw_empty = Some c0 ->
  fits cache_size block_size associativity ->
  exists c,
    simulate c0 (take n trace) = Some c
    /\ misses_add_up (stats c)
    /\ (Z.of_nat n < 4294967296 -> misses_add_up_exactly (stats c)).
Proof.
  intros Hconf Hfits.
  destruct (configure_wf _ _ _ _ _ _ _ _ _ _ Hconf Hfits) as (Hwf & Hstats & _).
  destruct (simulate_wf (take n trace) c0 0 Hwf ltac:(lia))
    as (c & Hsim & _ & _ & Hinv & _).
  { rewrite Hstats. apply counters_inv_new. }
  exists c. split; [done|].
  destruct Hinv as (_ & _ & _ & Hsum & Hexact). split; [done|].
  intros Hn. apply Hexact.
  pose proof (length_take trace n). lia.
Qed.

Lemma miss_counters_add_up_witness :
  exists c,
    simulate
      (DM (DirectMappedCache.mk
             (mkCache 128 64 2 6 1 AccessInfo_new [])
             [mkCacheBlock 7 false false; mkCacheBlock 7 false false]))
      (take 3 [(Read, 0); (Write, 128); (Read, 0); (Read, 64)]) = Some c
    /\ misses_add_up (stats c)
    /\ (Z.of_nat 3 < 4294967296 -> misses_add_up_exactly (stats c)).
Proof.
  apply (miss_counters_add_up 128 64 DIRECT_MAPPED LRU 0 0
           pattern_memory constant_rand empty_storage);
    [reflexivity | vm_compute; discriminate].
Defined.

(** C4. On a cache the driver built and drove, an access that needs an
    eviction (every way of the target set valid, none holding the tag) is
    counted as a miss. When the history already holds the block address
    the miss is one conflict miss and no capacity miss in a direct-mapped
    cache, and one capacity miss and no conflict miss in a fully or set
    associative one, and no compulsory miss; when the history does not
    hold the block address it counts neither, only the compulsory miss. *)
Theorem eviction_miss_attribution (c : AnyCache) (op : Operation)
    (address : Z) :
  reachable c ->
  eviction_required c address ->
  exists c' ba,
    access c (op, address) = Some c'
    /\ block_address_of c address = Some ba
    /\ cache_misses (stats c') = incr (cache_misses (stats c))
    /\ (if history_mem (history c) ba then
          match c with
          | DM _ =>
              conflict_misses (stats c') = incr (conflict_misses (stats c))
              /\ capacity_misses (stats c') = capacity_misses (stats c)
          | _ =>
              capacity_misses (stats c') = incr (capacity_misses (stats c))
              /\ conflict_misses (stats c') = conflict_misses (stats c)
          end
          /\ compulsory_misses (stats c') = compulsory_misses (stats c)
        else
          conflict_misses (stats c') = conflict_misses (stats c)
          /\ capacity_misses (stats c') = capacity_misses (stats c)
          /\ compulsory_misses (stats c')
             = incr (compulsory_misses (stats c))).
Proof.
  intros Hreach (blocks0 & t0 & Htarget & Htag & Hall).
  apply reachable_wf in Hreach.
  destruct (access_cases c op address Hreach)
    as (c' & ba & t & si & blocks & k & b & nb & kind & vd & blocks'
        & Hacc & _ & _ & Hba & Ht & Hsi & Hblocks & _ & _ & _ & Hk
        & Hcount & Hres).
  unfold target_set in Htarget. rewrite Hsi in Htarget. simpl in Htarget.
  assert (blocks0 = blocks) by congruence. assert (t0 = t) by congruence.
  subst blocks0 t0.
  apply (Forall_lookup_1 _ _ _ _ Hall) in Hk as [Hbv Hbt].
  exists c', ba. split; [done|]. split; [done|].
  destruct Hcount as (_ & _ & _ & Hmiss & Hcomp & Hcap & Hconf & _).
  inversion Hres as [Htg _ | Hv _ _ | _ _]; subst; [done|congruence|].
  destruct (history_mem (history c) ba).
  - destruct c; simpl in *; auto.
  - auto.
Qed.

(** The four cases on caches of two blocks per set or less: a write and a
    read of an address seen before that evict a block, in a direct-mapped,
    a fully associative and a set-associative cache, and the eviction by
    an address never seen. *)
Lemma eviction_miss_attribution_witness :
  (exists c',
      access dm_after_two_reads (Write, 0) = Some c'
      /\ history_mem (history dm_after_two_reads) 0 = true
      /\ conflict_misses (stats c') = 1 /\ capacity_misses (stats c') = 0
      /\ compulsory_misses (stats c') = 2 /\ cache_misses (stats c') = 3)
  /\ (exists c',
         access fa_after_three_reads (Read, 0) = Some c'
         /\ history_mem (history fa_after_three_reads) 0 = true
         /\ capacity_misses (stats c') = 1 /\ conflict_misses (stats c') = 0
         /\ compulsory_misses (stats c') = 3 /\ cache_misses (stats c') = 4)
  /\ (exists c',
         access sa_after_three_reads (Write, 0) = Some c'
         /\ history_mem (history sa_after_three_reads) 0 = true
         /\ capacity_misses (stats c') = 1 /\ conflict_misses (stats c') = 0
         /\ compulsory_misses (stats c') = 3 /\ cache_misses (stats c') = 4)
  /\ (exists c',
         access dm_after_read_0 (Write, 128) = Some c'
         /\ history_mem (history dm_after_read_0) 2 = false
         /\ conflict_misses (stats c') = 0 /\ capacity_misses (stats c') = 0
         /\ compulsory_misses (stats c') = 2 /\ cache_misses (stats c') = 2).
Proof.
  split; [|split; [|split]].
  - destruct (eviction_miss_attribution dm_after_two_reads Write 0)
      as (c' & ba & Hacc & Hba & Hmiss & Hattr).
    + exists 128, 64, DIRECT_MAPPED, LRU, 0, 0, pattern_memory,
        constant_rand, empty_storage,
        (DM (DirectMappedCache.mk
               (mkCache 128 64 2 6 1 AccessInfo_new [])
               [mkCacheBlock 7 false false; mkCacheBlock 7 false false])),
        [(Read, 0); (Read, 128)].
      split; [reflexivity|]. split; [vm_compute; discriminate|reflexivity].
    + exists [mkCacheBlock 1 false true], 0.
      split; [reflexivity|]. split; [reflexivity|].
      repeat constructor. simpl. lia.
    + injection Hba as <-. exists c'. split; [exact Hacc|].
      split; [reflexivity|].
      destruct Hattr as ((Hconf & Hcap) & Hcomp).
      split; [exact Hconf|]. split; [exact Hcap|]. split; [exact Hcomp|].
      exact Hmiss.
  - destruct (eviction_miss_attribution fa_after_three_reads Read 0)
      as (c' & ba & Hacc & Hba & Hmiss & Hattr).
    + exists 128, 64, FULLY_ASSOCIATIVE, LRU, 0, 0, pattern_memory,
        constant_rand, empty_storage, fa_two_ways,
        [(Read, 0); (Read, 128); (Read, 256)].
      split; [reflexivity|]. split; [vm_compute; discriminate|reflexivity].
    + exists [mkCacheBlock 1 false true; mkCacheBlock 2 false true], 0.
      split; [reflexivity|]. split; [reflexivity|].
      repeat constructor; simpl; lia.
    + injection Hba as <-. exists c'. split; [exact Hacc|].
      split; [reflexivity|].
      destruct Hattr as ((Hcap & Hconf) & Hcomp).
      split; [exact Hcap|]. split; [exact Hconf|]. split; [exact Hcomp|].
      exact Hmiss.
  - destruct (eviction_miss_attribution sa_after_three_reads Write 0)
      as (c' & ba & Hacc & Hba & Hmiss & Hattr).
    + exists 256, 64, 2, PSEUDO_LRU, 0, 0, pattern_memory,
        constant_rand, empty_storage,
        (SA (SetAssocCache.mk (mkCache 256 64 4 6 2 AccessInfo_new [])
               [[mkCacheBlock 7 false false; mkCacheBlock 7 false false];
                [mkCacheBlock 7 false false; mkCacheBlock 7 false false]]
               2 2
               (mkCacheReplace 2 2 PSEUDO_LRU [[0; -1; -1]; [0; -1; -1]]
                  constant_rand O))),
        [(Read, 0); (Read, 256); (Read, 512)].
      split; [reflexivity|]. split; [vm_compute; discriminate|reflexivity].
    + exists [mkCacheBlock 2 false true; mkCacheBlock 1 false true], 0.
      split; [reflexivity|]. split; [reflexivity|].
      repeat constructor; simpl; lia.
    + injection Hba as <-. exists c'. split; [exact Hacc|].
      split; [reflexivity|].
      destruct Hattr as ((Hcap & Hconf) & Hcomp).
      split; [exact Hcap|]. split; [exact Hconf|]. split; [exact Hcomp|].
      exact Hmiss.
  - destruct (eviction_miss_attribution dm_after_read_0 Write 128)
      as (c' & ba & Hacc & Hba & Hmiss & Hattr).
    + exists 128, 64, DIRECT_MAPPED, LRU, 0, 0, pattern_memory,
        constant_rand, empty_storage,
        (DM (DirectMappedCache.mk
               (mkCache 128 64 2 6 1 AccessInfo_new [])
               [mkCacheBlock 7 false false; mkCacheBlock 7 false false])),
        [(Read, 0)].
      split; [reflexivity|]. split; [vm_compute; discriminate|reflexivity].
    + exists [mkCacheBlock 0 false true], 1.
      split; [reflexivity|]. split; [reflexivity|].
      repeat constructor. simpl. lia.
    + injection Hba as <-. exists c'. split; [exact Hacc|].
      split; [reflexivity|].
      destruct Hattr as (Hconf & Hcap & Hcomp).
      split; [exact Hconf|]. split; [exact Hcap|]. split; [exact Hcomp|].
      exact Hmiss.
Defined.

(** C1 (the code departs from the claim). On a fully associative cache of
    two blocks whose fresh memory reads as zero, [read(0x0)] decodes tag 0:
    the search loop reports way 0, whose [valid] flag is false, as the tag
    match, the access ends on that way without filling it, and every block
    is still invalid afterwards. *)
Theorem search_matches_invalid_block :
  configure 128 64 FULLY_ASSOCIATIVE LRU 0 0 zero_memory
    constant_rand empty_storage
  = Some fa_two_ways_zeroed
  /\ cache_sets fa_two_ways_zeroed
     = [[mkCacheBlock 0 false false; mkCacheBlock 0 false false]]
  /\ addr_tag_of fa_two_ways_zeroed 0 = Some 0
  /\ search_set [mkCacheBlock 0 false false; mkCacheBlock 0 false false]
       0 0 (-1) = (0, 0)
  /\ exists c1,
       access fa_two_ways_zeroed (Read, 0) = Some c1
       /\ Forall (fun b => valid b = false) (all_blocks c1)
       /\ cache_access (stats c1) = 1.
Proof.
  split; [reflexivity|]. split; [reflexivity|]. split; [reflexivity|].
  split; [reflexivity|].
  eexists. split; [reflexivity|]. split; [|reflexivity].
  repeat constructor.
Qed.

(** C2 (the code departs from the claim). On the same cache, [write(0x0)]
    matches the invalid way 0 and sets its dirty flag: the block is left
    with [valid = false] and [dirty = true], a fourth state. *)
Theorem write_dirties_invalid_block :
  configure 128 64 FULLY_ASSOCIATIVE LRU 0 0 zero_memory
    constant_rand empty_storage
  = Some fa_two_ways_zeroed
  /\ exists c1,
       access fa_two_ways_zeroed (Write, 0) = Some c1
       /\ all_blocks c1
          = [mkCacheBlock 0 false false; mkCacheBlock 0 true false].
Proof.
  split; [reflexivity|]. eexists. split; reflexivity.
Qed.

(** C5, as stated, fails: on a fully associative LRU cache of W = 2 ways,
    the W + 1 addresses 0x0, 0x40, 0x80 lie in three different blocks, yet
    0x0 and 0x40 decode to the same tag, so nothing is evicted before the
    first address comes again, and that access is a hit: no capacity miss
    is counted and the blocks stay as they were. *)
Lemma lru_distinct_blocks_counterexample :
  configure 128 64 FULLY_ASSOCIATIVE LRU 0 0 pattern_memory
    constant_rand empty_storage
  = Some fa_two_ways
  /\ NoDup [block_address_of fa_two_ways 0; block_address_of fa_two_ways 64;
            block_address_of fa_two_ways 128]
  /\ exists c1 c2,
       simulate fa_two_ways [(Read, 0); (Read, 64); (Read, 128)] = Some c1
       /\ access c1 (Read, 0) = Some c2
       /\ capacity_misses (stats c2) = 0
       /\ cache_misses (stats c2) = cache_misses (stats c1)
       /\ all_blocks c1
          = [mkCacheBlock 0 false true; mkCacheBlock 1 false true]
       /\ all_blocks c2
          = [mkCacheBlock 1 false true; mkCacheBlock 0 false true].
Proof.
  split; [reflexivity|]. split.
  { apply (bool_decide_unpack _). vm_compute. exact I. }
  eexists _, _. split; [reflexivity|]. split; [reflexivity|].
  repeat split; reflexivity.
Qed.

(** C5, amended. On a fully associative LRU cache of W ways as the driver
    builds it, take W + 1 accesses whose addresses decode to pairwise
    different tags, none of them a value the uninitialised tags hold. The
    trace runs and leaves in the ways, front to back, the blocks of
    accesses 2 to W + 1: the first address is out and no capacity miss was
    counted. Accessing the first address again then replaces way 0, which
    holds the block of the second access, the least recently touched one,
    and puts the block of the first address at the back; that access is
    counted as the one capacity miss. Under LRU the victim is way 0
    whatever the set, and [mark_accessed] moves the touched block to the
    back. *)
Theorem lru_evicts_least_recently_touched
    (cache_size block_size uninit_line_bits uninit_index_bits : Z)
    (uninit_tag seeded : nat -> Z)
    (raw_empty : nat -> bool) (c0 : AnyCache)
    (op0 : Operation) (a0 : Z) (rest : list (Operation * Z))
    (op : Operation) :
  configure cache_size block_size FULLY_ASSOCIATIVE LRU
    uninit_line_bits uninit_index_bits uninit_tag seeded raw_empty = Some c0 ->
  fits cache_size block_size FULLY_ASSOCIATIVE ->
  Z.of_nat (length rest) = num_blocks (cache_base c0) ->
  NoDup (tag_of c0 <$> (a0 :: (snd <$> rest))) ->
  (forall (i : nat) acc,
      Z.of_nat i < num_blocks (cache_base c0) ->
      In acc ((op0, a0) :: rest) -> uninit_tag i <> tag_of c0 (snd acc)) ->
  (exists c1 c2,
      simulate c0 ((op0, a0) :: rest) = Some c1
      /\ cache_sets c1 = [resident c0 <$> rest]
      /\ capacity_misses (stats c1) = 0
      /\ access c1 (op, a0) = Some c2
      /\ cache_sets c2 = [resident c0 <$> (drop 1 rest ++ [(op, a0)])]
      /\ capacity_misses (stats c2) = 1)
  /\ (forall r set_index data v r',
         replacement_policy r = LRU ->
         get_victim_index r set_index data = Some (v, r') ->
         v = 0 /\ r' = r)
  /\ (forall r set_index data (k : nat) b,
         replacement_policy r = LRU ->
         data !! k = Some b ->
         mark_accessed r set_index data (Z.of_nat k)
         = Some (r, delete k data ++ [b])).
Proof.
  intros Hconf Hfits Hlen Hnd Hgarbage. split; [|split].
  - by eapply lru_scenario.
  - intros r set_index data v r'. apply get_victim_index_lru.
  - intros r set_index data k b. apply mark_accessed_lru.
Qed.

Lemma lru_evicts_least_recently_touched_witness :
  exists c1 c2,
    simulate fa_two_ways [(Read, 0); (Write, 128); (Read, 256)] = Some c1
    /\ cache_sets c1
       = [resident fa_two_ways <$> [(Write, 128); (Read, 256)]]
    /\ capacity_misses (stats c1) = 0
    /\ access c1 (Read, 0) = Some c2
    /\ cache_sets c2
       = [resident fa_two_ways
            <$> (drop 1 [(Write, 128); (Read, 256)] ++ [(Read, 0)])]
    /\ capacity_misses (stats c2) = 1.
Proof.
  refine (proj1 (lru_evicts_least_recently_touched 128 64 0 0 pattern_memory
                   constant_rand empty_storage fa_two_ways Read 0
                   [(Write, 128); (Read, 256)] Read
                   eq_refl _ eq_refl _ _)).
  - vm_compute; discriminate.
  - apply (bool_decide_unpack _). vm_compute. exact I.
  - intros i acc _ Hin. simpl in Hin.
    destruct Hin as [<-|[<-|[<-|[]]]]; vm_compute; discriminate.
Defined.




(** * Further properties of the code *)

(** ** The driver's checks *)

Lemma shift_one_u32 i : 0 <= i <= 30 -> u32 (i32 (Z.shiftl 1 i)) = 2 ^ i.
Proof.
  intros Hi. rewrite Z.shiftl_1_l.
  pose proof (pow2_range i Hi). apply u32_i32_small. lia.
Qed.

(** X1. [valid_pow2] answers true exactly on the powers of two from 2^0 to
    2^30, read as [uint32_t]: zero, 2^31 and every other number are
    refused. *)
Theorem valid_pow2_accepts_exactly (x : Z) :
  valid_pow2 x = true <-> exists i, 0 <= i <= 30 /\ u32 x = 2 ^ i.
Proof.
  split; [apply valid_pow2_spec|].
  intros (i & Hi & Hx). unfold valid_pow2.
  apply List.existsb_exists. exists (Z.to_nat i). split.
  - apply List.in_seq. lia.
  - apply Z.eqb_eq. rewrite Z2Nat.id by lia. by rewrite shift_one_u32.
Qed.

(** X2. [valid_assoc] answers true exactly on 2, 4, 8, 16 and 32; the value
    6 that [CacheMap_t] declares is refused. *)
Theorem valid_assoc_accepts_exactly (x : Z) :
  valid_assoc x = true
  <-> u32 x = 2 \/ u32 x = 4 \/ u32 x = 8 \/ u32 x = 16 \/ u32 x = 32.
Proof.
  unfold valid_assoc. cbn [existsb seq].
  rewrite !(shift_one_u32 (Z.of_nat _)) by lia.
  rewrite !orb_true_iff, !Z.eqb_eq. simpl. intuition discriminate.
Qed.

Lemma Cache_new_total cache_size block_size ulb uib :
  valid_pow2 block_size = true ->
  exists b, Cache_new cache_size block_size ulb uib = Some b
            /\ num_blocks b = u32 cache_size / u32 block_size.
Proof.
  intros (i & Hi & Hbs)%valid_pow2_spec. unfold Cache_new, udiv.
  pose proof (pow2_range i Hi).
  destruct (Z.eqb_spec (u32 block_size) 0); [lia|]. obind. eauto.
Qed.

(** X3. [main] builds a cache exactly when both sizes pass [valid_pow2]
    and the constructor it then calls returns, which is the case
    - for the associativity 1 (direct-mapped), always;
    - for the associativity 0 (fully associative), unless the policy is
      pseudo-LRU and the block is larger than the cache: [main] lets this
      geometry through, and [CacheReplace::CacheReplace] is then asked for
      the tree of a set of 0 ways;
    - for an associativity that passes [valid_assoc] (set-associative),
      when the reserved storage of every set reads as an empty vector.
    The cache is of the organisation named, the tests being made in this
    order, and no constructor divides by zero. *)
Theorem configure_accepts_exactly (cache_size block_size associativity : Z)
    (policy : CacheReplacement_t) (ulb uib : Z) (uninit_tag seeded : nat -> Z)
    (raw_empty : nat -> bool) :
  (exists c,
      configure cache_size block_size associativity policy ulb uib
        uninit_tag seeded raw_empty = Some c
      /\ match c with
         | DM _ => u32 associativity = DIRECT_MAPPED
         | FA _ => u32 associativity <> DIRECT_MAPPED
                   /\ u32 associativity = FULLY_ASSOCIATIVE
         | SA _ => u32 associativity <> DIRECT_MAPPED
                   /\ u32 associativity <> FULLY_ASSOCIATIVE
                   /\ valid_assoc associativity = true
         end)
  <-> valid_pow2 cache_size = true /\ valid_pow2 block_size = true
      /\ (u32 associativity = DIRECT_MAPPED
          \/ (u32 associativity = FULLY_ASSOCIATIVE
              /\ (policy = PSEUDO_LRU -> u32 block_size <= u32 cache_size))
          \/ (valid_assoc associativity = true
              /\ forall i : nat,
                   Z.of_nat i
                   < u32 cache_size / u32 block_size / u32 associativity ->
                   raw_empty i = true)).
Proof.
  unfold configure. split.
  - intros (c & Hc & Hkind).
    destruct (valid_pow2 cache_size) eqn:Hcs; [|done].
    destruct (valid_pow2 block_size) eqn:Hbs; [|done].
    split; [done|]. split; [done|]. cbn [negb] in Hc.
    destruct (Cache_new_total cache_size block_size ulb uib Hbs)
      as (b & Hb & Hnb).
    apply valid_pow2_spec in Hbs as (i & Hi & Hbs).
    pose proof (pow2_range i Hi) as Hpi.
    unfold DirectMappedCache.new, FullyAssocCache.new, SetAssocCache.new
      in Hc.
    rewrite Hb in Hc. cbn [mbind option_bind] in Hc.
    destruct (Z.eqb_spec (u32 associativity) DIRECT_MAPPED) as [Hdm|Hdm];
      [by left|].
    destruct (Z.eqb_spec (u32 associativity) FULLY_ASSOCIATIVE) as [Hfa|Hfa].
    { right; left. split; [done|]. intros ->.
      unfold CacheReplace_new, plru_init_set in Hc. simpl in Hc.
      destruct (Z.leb_spec 1 (num_blocks b)) as [Hone|]; [|done].
      rewrite Hnb in Hone.
      destruct (Z.le_gt_cases (u32 block_size) (u32 cache_size)) as [|Hlt];
        [done|].
      pose proof (u32_range cache_size).
      rewrite Z.div_small in Hone by lia. lia. }
    destruct (valid_assoc associativity) eqn:Hassoc; [|done].
    right; right. split; [done|]. cbn [negb] in Hc.
    pose proof Hassoc as (j & Hj & Hj2)%valid_assoc_spec.
    pose proof (pow2_range j ltac:(lia)).
    unfold udiv in Hc.
    destruct (Z.eqb_spec (u32 associativity) 0); [lia|].
    cbn [mbind option_bind] in Hc.
    destruct (forallb raw_empty _) eqn:Hraw; [|done].
    intros k Hk. apply (proj1 (forallb_forall _ _) Hraw).
    apply in_seq. rewrite Hnb, (u32_small (_ / _)).
    + lia.
    + pose proof (u32_range cache_size).
      assert (0 <= u32 cache_size / u32 block_size) by (apply Z.div_pos; lia).
      assert (u32 cache_size / u32 block_size <= u32 cache_size)
        by (apply Z.div_le_upper_bound; nia).
      lia.
  - intros (Hcs & Hbs & Hassoc). rewrite Hcs, Hbs. cbn [negb].
    destruct (Cache_new_total cache_size block_size ulb uib Hbs)
      as (b & Hb & Hnb).
    apply valid_pow2_spec in Hcs as (a & Ha & Hcs).
    apply valid_pow2_spec in Hbs as (i & Hi & Hbs).
    pose proof (pow2_range a Ha) as Hpa. pose proof (pow2_range i Hi) as Hpi.
    assert (Hnbr : 0 <= num_blocks b <= 1073741824).
    { rewrite Hnb. split; [apply Z.div_pos; lia|].
      apply Z.div_le_upper_bound; nia. }
    unfold DirectMappedCache.new, FullyAssocCache.new, SetAssocCache.new.
    rewrite Hb. obind.
    destruct (Z.eqb_spec (u32 associativity) DIRECT_MAPPED) as [Hdm|Hdm].
    { eexists. split; [reflexivity|done]. }
    destruct (Z.eqb_spec (u32 associativity) FULLY_ASSOCIATIVE) as [Hfa|Hfa].
    { destruct Hassoc as [?|[[_ Hplru]|[Hassoc _]]]; [done| |].
      - assert (Hrepl : exists repl,
                   CacheReplace_new policy 1 (num_blocks b) seeded
                   = Some repl).
        { destruct (decide (policy = PSEUDO_LRU)) as [->|Hpol].
          - rewrite CacheReplace_new_spec; [by eexists|].
            split; [|lia]. rewrite Hnb.
            apply Z.div_le_lower_bound; [lia|]. specialize (Hplru eq_refl).
            lia.
          - destruct policy; [by eexists|by eexists|done]. }
        destruct Hrepl as (repl & ->). obind.
        eexists. split; [reflexivity|done].
      - apply valid_assoc_spec in Hassoc as (j & Hj & Hj2).
        pose proof (pow2_range j ltac:(lia)).
        unfold FULLY_ASSOCIATIVE in *. lia. }
    destruct Hassoc as [?|[[? _]|[Hassoc Hraw]]]; [done|done|].
    rewrite Hassoc. cbn [negb].
    pose proof Hassoc as (j & Hj & Hj2)%valid_assoc_spec.
    pose proof (pow2_range j ltac:(lia)).
    assert (2 ^ j <= 32)
      by (change 32 with (2 ^ 5); apply Z.pow_le_mono_r; lia).
    unfold udiv. destruct (Z.eqb_spec (u32 associativity) 0); [lia|]. obind.
    rewrite (u32_small (num_blocks b)) by lia.
    assert (Hall : forallb raw_empty
                     (seq 0 (Z.to_nat (num_blocks b / u32 associativity)))
                   = true).
    { apply forallb_forall. intros k Hk%in_seq. apply Hraw.
      rewrite <- Hnb.
      assert (0 <= num_blocks b / u32 associativity)
        by (apply Z.div_pos; lia).
      lia. }
    rewrite Hall, CacheReplace_new_spec by lia. obind.
    eexists. split; [reflexivity|done].
Qed.

(** X4. [main] does not compare the block size with the cache size. When
    the blocks of one set are larger than the cache, the direct-mapped and
    the set-associative cache are built with no set at all, and every
    [read] and [write] then takes a remainder by zero. *)
Theorem unfit_geometry_is_accepted (cache_size block_size associativity : Z)
    (policy : CacheReplacement_t) (ulb uib : Z) (uninit_tag seeded : nat -> Z)
    (raw_empty : nat -> bool) :
  valid_pow2 cache_size = true -> valid_pow2 block_size = true ->
  u32 associativity = DIRECT_MAPPED \/ valid_assoc associativity = true ->
  ~ fits cache_size block_size associativity ->
  exists c0,
    configure cache_size block_size associativity policy ulb uib
      uninit_tag seeded raw_empty = Some c0
    /\ cache_sets c0 = []
    /\ forall op, access c0 op = None.
Proof.
  intros Hcs Hbs Hassoc Hfits. unfold configure, fits in *.
  rewrite Hcs, Hbs. cbn [negb].
  destruct (Cache_new_total cache_size block_size ulb uib Hbs)
    as (b & Hb & Hnb).
  apply valid_pow2_spec in Hbs as (i & Hi & Hbs).
  pose proof (pow2_range i Hi) as Hpi.
  pose proof (u32_range cache_size) as Hcr.
  unfold DirectMappedCache.new, FullyAssocCache.new, SetAssocCache.new.
  rewrite Hb. obind.
  destruct (Z.eqb_spec (u32 associativity) DIRECT_MAPPED) as [Hdm|Hdm].
  { assert (Hzero : num_blocks b = 0).
    { rewrite Hnb. apply Z.div_small.
      rewrite Hdm in Hfits. unfold DIRECT_MAPPED in *. lia. }
    eexists. split; [reflexivity|]. split; [simpl; by rewrite Hzero|].
    intros [[] address]; simpl.
    - unfold DirectMappedCache.read. simpl.
      destruct (ushr address (line_bits b)); [|done]. obind.
      by rewrite Hzero.
    - unfold DirectMappedCache.write. simpl.
      destruct (ushr address (line_bits b)); [|done]. obind.
      by rewrite Hzero. }
  destruct Hassoc as [?|Hassoc]; [done|].
  pose proof Hassoc as (j & Hj & Hj2)%valid_assoc_spec.
  pose proof (pow2_range j ltac:(lia)) as Hpj.
  destruct (Z.eqb_spec (u32 associativity) FULLY_ASSOCIATIVE) as [Hfa|Hfa];
    [unfold FULLY_ASSOCIATIVE in *; lia|].
  rewrite Hassoc. cbn [negb].
  assert (Hsets : udiv (num_blocks b) associativity = Some 0).
  { unfold udiv. destruct (Z.eqb_spec (u32 associativity) 0); [lia|].
    f_equal. apply Z.div_small. rewrite Hnb.
    assert (0 <= u32 cache_size / u32 block_size) by (apply Z.div_pos; lia).
    assert (u32 cache_size / u32 block_size < u32 associativity).
    { rewrite Z.max_r in Hfits by lia. apply Z.div_lt_upper_bound; lia. }
    rewrite u32_small; lia. }
  rewrite Hsets. obind. change (Z.to_nat 0) with O. cbn [seq forallb].
  rewrite CacheReplace_new_spec by lia. obind.
  eexists. split; [reflexivity|]. split; [done|].
  intros [[] address]; simpl.
  - unfold SetAssocCache.read. simpl.
    destruct (ushr address (line_bits b)); done.
  - unfold SetAssocCache.write. simpl.
    destruct (ushr address (line_bits b)); done.
Qed.

Lemma unfit_geometry_is_accepted_witness :
  exists c0,
    configure 64 128 1 LRU 0 0 zero_memory constant_rand empty_storage = Some c0
    /\ cache_sets c0 = []
    /\ forall op, access c0 op = None.
Proof.
  apply unfit_geometry_is_accepted.
  - reflexivity.
  - reflexivity.
  - left. reflexivity.
  - intros H. vm_compute in H. apply H. reflexivity.
Defined.

(** ** The geometry [Cache::Cache] computes *)

Lemma u32_i32 x : u32 (i32 x) = u32 x.
Proof. zwrap. Qed.

Lemma pow2_range31 i : 0 <= i <= 31 -> 1 <= 2 ^ i < 4294967296.
Proof.
  intros Hi. split.
  - change 1 with (2 ^ 0). apply Z.pow_le_mono_r; lia.
  - change 4294967296 with (2 ^ 32). apply Z.pow_lt_mono_r; lia.
Qed.

Lemma find_bits_cases x uninit :
  forall n k, 0 <= k -> k + Z.of_nat n = 32 ->
    (exists i, k <= i <= 31 /\ u32 x = 2 ^ i /\ find_bits n k x uninit = i)
    \/ ((forall i, k <= i <= 31 -> u32 x <> 2 ^ i)
        /\ find_bits n k x uninit = uninit).
Proof.
  induction n as [|n IH]; intros k Hk Hn.
  - right. split; [intros; lia|done].
  - simpl. rewrite u32_i32, Z.shiftl_1_l.
    pose proof (pow2_range31 k ltac:(lia)).
    rewrite (u32_small (2 ^ k)) by lia.
    destruct (Z.eqb_spec (2 ^ k) (u32 x)) as [Heq|Hne].
    + left. exists k. split; [lia|]. split; congruence.
    + destruct (IH (k + 1) ltac:(lia) ltac:(lia))
        as [(i & Hi & Hx & Hf)|(Hnone & Hf)].
      * left. exists i. split; [lia|]. split; done.
      * right. split; [|done]. intros i Hi.
        destruct (decide (i = k)) as [->|]; [congruence|].
        apply Hnone. lia.
Qed.

(** X5. [Cache::Cache] sets [line_bits] to the exponent when the block size
    is a power of two and leaves the member as it found it otherwise; the
    same holds for [index_bits] and the number of blocks, which is zero when
    the block is larger than the cache. *)
Theorem Cache_new_bits (cache_size block_size ulb uib : Z) :
  u32 block_size <> 0 ->
  exists c,
    Cache_new cache_size block_size ulb uib = Some c
    /\ num_blocks c = u32 cache_size / u32 block_size
    /\ ((exists i, 0 <= i <= 31 /\ u32 block_size = 2 ^ i /\ line_bits c = i)
        \/ ((forall i, 0 <= i <= 31 -> u32 block_size <> 2 ^ i)
            /\ line_bits c = ulb))
    /\ ((exists i, 0 <= i <= 31 /\ num_blocks c = 2 ^ i /\ index_bits c = i)
        \/ ((forall i, 0 <= i <= 31 -> num_blocks c <> 2 ^ i)
            /\ index_bits c = uib)).
Proof.
  intros Hbs. unfold Cache_new, udiv.
  destruct (Z.eqb_spec (u32 block_size) 0); [done|]. obind.
  eexists. split; [reflexivity|]. cbn [num_blocks line_bits index_bits].
  split; [done|].
  pose proof (u32_range cache_size). pose proof (u32_range block_size).
  assert (Hnb : u32 (u32 cache_size / u32 block_size)
                = u32 cache_size / u32 block_size).
  { apply u32_small. split; [apply Z.div_pos; lia|].
    apply Z.div_lt_upper_bound; nia. }
  split.
  - apply (find_bits_cases block_size ulb 32 0); lia.
  - pose proof (find_bits_cases (u32 cache_size / u32 block_size) uib 32 0
                  ltac:(lia) ltac:(lia)) as Hcases.
    by rewrite Hnb in Hcases.
Qed.

Lemma Cache_new_bits_witness :
  exists c,
    Cache_new 96 32 0 9 = Some c
    /\ num_blocks c = u32 96 / u32 32
    /\ ((exists i, 0 <= i <= 31 /\ u32 32 = 2 ^ i /\ line_bits c = i)
        \/ ((forall i, 0 <= i <= 31 -> u32 32 <> 2 ^ i) /\ line_bits c = 0))
    /\ ((exists i, 0 <= i <= 31 /\ num_blocks c = 2 ^ i /\ index_bits c = i)
        \/ ((forall i, 0 <= i <= 31 -> num_blocks c <> 2 ^ i)
            /\ index_bits c = 9)).
Proof. apply Cache_new_bits. vm_compute. discriminate. Defined.

(** The caches [main] builds on a geometry that fits. *)
Lemma configure_geometry cache_size block_size associativity policy ulb uib
    uninit_tag seeded raw_empty c0 :
  configure cache_size block_size associativity policy ulb uib uninit_tag
    seeded raw_empty = Some c0 ->
  fits cache_size block_size associativity ->
  exists a b,
    0 <= b <= a /\ a <= 30
    /\ u32 cache_size = 2 ^ a /\ u32 block_size = 2 ^ b
    /\ cache_base c0
       = mkCache (2 ^ a) (2 ^ b) (2 ^ (a - b)) b (a - b) AccessInfo_new []
    /\ match c0 with
       | DM c =>
           u32 associativity = 1
           /\ DirectMappedCache.cache_blocks c
              = new_blocks block_size uninit_tag 0 (Z.to_nat (2 ^ (a - b)))
       | FA c =>
           u32 associativity = 0
           /\ FullyAssocCache.cache_blocks c
              = new_blocks block_size uninit_tag 0 (Z.to_nat (2 ^ (a - b)))
           /\ FullyAssocCache.cache_repl c
              = fresh_replace policy 1 (2 ^ (a - b)) seeded
       | SA c =>
           exists j, 1 <= j <= 5 /\ b + j <= a
             /\ u32 associativity = 2 ^ j
             /\ SetAssocCache.num_sets c = 2 ^ (a - b - j)
             /\ SetAssocCache.cache_blocks c
                = map (fun i => new_blocks block_size uninit_tag
                                  (i * Z.to_nat (2 ^ j)) (Z.to_nat (2 ^ j)))
                    (seq 0 (Z.to_nat (2 ^ (a - b - j))))
             /\ SetAssocCache.cache_repl c
                = fresh_replace policy (2 ^ (a - b - j)) (2 ^ j) seeded
       end.
Proof.
  unfold configure, fits. intros Hc Hfits.
  destruct (valid_pow2 cache_size) eqn:Hcs; [|done].
  destruct (valid_pow2 block_size) eqn:Hbs; [|done].
  apply valid_pow2_spec in Hcs as (a & Ha & Hcs).
  apply valid_pow2_spec in Hbs as (b & Hb & Hbs).
  cbn [negb] in Hc. rewrite Hcs, Hbs in Hfits.
  pose proof (pow2_range a Ha) as Hpa. pose proof (pow2_range b Hb) as Hpb.
  assert (Hba : b <= a).
  { apply (Z.pow_le_mono_r_iff 2); [lia|lia|].
    assert (1 <= Z.max 1 (u32 associativity)) by lia. nia. }
  pose proof (pow2_range (a - b) ltac:(lia)) as Hpab.
  exists a, b. split; [lia|]. split; [lia|]. split; [done|]. split; [done|].
  unfold DIRECT_MAPPED, FULLY_ASSOCIATIVE in Hc.
  unfold DirectMappedCache.new, FullyAssocCache.new, SetAssocCache.new in Hc.
  rewrite !(Cache_new_spec cache_size block_size ulb uib a b) in Hc
    by (done || lia).
  destruct (Z.eqb_spec (u32 associativity) 1) as [Hdm|Hndm].
  { simpl in Hc. injection Hc as <-. done. }
  destruct (Z.eqb_spec (u32 associativity) 0) as [Hfa|Hnfa].
  { simpl in Hc. rewrite CacheReplace_new_spec in Hc by lia.
    simpl in Hc. injection Hc as <-. done. }
  destruct (valid_assoc associativity) eqn:Hassoc; [|done].
  apply valid_assoc_spec in Hassoc as (j & Hj & Hassoc).
  pose proof (pow2_range j ltac:(lia)) as Hpj.
  rewrite Hassoc in Hfits.
  assert (Hja : b + j <= a).
  { apply (Z.pow_le_mono_r_iff 2); [lia|lia|].
    rewrite Z.pow_add_r by lia. lia. }
  simpl in Hc. unfold udiv in Hc. simpl in Hc.
  rewrite Hassoc, (u32_small (2 ^ (a - b))) in Hc by lia.
  destruct (Z.eqb_spec (2 ^ j) 0); [lia|]. simpl in Hc.
  rewrite <- Z.pow_sub_r in Hc by lia.
  destruct (forallb raw_empty _); [|done].
  assert (2 ^ j <= 32)
    by (change 32 with (2 ^ 5); apply Z.pow_le_mono_r; lia).
  rewrite CacheReplace_new_spec in Hc by lia. simpl in Hc.
  injection Hc as <-. split; [done|].
  exists j. simpl. done.
Qed.

Lemma shiftr_u32_pow2 x s :
  0 <= s < 32 -> ushr x s = Some (u32 x / 2 ^ s).
Proof.
  intros Hs. unfold ushr. rewrite (u32_small s) by lia.
  destruct (Z.ltb_spec s 32); [|lia]. by rewrite Z.shiftr_div_pow2 by lia.
Qed.

Lemma div_pow2_range x s : 0 <= s -> 0 <= u32 x / 2 ^ s < 4294967296.
Proof.
  intros Hs. pose proof (u32_range x).
  assert (0 < 2 ^ s) by (apply Z.pow_pos_nonneg; lia).
  split; [apply Z.div_pos; lia|].
  apply Z.div_lt_upper_bound; nia.
Qed.

(** The decoding of an address on a cache [main] built. *)
Lemma configure_decode cache_size block_size associativity policy ulb uib
    uninit_tag seeded raw_empty c0 address :
  configure cache_size block_size associativity policy ulb uib uninit_tag
    seeded raw_empty = Some c0 ->
  fits cache_size block_size associativity ->
  block_address_of c0 address = Some (u32 address / u32 block_size)
  /\ addr_tag_of c0 address = Some (u32 address / u32 cache_size)
  /\ set_index_of c0 address
     = Some (match c0 with
             | DM _ => (u32 address / u32 block_size)
                       mod (u32 cache_size / u32 block_size)
             | FA _ => 0
             | SA _ => (u32 address / u32 block_size)
                       mod (u32 cache_size / u32 block_size
                            / u32 associativity)
             end).
Proof.
  intros Hc Hfits.
  destruct (configure_geometry _ _ _ _ _ _ _ _ _ _ Hc Hfits)
    as (a & b & Hb & Ha & Hcs & Hbs & Hbase & Horg).
  pose proof (pow2_range a ltac:(lia)) as Hpa.
  pose proof (pow2_range b ltac:(lia)) as Hpb.
  pose proof (pow2_range (a - b) ltac:(lia)) as Hpab.
  pose proof (div_pow2_range address b ltac:(lia)) as Hbar.
  pose proof (div_pow2_range address a ltac:(lia)) as Htr.
  assert (Hdiv : 2 ^ a / 2 ^ b = 2 ^ (a - b)) by (rewrite Z.pow_sub_r; lia).
  unfold block_address_of, addr_tag_of, set_index_of.
  rewrite Hbase. simpl. rewrite Hcs, Hbs, Hdiv.
  replace (b + (a - b)) with a by lia.
  rewrite !shiftr_u32_pow2 by lia. obind.
  rewrite !u32_i32_small by lia.
  split; [done|]. split; [done|].
  destruct c0 as [c|c|c]; simpl in Hbase |- *.
  - rewrite Hbase. simpl. unfold umod.
    rewrite u32_i32_small, (u32_small (2 ^ (a - b))) by lia.
    destruct (Z.eqb_spec (2 ^ (a - b)) 0); [lia|]. simpl.
    f_equal. apply i32_small.
    pose proof (Z.mod_pos_bound (u32 address / 2 ^ b) (2 ^ (a - b))). lia.
  - done.
  - destruct Horg as (j & Hj & Hja & Hassoc & Hns & _).
    pose proof (pow2_range (a - b - j) ltac:(lia)) as Hps.
    rewrite Hns, Hassoc. unfold umod.
    rewrite (u32_small (u32 address / 2 ^ b)),
      (u32_small (2 ^ (a - b - j))) by lia.
    destruct (Z.eqb_spec (2 ^ (a - b - j)) 0); [lia|]. simpl.
    replace (2 ^ (a - b) / 2 ^ j) with (2 ^ (a - b - j))
      by (rewrite <- Z.pow_sub_r; [done|lia|lia]).
    f_equal. apply i32_small.
    pose proof (Z.mod_pos_bound (u32 address / 2 ^ b) (2 ^ (a - b - j))). lia.
Qed.

(** ** Invariants along a trace *)

(** Induction along the driver's loop: a property of the accesses made so
    far and of the cache that holds at the start and that every access of a
    well-formed cache keeps, holds after the whole trace, which runs to its
    end. *)
Lemma simulate_invariant c0 (Inv : list (Operation * Z) -> AnyCache -> Prop) :
  wf c0 -> Inv [] c0 ->
  (forall done c op address c',
      wf c -> same_geometry c0 c -> Inv done c ->
      access c (op, address) = Some c' -> Inv (done ++ [(op, address)]) c') ->
  forall trace,
    exists c, simulate c0 trace = Some c /\ wf c /\ same_geometry c0 c
              /\ Inv trace c.
Proof.
  intros Hwf0 Hinv0 Hstep trace.
  induction trace as [|[op address] trace IH] using rev_ind.
  - exists c0. split; [done|]. split; [done|].
    split; [apply same_geometry_refl|done].
  - destruct IH as (c & Hsim & Hwf & Hgeo & Hinv).
    destruct (access_cases c op address Hwf)
      as (c' & ba & t & si & blocks & k & b & nb & kind & vd & blocks'
          & Hacc & Hwf' & Hgeo' & _).
    exists c'. rewrite simulate_app, Hsim. obind. simpl. rewrite Hacc. obind.
    split; [done|]. split; [done|].
    split; [by eapply same_geometry_trans|].
    exact (Hstep _ _ _ _ _ Hwf Hgeo Hinv Hacc).
Qed.

(** The decoding is the same at any point of a trace. *)
Lemma decoding_along_trace cache_size block_size associativity policy ulb uib
    uninit_tag seeded raw_empty c0 trace :
  configure cache_size block_size associativity policy ulb uib uninit_tag
    seeded raw_empty = Some c0 ->
  fits cache_size block_size associativity ->
  exists c,
    simulate c0 trace = Some c
    /\ forall address,
         block_address_of c address = Some (u32 address / u32 block_size)
         /\ addr_tag_of c address = Some (u32 address / u32 cache_size)
         /\ set_index_of c address
            = Some (match c0 with
                    | DM _ => (u32 address / u32 block_size)
                              mod (u32 cache_size / u32 block_size)
                    | FA _ => 0
                    | SA _ => (u32 address / u32 block_size)
                              mod (u32 cache_size / u32 block_size
                                   / u32 associativity)
                    end).
Proof.
  intros Hc Hfits.
  destruct (configure_wf _ _ _ _ _ _ _ _ _ _ Hc Hfits) as (Hwf & _ & _).
  destruct (simulate_invariant c0 (fun _ _ => True) Hwf I ltac:(done) trace)
    as (c & Hsim & _ & Hgeo & _).
  exists c. split; [done|]. intros address.
  destruct (Hgeo address) as (Hba & Htag & Hsi).
  destruct (configure_decode _ _ _ _ _ _ _ _ _ _ address Hc Hfits)
    as (Hba0 & Htag0 & Hsi0).
  repeat split; congruence.
Qed.

(** X6. On a cache [main] built, at any point of a trace, an address
    decodes to the block address [address / block_size], the tag
    [address / cache_size] in every organisation, and the set
    [block_address % num_sets], where a direct-mapped cache has one set per
    block and a fully associative cache the single set 0. *)
Theorem address_decoding (cache_size block_size associativity : Z)
    (policy : CacheReplacement_t) (ulb uib : Z) (uninit_tag seeded : nat -> Z)
    (raw_empty : nat -> bool)
    (c0 : AnyCache) (trace : list (Operation * Z)) (address : Z) :
  configure cache_size block_size associativity policy ulb uib uninit_tag
    seeded raw_empty = Some c0 ->
  fits cache_size block_size associativity ->
  exists c,
    simulate c0 trace = Some c
    /\ block_address_of c address = Some (u32 address / u32 block_size)
    /\ addr_tag_of c address = Some (u32 address / u32 cache_size)
    /\ set_index_of c address
       = Some (match c0 with
               | DM _ => (u32 address / u32 block_size)
                         mod (u32 cache_size / u32 block_size)
               | FA _ => 0
               | SA _ => (u32 address / u32 block_size)
                         mod (u32 cache_size / u32 block_size
                              / u32 associativity)
               end).
Proof.
  intros Hc Hfits.
  destruct (decoding_along_trace _ _ _ _ _ _ _ _ _ _ trace Hc Hfits)
    as (c & Hsim & Hdec).
  exists c. split; [done|]. apply Hdec.
Qed.

Lemma address_decoding_witness :
  exists c,
    simulate
      (DM (DirectMappedCache.mk (mkCache 128 64 2 6 1 AccessInfo_new [])
             [mkCacheBlock 7 false false; mkCacheBlock 7 false false]))
      [(Read, 0); (Write, 200)] = Some c
    /\ block_address_of c 200 = Some 3
    /\ addr_tag_of c 200 = Some 1
    /\ set_index_of c 200 = Some 1.
Proof.
  apply (address_decoding 128 64 1 LRU 0 0 pattern_memory
    constant_rand empty_storage
           (DM (DirectMappedCache.mk (mkCache 128 64 2 6 1 AccessInfo_new [])
                  [mkCacheBlock 7 false false; mkCacheBlock 7 false false]))
           [(Read, 0); (Write, 200)] 200).
  - reflexivity.
  - vm_compute. discriminate.
Defined.

(** X7. In a direct-mapped cache the tag and the index of an address give
    its block address back: two addresses with the tag and the index in
    common lie in one block, so a tag match on the indexed block is a hit on
    the block asked for. *)
Theorem direct_mapped_tag_and_index_give_block
    (cache_size block_size associativity : Z)
    (policy : CacheReplacement_t) (ulb uib : Z) (uninit_tag seeded : nat -> Z)
    (raw_empty : nat -> bool)
    (c0 : AnyCache) (trace : list (Operation * Z)) (a1 a2 : Z) :
  configure cache_size block_size associativity policy ulb uib uninit_tag
    seeded raw_empty = Some c0 ->
  fits cache_size block_size associativity ->
  u32 associativity = DIRECT_MAPPED ->
  exists c,
    simulate c0 trace = Some c
    /\ (addr_tag_of c a1 = addr_tag_of c a2 ->
        set_index_of c a1 = set_index_of c a2 ->
        block_address_of c a1 = block_address_of c a2).
Proof.
  intros Hc Hfits Hdm.
  destruct (decoding_along_trace _ _ _ _ _ _ _ _ _ _ trace Hc Hfits)
    as (c & Hsim & Hdec).
  exists c. split; [done|].
  destruct (Hdec a1) as (-> & -> & ->), (Hdec a2) as (-> & -> & ->).
  destruct (configure_geometry _ _ _ _ _ _ _ _ _ _ Hc Hfits)
    as (a & b & Hb & Ha & Hcs & Hbs & _ & Horg).
  destruct c0 as [c0|c0|c0].
  2: { destruct Horg as (Hfa & _). unfold DIRECT_MAPPED in Hdm. lia. }
  2: { destruct Horg as (j & Hj & _ & Hassoc & _).
       pose proof (pow2_range j ltac:(lia)).
       rewrite Hassoc in Hdm. unfold DIRECT_MAPPED in Hdm.
       assert (2 ^ 1 <= 2 ^ j) by (apply Z.pow_le_mono_r; lia). lia. }
  rewrite Hcs, Hbs.
  pose proof (pow2_range b ltac:(lia)) as Hpb.
  pose proof (pow2_range (a - b) ltac:(lia)) as Hpab.
  assert (Hsplit : 2 ^ a = 2 ^ b * 2 ^ (a - b)).
  { rewrite <- Z.pow_add_r by lia. f_equal. lia. }
  assert (Hdiv : 2 ^ a / 2 ^ b = 2 ^ (a - b)) by (rewrite Z.pow_sub_r; lia).
  rewrite Hdiv, Hsplit, <- !Z.div_div by lia.
  intros [= Htag] [= Hidx]. f_equal.
  rewrite (Z.div_mod (u32 a1 / 2 ^ b) (2 ^ (a - b))) by lia.
  rewrite (Z.div_mod (u32 a2 / 2 ^ b) (2 ^ (a - b))) by lia.
  congruence.
Qed.

Lemma direct_mapped_tag_and_index_give_block_witness :
  exists c,
    simulate
      (DM (DirectMappedCache.mk (mkCache 128 64 2 6 1 AccessInfo_new [])
             [mkCacheBlock 7 false false; mkCacheBlock 7 false false]))
      [(Read, 0)] = Some c
    /\ (addr_tag_of c 200 = addr_tag_of c 255 ->
        set_index_of c 200 = set_index_of c 255 ->
        block_address_of c 200 = block_address_of c 255).
Proof.
  apply (direct_mapped_tag_and_index_give_block 128 64 1 LRU 0 0
           pattern_memory constant_rand empty_storage
           (DM (DirectMappedCache.mk (mkCache 128 64 2 6 1 AccessInfo_new [])
                  [mkCacheBlock 7 false false; mkCacheBlock 7 false false]))
           [(Read, 0)] 200 255).
  - reflexivity.
  - vm_compute. discriminate.
  - reflexivity.
Defined.

(** ** The history and the compulsory misses *)

Lemma Resolved_compulsory c w prev t blocks b nb kind vd :
  Resolved c w prev t blocks b nb kind vd ->
  (prev = false -> kind = Compulsory) /\ (prev = true -> kind <> Compulsory).
Proof. destruct 1; destruct prev, c; simpl; split; congruence. Qed.

(** X8. On a cache [main] built, after any trace the history lists each
    block address of the trace once, and [compulsory_misses] is the number
    of entries of the history: one compulsory miss per distinct block
    address, whatever the organisation and the policy. *)
Theorem compulsory_misses_count_block_addresses
    (cache_size block_size associativity : Z)
    (policy : CacheReplacement_t) (ulb uib : Z) (uninit_tag seeded : nat -> Z)
    (raw_empty : nat -> bool)
    (c0 : AnyCache) (trace : list (Operation * Z)) :
  configure cache_size block_size associativity policy ulb uib uninit_tag
    seeded raw_empty = Some c0 ->
  fits cache_size block_size associativity ->
  exists c,
    simulate c0 trace = Some c
    /\ NoDup (history c)
    /\ (forall x, x ∈ history c <-> x ∈ (block_of c0 <$> (snd <$> trace)))
    /\ compulsory_misses (stats c) = u32 (Z.of_nat (length (history c))).
Proof.
  intros Hc Hfits.
  destruct (configure_wf _ _ _ _ _ _ _ _ _ _ Hc Hfits) as (Hwf & Hstats & Hhist).
  destruct (simulate_invariant c0
              (fun done c =>
                 NoDup (history c)
                 /\ (forall x, x ∈ history c
                               <-> x ∈ (block_of c0 <$> (snd <$> done)))
                 /\ compulsory_misses (stats c)
                    = u32 (Z.of_nat (length (history c))))
              Hwf) with (trace := trace) as (c & Hsim & _ & _ & Hinv).
  - rewrite Hhist, Hstats. split; [constructor|]. split; [done|done].
  - intros done c op address c' Hwfc Hgeo (Hnd & Hmem & Hcomp) Hacc.
    destruct (access_cases c op address Hwfc)
      as (c'' & ba & t & si & blocks & k & b & nb & kind & vd & blocks'
          & Hacc' & _ & _ & Hba & _ & _ & _ & Hh & _ & _ & _ & Hcount & Hres).
    assert (c'' = c') by congruence. subst c''.
    assert (Hba0 : block_of c0 address = ba).
    { destruct (Hgeo address) as (Hb0 & _). unfold block_of.
      by rewrite <- Hb0, Hba. }
    destruct Hcount as (_ & _ & _ & _ & Hcm & _).
    apply Resolved_compulsory in Hres as (Hnew & Hold).
    rewrite Hh, Hcm, !fmap_app. simpl. rewrite Hba0. unfold is_accessed.
    destruct (history_mem (history c) ba) eqn:Hprev; simpl.
    + apply history_mem_In, list_elem_of_In in Hprev.
      split; [done|]. split.
      * intros x. rewrite elem_of_app, list_elem_of_singleton, Hmem.
        split; [auto|]. intros [?| ->]; [done|]. by apply Hmem.
      * specialize (Hold eq_refl). by destruct kind.
    + apply history_mem_false in Hprev. rewrite <- list_elem_of_In in Hprev.
      split.
      { apply NoDup_app. split; [done|]. split; [|apply NoDup_singleton].
        intros x Hx ->%list_elem_of_singleton. done. }
      split.
      * intros x. rewrite !elem_of_app, !list_elem_of_singleton, Hmem. done.
      * rewrite (Hnew eq_refl), Hcomp, length_app. simpl.
        rewrite Nat2Z.inj_add. simpl. zwrap.
  - exists c. done.
Qed.

Lemma compulsory_misses_count_block_addresses_witness :
  exists c,
    simulate
      (DM (DirectMappedCache.mk (mkCache 128 64 2 6 1 AccessInfo_new [])
             [mkCacheBlock 7 false false; mkCacheBlock 7 false false]))
      [(Read, 0); (Write, 200); (Read, 8)] = Some c
    /\ NoDup (history c)
    /\ (forall x,
          x ∈ history c
          <-> x ∈ (block_of
                     (DM (DirectMappedCache.mk
                            (mkCache 128 64 2 6 1 AccessInfo_new [])
                            [mkCacheBlock 7 false false;
                             mkCacheBlock 7 false false]))
                     <$> (snd <$> [(Read, 0); (Write, 200); (Read, 8)])))
    /\ compulsory_misses (stats c) = u32 (Z.of_nat (length (history c))).
Proof.
  apply (compulsory_misses_count_block_addresses 128 64 1 LRU 0 0
           pattern_memory constant_rand empty_storage).
  - reflexivity.
  - vm_compute. discriminate.
Defined.

(** ** The access and miss counters *)

Lemma reads_of_snoc trace op address :
  reads_of (trace ++ [(op, address)])
  = (reads_of trace + (if is_write op then 0 else 1))%nat.
Proof.
  unfold reads_of. rewrite filter_app, length_app. by destruct op.
Qed.

Lemma writes_of_snoc trace op address :
  writes_of (trace ++ [(op, address)])
  = (writes_of trace + (if is_write op then 1 else 0))%nat.
Proof.
  unfold writes_of. rewrite filter_app, length_app. by destruct op.
Qed.

Lemma reads_writes_length trace :
  (reads_of trace + writes_of trace = length trace)%nat.
Proof.
  induction trace as [|[op address] trace IH] using rev_ind; [done|].
  rewrite reads_of_snoc, writes_of_snoc, length_app. simpl.
  destruct op; simpl; lia.
Qed.

Lemma incr_exact x : 0 <= x < 4294967295 -> incr x = x + 1.
Proof. intros. zwrap. Qed.

Lemma incr_nonneg x : 0 <= incr x.
Proof. zwrap. Qed.

Lemma incr_u32 n : incr (u32 n) = u32 (n + 1).
Proof. zwrap. Qed.

(** The counters after a trace. *)
Lemma trace_counters
    (cache_size block_size associativity : Z)
    (policy : CacheReplacement_t) (ulb uib : Z) (uninit_tag seeded : nat -> Z)
    (raw_empty : nat -> bool)
    (c0 : AnyCache) (trace : list (Operation * Z)) :
  configure cache_size block_size associativity policy ulb uib uninit_tag
    seeded raw_empty = Some c0 ->
  fits cache_size block_size associativity ->
  exists c,
    simulate c0 trace = Some c
    /\ cache_access (stats c) = u32 (Z.of_nat (length trace))
    /\ read_access (stats c) = u32 (Z.of_nat (reads_of trace))
    /\ write_access (stats c) = u32 (Z.of_nat (writes_of trace))
    /\ u32 (read_misses (stats c) + write_misses (stats c))
       = cache_misses (stats c)
    /\ (Z.of_nat (length trace) < 4294967296 ->
        0 <= read_misses (stats c) <= Z.of_nat (reads_of trace)
        /\ 0 <= write_misses (stats c) <= Z.of_nat (writes_of trace)
        /\ read_misses (stats c) + write_misses (stats c)
           = cache_misses (stats c)).
Proof.
  intros Hc Hfits.
  destruct (configure_wf _ _ _ _ _ _ _ _ _ _ Hc Hfits) as (Hwf & Hstats & _).
  destruct (simulate_invariant c0
              (fun done c =>
                 cache_access (stats c) = u32 (Z.of_nat (length done))
                 /\ read_access (stats c) = u32 (Z.of_nat (reads_of done))
                 /\ write_access (stats c) = u32 (Z.of_nat (writes_of done))
                 /\ u32 (read_misses (stats c) + write_misses (stats c))
                    = cache_misses (stats c)
                 /\ 0 <= read_misses (stats c) /\ 0 <= write_misses (stats c)
                 /\ (Z.of_nat (length done) < 4294967296 ->
                     read_misses (stats c) <= Z.of_nat (reads_of done)
                     /\ write_misses (stats c) <= Z.of_nat (writes_of done)))
              Hwf) with (trace := trace)
    as (c & Hsim & _ & _ & Hca & Hra & Hwa & Hsum & Hr0 & Hw0 & Hexact).
  - rewrite Hstats. simpl. repeat split; done.
  - intros done c op address c' Hwfc _
      (Hca & Hra & Hwa & Hsum & Hr0 & Hw0 & Hexact) Hacc.
    destruct (access_cases c op address Hwfc)
      as (c'' & ba & t & si & blocks & k & b & nb & kind & vd & blocks'
          & Hacc' & _ & _ & _ & _ & _ & _ & _ & _ & _ & _ & Hcount & _).
    assert (c'' = c') by congruence. subst c''.
    destruct Hcount
      as (Hca' & Hra' & Hwa' & Hcm' & _ & _ & _ & Hrm' & Hwm' & _).
    rewrite Hca', Hra', Hwa', Hcm', Hrm', Hwm'.
    rewrite reads_of_snoc, writes_of_snoc, length_app, !Nat2Z.inj_add.
    rewrite Hca, Hra, Hwa. simpl length.
    pose proof (reads_writes_length done) as Hlen.
    split; [apply incr_u32|].
    split; [destruct op; simpl; rewrite ?Z.add_0_r; (done || apply incr_u32)|].
    split; [destruct op; simpl; rewrite ?Z.add_0_r; (done || apply incr_u32)|].
    split.
    { rewrite <- Hsum. clear. destruct (is_miss kind), op; simpl; [zwrap..|done|done]. }
    split; [destruct (is_miss kind), op; simpl; auto using incr_nonneg|].
    split; [destruct (is_miss kind), op; simpl; auto using incr_nonneg|].
    intros Hn. destruct Hexact as [Hr Hw]; [lia|].
    destruct (is_miss kind), op; simpl; rewrite ?incr_exact by lia; lia.
  - exists c. split; [done|]. split; [done|]. split; [done|].
    split; [done|]. split; [done|]. intros Hn.
    destruct (Hexact Hn) as [Hr Hw].
    pose proof (reads_writes_length trace) as Hlen.
    split; [lia|]. split; [lia|].
    rewrite <- Hsum. symmetry. apply u32_small. lia.
Qed.

(** X9. On a cache [main] built, after any trace [cache_access] is the
    number of accesses, [read_access] the number of reads and [write_access]
    the number of writes (as [uint32_t] counters hold them), and the read
    and the write misses add up to [cache_misses]; while the counters have
    not wrapped, an access counts at most one miss: the read misses are at
    most the reads and the write misses at most the writes. *)
Theorem counters_count_the_trace
    (cache_size block_size associativity : Z)
    (policy : CacheReplacement_t) (ulb uib : Z) (uninit_tag seeded : nat -> Z)
    (raw_empty : nat -> bool)
    (c0 : AnyCache) (trace : list (Operation * Z)) :
  configure cache_size block_size associativity policy ulb uib uninit_tag
    seeded raw_empty = Some c0 ->
  fits cache_size block_size associativity ->
  exists c,
    simulate c0 trace = Some c
    /\ cache_access (stats c) = u32 (Z.of_nat (length trace))
    /\ read_access (stats c) = u32 (Z.of_nat (reads_of trace))
    /\ write_access (stats c) = u32 (Z.of_nat (writes_of trace))
    /\ u32 (read_misses (stats c) + write_misses (stats c))
       = cache_misses (stats c)
    /\ (Z.of_nat (length trace) < 4294967296 ->
        0 <= read_misses (stats c) <= Z.of_nat (reads_of trace)
        /\ 0 <= write_misses (stats c) <= Z.of_nat (writes_of trace)
        /\ read_misses (stats c) + write_misses (stats c)
           = cache_misses (stats c)).
Proof.
  intros Hc Hfits.
  exact (trace_counters _ _ _ _ _ _ _ _ _ _ trace Hc Hfits).
Qed.

Lemma counters_count_the_trace_witness :
  exists c,
    simulate
      (DM (DirectMappedCache.mk (mkCache 128 64 2 6 1 AccessInfo_new [])
             [mkCacheBlock 7 false false; mkCacheBlock 7 false false]))
      [(Read, 0); (Write, 200); (Read, 8)] = Some c
    /\ cache_access (stats c) = u32 3
    /\ read_access (stats c) = u32 2
    /\ write_access (stats c) = u32 1
    /\ u32 (read_misses (stats c) + write_misses (stats c))
       = cache_misses (stats c)
    /\ (3 < 4294967296 ->
        0 <= read_misses (stats c) <= 2
        /\ 0 <= write_misses (stats c) <= 1
        /\ read_misses (stats c) + write_misses (stats c)
           = cache_misses (stats c)).
Proof.
  apply (counters_count_the_trace 128 64 1 LRU 0 0 pattern_memory
           constant_rand empty_storage
           (DM (DirectMappedCache.mk (mkCache 128 64 2 6 1 AccessInfo_new [])
                  [mkCacheBlock 7 false false; mkCacheBlock 7 false false]))
           [(Read, 0); (Write, 200); (Read, 8)]).
  - reflexivity.
  - vm_compute. discriminate.
Defined.

(** ** Counting blocks *)

Section Counting.
Context {A : Type} (P : A -> Prop) `{!forall x, Decision (P x)}.

Lemma filter_length_insert (l : list A) (k : nat) (x y : A) :
  l !! k = Some x ->
  (length (filter P (<[k := y]> l)) + (if decide (P x) then 1 else 0)
   = length (filter P l) + (if decide (P y) then 1 else 0))%nat.
Proof.
  revert k. induction l as [|z l IH]; intros [|k] Hk; try done.
  - simpl in Hk. injection Hk as ->. simpl. rewrite !filter_cons.
    destruct (decide (P x)), (decide (P y)); simpl; lia.
  - simpl in Hk |- *. rewrite !filter_cons.
    specialize (IH k Hk). destruct (decide (P z)); simpl; lia.
Qed.

Lemma filter_length_concat_insert (ls : list (list A)) (i : nat)
    (l l' : list A) :
  ls !! i = Some l ->
  (length (filter P (concat (<[i := l']> ls))) + length (filter P l)
   = length (filter P (concat ls)) + length (filter P l'))%nat.
Proof.
  revert i. induction ls as [|z ls IH]; intros [|i] Hi; try done.
  - simpl in Hi. injection Hi as ->. simpl.
    rewrite !filter_app, !length_app. lia.
  - simpl in Hi |- *. rewrite !filter_app, !length_app.
    specialize (IH i Hi). lia.
Qed.

End Counting.

(** The blocks of a cache after an access, counted by a property [P]: the
    block [b] the access ended on gave way to [nb]. *)
Lemma count_after_access (P : CacheBlock -> Prop) `{!forall x, Decision (P x)}
    c c' si blocks blocks' (k : nat) b nb :
  vec_get (cache_sets c) si = Some blocks ->
  cache_sets c' = <[Z.to_nat si := blocks']> (cache_sets c) ->
  blocks' ≡ₚ <[k := nb]> blocks ->
  blocks !! k = Some b ->
  (length (filter P (all_blocks c')) + (if decide (P b) then 1 else 0)
   = length (filter P (all_blocks c)) + (if decide (P nb) then 1 else 0))%nat.
Proof.
  intros Hblocks Hsets Hperm Hk. unfold all_blocks. rewrite Hsets.
  pose proof (vec_get_Some_range _ _ _ Hblocks) as Hr.
  rewrite vec_get_lookup in Hblocks by lia.
  pose proof (filter_length_concat_insert P _ _ _ blocks' Hblocks) as H1.
  pose proof (filter_length_insert P _ _ _ nb Hk) as H2.
  assert (H3 : length (filter P blocks')
               = length (filter P (<[k := nb]> blocks))).
  { by rewrite Hperm. }
  lia.
Qed.

(** The blocks the constructors make are invalid and clean. *)
Lemma configure_blocks_fresh cache_size block_size associativity policy
    ulb uib uninit_tag seeded raw_empty c0 :
  configure cache_size block_size associativity policy ulb uib uninit_tag
    seeded raw_empty = Some c0 ->
  fits cache_size block_size associativity ->
  Forall (fun g => valid g = false /\ dirty g = false) (all_blocks c0).
Proof.
  intros Hc Hfits.
  destruct (configure_geometry _ _ _ _ _ _ _ _ _ _ Hc Hfits)
    as (a & b & _ & _ & _ & _ & _ & Horg).
  unfold all_blocks. apply Forall_concat.
  destruct c0 as [c|c|c]; simpl.
  - destruct Horg as (_ & ->). apply Forall_fmap, Forall_forall.
    intros g Hg. constructor; [|done].
    eapply Forall_forall in Hg; [exact Hg|apply new_blocks_invalid].
  - destruct Horg as (_ & -> & _). constructor; [|done].
    apply new_blocks_invalid.
  - destruct Horg as (j & _ & _ & _ & _ & -> & _).
    apply Forall_forall. intros s (i & -> & _)%list_elem_of_fmap.
    apply new_blocks_invalid.
Qed.

Lemma fresh_not_dirty (l : list CacheBlock) :
  Forall (fun g => valid g = false /\ dirty g = false) l ->
  filter (fun b => dirty b) l = [].
Proof.
  induction 1 as [|g l [_ Hd] _ IH]; [done|].
  rewrite filter_cons, IH. rewrite Hd. done.
Qed.

(** X10. On a cache [main] built, while the counters have not wrapped,
    the dirty blocks written back and the blocks that are dirty now are
    together at most the writes of the trace: no block is written back that
    a write did not make dirty. *)
Theorem dirty_evictions_bounded_by_writes
    (cache_size block_size associativity : Z)
    (policy : CacheReplacement_t) (ulb uib : Z) (uninit_tag seeded : nat -> Z)
    (raw_empty : nat -> bool)
    (c0 : AnyCache) (trace : list (Operation * Z)) :
  configure cache_size block_size associativity policy ulb uib uninit_tag
    seeded raw_empty = Some c0 ->
  fits cache_size block_size associativity ->
  Z.of_nat (length trace) < 4294967296 ->
  exists c,
    simulate c0 trace = Some c
    /\ 0 <= dirty_blocks_evicted (stats c)
    /\ dirty_blocks_evicted (stats c) + Z.of_nat (dirty_count c)
       <= Z.of_nat (writes_of trace).
Proof.
  intros Hc Hfits Hn.
  destruct (configure_wf _ _ _ _ _ _ _ _ _ _ Hc Hfits) as (Hwf & Hstats & _).
  destruct (simulate_invariant c0
              (fun done c =>
                 0 <= dirty_blocks_evicted (stats c)
                 /\ (Z.of_nat (length done) < 4294967296 ->
                     dirty_blocks_evicted (stats c) + Z.of_nat (dirty_count c)
                     <= Z.of_nat (writes_of done)))
              Hwf) with (trace := trace) as (c & Hsim & _ & _ & H0 & Hle).
  - rewrite Hstats. split; [done|]. intros _. unfold dirty_count.
    rewrite (fresh_not_dirty _ (configure_blocks_fresh _ _ _ _ _ _ _ _ _ _
                                  Hc Hfits)).
    simpl. unfold writes_of. simpl. lia.
  - intros done c op address c' Hwfc _ (H0 & Hle) Hacc.
    destruct (access_cases c op address Hwfc)
      as (c'' & ba & t & si & blocks & k & b & nb & kind & vd & blocks'
          & Hacc' & _ & _ & _ & _ & _ & Hblocks & _ & Hsets & Hperm & Hk
          & Hcount & Hres).
    assert (c'' = c') by congruence. subst c''.
    destruct Hcount as (_ & _ & _ & _ & _ & _ & _ & _ & _ & Hde).
    pose proof (count_after_access (fun b => dirty b) c c' si blocks blocks'
                  k b nb Hblocks Hsets Hperm Hk) as Hcnt.
    fold (dirty_count c) in Hcnt. fold (dirty_count c') in Hcnt.
    rewrite Hde, writes_of_snoc, length_app. simpl length.
    split; [destruct vd; auto using incr_nonneg|].
    intros Hlen. specialize (Hle ltac:(lia)).
    pose proof (reads_writes_length done) as Hrw.
    inversion Hres as [Htg Hnb | Hv _ Hnb | _ Hnb]; subst nb vd.
    + destruct (is_write op), (dirty b) eqn:Hd; simpl in Hcnt;
        rewrite ?Hd in Hcnt; simpl in Hcnt; lia.
    + destruct (is_write op), (dirty b) eqn:Hd; simpl in Hcnt;
        rewrite ?Hd in Hcnt; simpl in Hcnt; lia.
    + destruct (is_write op), (dirty b) eqn:Hd; simpl in Hcnt;
        rewrite ?Hd in Hcnt; simpl in Hcnt;
        rewrite ?incr_exact by lia; lia.
  - exists c. split; [done|]. split; [done|]. by apply Hle.
Qed.

Lemma dirty_evictions_bounded_by_writes_witness :
  exists c,
    simulate
      (DM (DirectMappedCache.mk (mkCache 128 64 2 6 1 AccessInfo_new [])
             [mkCacheBlock 7 false false; mkCacheBlock 7 false false]))
      [(Write, 0); (Read, 128); (Write, 8)] = Some c
    /\ 0 <= dirty_blocks_evicted (stats c)
    /\ dirty_blocks_evicted (stats c) + Z.of_nat (dirty_count c)
       <= Z.of_nat (writes_of [(Write, 0); (Read, 128); (Write, 8)]).
Proof.
  apply (dirty_evictions_bounded_by_writes 128 64 1 LRU 0 0 pattern_memory
           constant_rand empty_storage
           (DM (DirectMappedCache.mk (mkCache 128 64 2 6 1 AccessInfo_new [])
                  [mkCacheBlock 7 false false; mkCacheBlock 7 false false]))
           [(Write, 0); (Read, 128); (Write, 8)]).
  - reflexivity.
  - vm_compute. discriminate.
  - simpl. lia.
Defined.

(** ** The direct-mapped cache *)

(** One access of a direct-mapped cache: the indexed block [b] gives way
    to a valid block with the tag of the address, dirty after a write, and
    after a read when [b] was dirty and is kept; the access is counted as
    an eviction when [b] is valid and holds another tag. *)
Lemma dm_access c op address :
  wf (DM c) ->
  exists ai' si ba t b,
    set_index_of (DM c) address = Some si
    /\ block_address_of (DM c) address = Some ba
    /\ addr_tag_of (DM c) address = Some t
    /\ vec_get (DirectMappedCache.cache_blocks c) si = Some b
    /\ access (DM c) (op, address)
       = Some (DM (DirectMappedCache.mk
                     (update_cache (DirectMappedCache.base c) ai'
                        (snd (is_accessed
                                (accessed_blocks (DirectMappedCache.base c))
                                ba)))
                     (<[Z.to_nat si :=
                          mkCacheBlock t
                            (is_write op
                             || (dirty b
                                 && (negb (valid b) || (tag b =? t))))
                            true]> (DirectMappedCache.cache_blocks c))))
    /\ counted (is_write op)
         (if valid b && negb (tag b =? t)
          then if history_mem (accessed_blocks (DirectMappedCache.base c)) ba
               then Conflict else Compulsory
          else if history_mem (accessed_blocks (DirectMappedCache.base c)) ba
               then NoMiss else Compulsory)
         (valid b && negb (tag b =? t) && dirty b)
         (access_info (DirectMappedCache.base c)) ai'.
Proof.
  intros [Hbase Hwf]. simpl in Hbase, Hwf.
  destruct Hbase as (Hlb & Hib & Hsum). destruct Hwf as (Hnb & Hlen).
  set (base := DirectMappedCache.base c) in *.
  destruct (ushr_total address (line_bits base)) as [ba Hba]; [lia|].
  destruct (umod_total (i32 ba) (num_blocks base) Hnb)
    as (idx & Hidx & Hidxr & Hidx32).
  destruct (ushr_total address (line_bits base + index_bits base))
    as [tg Ht]; [lia|].
  destruct (vec_get_in_range (DirectMappedCache.cache_blocks c) idx)
    as [b Hb]; [lia|].
  assert (Hsi : set_index_of (DM c) address = Some idx).
  { unfold set_index_of; simpl; fold base. rewrite Hba. obind.
    rewrite Hidx. simpl. by rewrite Hidx32. }
  assert (Hbaddr : block_address_of (DM c) address = Some (u32 (i32 ba))).
  { unfold block_address_of; simpl; fold base. by rewrite Hba. }
  assert (Htag : addr_tag_of (DM c) address = Some (u32 (i32 tg))).
  { unfold addr_tag_of; simpl; fold base. by rewrite Ht. }
  unfold access, DirectMappedCache.read, DirectMappedCache.write.
  fold base. cbv zeta. rewrite Hba. obind. rewrite Hidx. obind.
  rewrite Ht. obind. rewrite Hidx32. unfold is_accessed.
  destruct (history_mem (accessed_blocks base) (u32 (i32 ba))) eqn:Hprev;
    rewrite Hb; obind;
    destruct b as [bt bd bv]; simpl;
    destruct bv, (Z.eqb_spec bt (u32 (i32 tg))) as [->|Hne], bd, op;
    simpl; rewrite vec_set_in_range by lia; obind;
    eexists _, idx, (u32 (i32 ba)), (u32 (i32 tg)), _;
    (split; [exact Hsi|]); (split; [exact Hbaddr|]);
    (split; [exact Htag|]); (split; [exact Hb|]);
    simpl; rewrite ?Hprev, ?Z.eqb_refl;
    try (apply Z.eqb_neq in Hne; rewrite Hne);
    (split; [reflexivity|]); unfold counted; simpl; done.
Qed.

Lemma concat_singletons {A} (l : list A) : concat ((fun b => [b]) <$> l) = l.
Proof.
  induction l as [|x l IH]; [done|].
  rewrite fmap_cons. cbn [concat app]. by rewrite IH.
Qed.

Lemma dm_blocks_state_ok cache_size block_size associativity policy ulb uib
    uninit_tag seeded raw_empty c0 trace :
  configure cache_size block_size associativity policy ulb uib uninit_tag
    seeded raw_empty = Some c0 ->
  fits cache_size block_size associativity ->
  u32 associativity = DIRECT_MAPPED ->
  exists c,
    simulate c0 trace = Some (DM c) /\ wf (DM c)
    /\ Forall block_state_ok (DirectMappedCache.cache_blocks c).
Proof.
  intros Hc Hfits Hdm.
  destruct (configure_wf _ _ _ _ _ _ _ _ _ _ Hc Hfits) as (Hwf & _ & _).
  pose proof (configure_blocks_fresh _ _ _ _ _ _ _ _ _ _ Hc Hfits) as Hfresh.
  assert (exists cd, c0 = DM cd) as [cd0 ->].
  { revert Hc. unfold configure.
    destruct (valid_pow2 cache_size); [|done].
    destruct (valid_pow2 block_size); [|done]. cbn [negb].
    rewrite Hdm. simpl.
    destruct (DirectMappedCache.new _ _ _ _ _ _); [|done].
    intros [= <-]. eauto. }
  destruct (simulate_invariant (DM cd0)
              (fun _ c => exists cd,
                   c = DM cd
                   /\ Forall block_state_ok (DirectMappedCache.cache_blocks cd))
              Hwf) with (trace := trace)
    as (c & Hsim & Hwfc & _ & cd & -> & Hok).
  - exists cd0. split; [done|].
    unfold all_blocks in Hfresh. simpl in Hfresh.
    rewrite concat_singletons in Hfresh.
    eapply Forall_impl; [exact Hfresh|]. intros g [_ Hd] _. exact Hd.
  - intros done c op address c' Hwfc _ (cd & -> & Hok) Hacc.
    destruct (dm_access cd op address Hwfc)
      as (ai' & si & ba & t & b & _ & _ & _ & _ & Hacc' & _).
    rewrite Hacc' in Hacc. injection Hacc as <-.
    eexists. split; [reflexivity|]. simpl.
    apply Forall_insert; [done|]. intros Hv. done.
  - exists cd. done.
Qed.

(** X11. In a direct-mapped cache [main] built, at any point of a trace
    every block is invalid and clean, valid and clean, or valid and dirty:
    no block is dirty while invalid, because [read] and [write] test the
    valid flag before the tag. *)
Theorem direct_mapped_blocks_have_three_states
    (cache_size block_size associativity : Z)
    (policy : CacheReplacement_t) (ulb uib : Z) (uninit_tag seeded : nat -> Z)
    (raw_empty : nat -> bool)
    (c0 : AnyCache) (trace : list (Operation * Z)) :
  configure cache_size block_size associativity policy ulb uib uninit_tag
    seeded raw_empty = Some c0 ->
  fits cache_size block_size associativity ->
  u32 associativity = DIRECT_MAPPED ->
  exists c,
    simulate c0 trace = Some c
    /\ Forall block_state_ok (all_blocks c).
Proof.
  intros Hc Hfits Hdm.
  destruct (dm_blocks_state_ok _ _ _ _ _ _ _ _ _ _ trace Hc Hfits Hdm)
    as (c & Hsim & _ & Hok).
  exists (DM c). split; [done|].
  unfold all_blocks. simpl. by rewrite concat_singletons.
Qed.

Lemma direct_mapped_blocks_have_three_states_witness :
  exists c,
    simulate
      (DM (DirectMappedCache.mk (mkCache 128 64 2 6 1 AccessInfo_new [])
             [mkCacheBlock 7 false false; mkCacheBlock 7 false false]))
      [(Write, 448); (Read, 0)] = Some c
    /\ Forall block_state_ok (all_blocks c).
Proof.
  apply (direct_mapped_blocks_have_three_states 128 64 1 LRU 0 0
           pattern_memory constant_rand empty_storage
           (DM (DirectMappedCache.mk (mkCache 128 64 2 6 1 AccessInfo_new [])
                  [mkCacheBlock 7 false false; mkCacheBlock 7 false false]))
           [(Write, 448); (Read, 0)]).
  - reflexivity.
  - vm_compute. discriminate.
  - reflexivity.
Defined.

(** X12. One access of a direct-mapped cache [main] built and drove
    rewrites the block at the index of the address and no other: the block
    is valid afterwards and holds the tag of the address; it is dirty when
    the access is a write, or when the block already held the tag and was
    dirty. *)
Theorem direct_mapped_access_installs_block
    (cache_size block_size associativity : Z)
    (policy : CacheReplacement_t) (ulb uib : Z) (uninit_tag seeded : nat -> Z)
    (raw_empty : nat -> bool)
    (c0 : AnyCache) (trace : list (Operation * Z)) (op : Operation)
    (address : Z) :
  configure cache_size block_size associativity policy ulb uib uninit_tag
    seeded raw_empty = Some c0 ->
  fits cache_size block_size associativity ->
  u32 associativity = DIRECT_MAPPED ->
  exists c c' si t b,
    simulate c0 trace = Some (DM c)
    /\ access (DM c) (op, address) = Some (DM c')
    /\ set_index_of (DM c) address = Some si
    /\ addr_tag_of (DM c) address = Some t
    /\ vec_get (DirectMappedCache.cache_blocks c) si = Some b
    /\ DirectMappedCache.cache_blocks c'
       = <[Z.to_nat si :=
             mkCacheBlock t (is_write op || (dirty b && (tag b =? t))) true]>
           (DirectMappedCache.cache_blocks c).
Proof.
  intros Hc Hfits Hdm.
  destruct (dm_blocks_state_ok _ _ _ _ _ _ _ _ _ _ trace Hc Hfits Hdm)
    as (c & Hsim & Hwf & Hok).
  destruct (dm_access c op address Hwf)
    as (ai' & si & ba & t & b & Hsi & _ & Ht & Hb & Hacc & _).
  eexists c, _, si, t, b. split; [done|]. split; [exact Hacc|].
  repeat (split; [done|]). simpl. f_equal. f_equal.
  pose proof (vec_get_Some_range _ _ _ Hb) as Hr.
  rewrite vec_get_lookup in Hb by lia.
  pose proof (Forall_lookup_1 _ _ _ _ Hok Hb) as Hstate.
  unfold block_state_ok in Hstate.
  destruct (valid b), (dirty b), (tag b =? t), (is_write op); simpl;
    try done; by specialize (Hstate eq_refl).
Qed.

Lemma direct_mapped_access_installs_block_witness :
  exists c c' si t b,
    simulate
      (DM (DirectMappedCache.mk (mkCache 128 64 2 6 1 AccessInfo_new [])
             [mkCacheBlock 7 false false; mkCacheBlock 7 false false]))
      [(Write, 448)] = Some (DM c)
    /\ access (DM c) (Read, 64) = Some (DM c')
    /\ set_index_of (DM c) 64 = Some si
    /\ addr_tag_of (DM c) 64 = Some t
    /\ vec_get (DirectMappedCache.cache_blocks c) si = Some b
    /\ DirectMappedCache.cache_blocks c'
       = <[Z.to_nat si :=
             mkCacheBlock t (is_write Read || (dirty b && (tag b =? t))) true]>
           (DirectMappedCache.cache_blocks c).
Proof.
  apply (direct_mapped_access_installs_block 128 64 1 LRU 0 0
           pattern_memory constant_rand empty_storage
           (DM (DirectMappedCache.mk (mkCache 128 64 2 6 1 AccessInfo_new [])
                  [mkCacheBlock 7 false false; mkCacheBlock 7 false false]))
           [(Write, 448)] Read 64).
  - reflexivity.
  - vm_compute. discriminate.
  - reflexivity.
Defined.

(** ** What an access leaves alone *)

Lemma sa_two_sets_reachable trace c :
  simulate sa_two_sets trace = Some c -> reachable c.
Proof.
  intros Hsim.
  exists 256, 64, 2, PSEUDO_LRU, 0, 0, pattern_memory,
    constant_rand, empty_storage,
    sa_two_sets, trace.
  split; [reflexivity|]. split; [vm_compute; discriminate|exact Hsim].
Qed.

(** X13. One access of a cache [main] built and drove changes one set and
    no other: the set the address maps to is afterwards the old one with at
    most one way rewritten, in the same or in another order; the other sets
    are as they were, and the cache has as many sets as before. *)
Theorem access_changes_one_way (c : AnyCache) (op : Operation) (address : Z) :
  reachable c ->
  exists c' si blocks blocks' (k : nat) nb,
    access c (op, address) = Some c'
    /\ set_index_of c address = Some si
    /\ vec_get (cache_sets c) si = Some blocks
    /\ vec_get (cache_sets c') si = Some blocks'
    /\ blocks' ≡ₚ <[k := nb]> blocks
    /\ length (cache_sets c') = length (cache_sets c)
    /\ forall s : nat, Z.of_nat s <> si ->
         cache_sets c' !! s = cache_sets c !! s.
Proof.
  intros Hwf%reachable_wf.
  destruct (access_cases c op address Hwf)
    as (c' & ba & t & si & blocks & k & b & nb & kind & vd & blocks'
        & Hacc & _ & _ & _ & _ & Hsi & Hblocks & _ & Hsets & Hperm & _).
  exists c', si, blocks, blocks', k, nb.
  pose proof (vec_get_Some_range _ _ _ Hblocks) as Hr.
  repeat (split; [done|]).
  split; [rewrite Hsets; by apply vec_get_insert_eq|].
  split; [done|].
  split; [by rewrite Hsets, length_insert|].
  intros s Hs. rewrite Hsets. apply list_lookup_insert_ne. lia.
Qed.

Lemma access_changes_one_way_witness :
  exists c' si blocks blocks' (k : nat) nb,
    access sa_two_sets (Write, 64) = Some c'
    /\ set_index_of sa_two_sets 64 = Some si
    /\ vec_get (cache_sets sa_two_sets) si = Some blocks
    /\ vec_get (cache_sets c') si = Some blocks'
    /\ blocks' ≡ₚ <[k := nb]> blocks
    /\ length (cache_sets c') = length (cache_sets sa_two_sets)
    /\ forall s : nat, Z.of_nat s <> si ->
         cache_sets c' !! s = cache_sets sa_two_sets !! s.
Proof.
  apply (access_changes_one_way sa_two_sets Write 64).
  apply (sa_two_sets_reachable []). reflexivity.
Defined.

(** X14. On a cache [main] built and drove, an access never makes a valid
    block invalid, and it replaces a valid block only when the set has no
    invalid way and no way with the tag: every valid block is after the
    access in its set, valid, with its tag, and dirty if it was, unless it
    sits in the way an eviction resolves to. *)
Theorem valid_blocks_stay_until_evicted (c : AnyCache) (op : Operation)
    (address : Z) :
  reachable c ->
  exists c' si (k : nat),
    access c (op, address) = Some c'
    /\ set_index_of c address = Some si
    /\ forall (s i : nat) blocks b,
         cache_sets c !! s = Some blocks -> blocks !! i = Some b ->
         valid b = true ->
         (exists blocks' b',
             cache_sets c' !! s = Some blocks' /\ b' ∈ blocks'
             /\ tag b' = tag b /\ valid b' = true
             /\ (dirty b = true -> dirty b' = true))
         \/ (Z.of_nat s = si /\ i = k /\ eviction_required c address).
Proof.
  intros Hwf%reachable_wf.
  destruct (access_cases c op address Hwf)
    as (c' & ba & t & si & blocks0 & k & b0 & nb & kind & vd & blocks'
        & Hacc & _ & Hgeo & Hba & Ht & Hsi & Hblocks & _ & Hsets & Hperm
        & Hk & _ & Hres).
  exists c', si, k. split; [done|]. split; [done|].
  intros s i blocks b Hs Hi Hbv.
  apply vec_get_Some_range in Hblocks as Hsir.
  rewrite vec_get_lookup in Hblocks by lia.
  destruct (decide (s = Z.to_nat si)) as [->|Hne].
  - assert (blocks = blocks0) by congruence. subst blocks.
    destruct (decide (i = k)) as [->|Hik].
    + assert (b0 = b) by congruence. subst b0.
      inversion Hres as [Htg Hnb | Hv _ _ | Hall Hnb]; subst.
      * left. exists blocks', (if is_write op then set_dirty b true else b).
        split; [rewrite Hsets; apply list_lookup_insert_eq;
                by eapply lookup_lt_Some|].
        split; [rewrite Hperm; by eapply elem_of_insert_here|].
        by destruct (is_write op).
      * congruence.
      * right. split; [lia|]. split; [done|].
        exists blocks0, t. split; [|done].
        unfold target_set. rewrite Hsi. obind.
        by rewrite vec_get_lookup by lia.
    + left. exists blocks', b.
      split; [rewrite Hsets; apply list_lookup_insert_eq;
              by eapply lookup_lt_Some|].
      split; [|done]. rewrite Hperm. by eapply elem_of_insert_other.
  - left. exists blocks, b.
    split; [rewrite Hsets; by rewrite list_lookup_insert_ne|].
    split; [|done]. apply list_elem_of_lookup. by exists i.
Qed.

Lemma valid_blocks_stay_until_evicted_witness :
  exists c' si (k : nat),
    access dm_after_read_0 (Write, 128) = Some c'
    /\ set_index_of dm_after_read_0 128 = Some si
    /\ forall (s i : nat) blocks b,
         cache_sets dm_after_read_0 !! s = Some blocks ->
         blocks !! i = Some b ->
         valid b = true ->
         (exists blocks' b',
             cache_sets c' !! s = Some blocks' /\ b' ∈ blocks'
             /\ tag b' = tag b /\ valid b' = true
             /\ (dirty b = true -> dirty b' = true))
         \/ (Z.of_nat s = si /\ i = k
             /\ eviction_required dm_after_read_0 128).
Proof.
  apply (valid_blocks_stay_until_evicted dm_after_read_0 Write 128).
  exists 128, 64, DIRECT_MAPPED, LRU, 0, 0, pattern_memory,
    constant_rand, empty_storage,
    (DM (DirectMappedCache.mk
           (mkCache 128 64 2 6 1 AccessInfo_new [])
           [mkCacheBlock 7 false false; mkCacheBlock 7 false false])),
    [(Read, 0)].
  split; [reflexivity|]. split; [vm_compute; discriminate|reflexivity].
Defined.

(** ** The size of the cache *)

Lemma length_concat_uniform {A} (ls : list (list A)) (n : nat) :
  Forall (fun l => length l = n) ls ->
  length (concat ls) = (length ls * n)%nat.
Proof.
  induction 1 as [|l ls Hl _ IH]; [done|].
  simpl. rewrite length_app, IH, Hl. lia.
Qed.

(** X15. A cache [main] built holds [cache_size / block_size] blocks at any
    point of a trace: one per set in a direct-mapped cache, all in one set
    in a fully associative cache, and [cache_size / block_size /
    associativity] sets of [associativity] ways in a set-associative
    cache. No access adds or removes a block. *)
Theorem cache_holds_num_blocks
    (cache_size block_size associativity : Z)
    (policy : CacheReplacement_t) (ulb uib : Z) (uninit_tag seeded : nat -> Z)
    (raw_empty : nat -> bool)
    (c0 : AnyCache) (trace : list (Operation * Z)) :
  configure cache_size block_size associativity policy ulb uib uninit_tag
    seeded raw_empty = Some c0 ->
  fits cache_size block_size associativity ->
  exists c,
    simulate c0 trace = Some c
    /\ Z.of_nat (length (all_blocks c)) = u32 cache_size / u32 block_size
    /\ Z.of_nat (length (cache_sets c))
       = match c0 with
         | DM _ => u32 cache_size / u32 block_size
         | FA _ => 1
         | SA _ => u32 cache_size / u32 block_size / u32 associativity
         end
    /\ Forall (fun s => Z.of_nat (length s)
                        = match c0 with
                          | DM _ => 1
                          | FA _ => u32 cache_size / u32 block_size
                          | SA _ => u32 associativity
                          end) (cache_sets c).
Proof.
  intros Hc Hfits.
  destruct (configure_wf _ _ _ _ _ _ _ _ _ _ Hc Hfits) as (Hwf & _ & _).
  destruct (configure_geometry _ _ _ _ _ _ _ _ _ _ Hc Hfits)
    as (a & b & Hb & Ha & Hcs & Hbs & Hbase & Horg).
  pose proof (pow2_range b ltac:(lia)) as Hpb.
  pose proof (pow2_range (a - b) ltac:(lia)) as Hpab.
  assert (Hdiv : 2 ^ a / 2 ^ b = 2 ^ (a - b)) by (rewrite Z.pow_sub_r; lia).
  rewrite Hcs, Hbs, Hdiv.
  set (nsets := match c0 with
                | DM _ => 2 ^ (a - b)
                | FA _ => 1
                | SA _ => 2 ^ (a - b) / u32 associativity
                end).
  set (nways := match c0 with
                | DM _ => 1
                | FA _ => 2 ^ (a - b)
                | SA _ => u32 associativity
                end).
  assert (Hprod : nsets * nways = 2 ^ (a - b) /\ 0 <= nways).
  { subst nsets nways. destruct c0 as [c|c|c]; [lia|lia|].
    destruct Horg as (j & Hj & Hja & -> & _).
    pose proof (pow2_range j ltac:(lia)).
    rewrite <- Z.pow_sub_r, <- Z.pow_add_r by lia.
    split; [f_equal|]; lia. }
  destruct (simulate_invariant c0
              (fun _ c =>
                 Z.of_nat (length (cache_sets c)) = nsets
                 /\ Forall (fun s => Z.of_nat (length s) = nways)
                      (cache_sets c))
              Hwf) with (trace := trace) as (c & Hsim & _ & _ & Hns & Hnw).
  - subst nsets nways. destruct c0 as [c|c|c]; simpl.
    + destruct Horg as (_ & ->).
      rewrite length_fmap, length_new_blocks. split; [lia|].
      apply Forall_fmap, Forall_forall. done.
    + destruct Horg as (_ & -> & _). split; [done|].
      constructor; [|done]. rewrite length_new_blocks. lia.
    + destruct Horg as (j & Hj & Hja & -> & _ & -> & _).
      pose proof (pow2_range j ltac:(lia)).
      pose proof (pow2_range (a - b - j) ltac:(lia)).
      rewrite length_map, length_seq, <- Z.pow_sub_r by lia. split; [lia|].
      apply Forall_forall. intros s (i & -> & _)%list_elem_of_fmap.
      rewrite length_new_blocks. lia.
  - intros done c op address c' Hwfc _ (Hns & Hnw) Hacc.
    destruct (access_cases c op address Hwfc)
      as (c'' & ba & t & si & blocks & k & b0 & nb & kind & vd & blocks'
          & Hacc' & _ & _ & _ & _ & _ & Hblocks & _ & Hsets & Hperm & _).
    assert (c'' = c') by congruence. subst c''.
    pose proof (vec_get_Some_range _ _ _ Hblocks) as Hr.
    rewrite vec_get_lookup in Hblocks by lia.
    rewrite Hsets, length_insert. split; [done|].
    apply Forall_insert; [done|].
    rewrite Hperm, length_insert.
    exact (Forall_lookup_1 _ _ _ _ Hnw Hblocks).
  - exists c. split; [done|]. split; [|split; done].
    unfold all_blocks.
    rewrite (length_concat_uniform _ (Z.to_nat nways)).
    + rewrite Nat2Z.inj_mul, Z2Nat.id by lia. lia.
    + eapply Forall_impl; [exact Hnw|]. simpl. intros s Hs. lia.
Qed.

Lemma cache_holds_num_blocks_witness :
  exists c,
    simulate sa_two_sets [(Write, 64); (Read, 0)] = Some c
    /\ Z.of_nat (length (all_blocks c)) = u32 256 / u32 64
    /\ Z.of_nat (length (cache_sets c)) = u32 256 / u32 64 / u32 2
    /\ Forall (fun s => Z.of_nat (length s) = u32 2) (cache_sets c).
Proof.
  apply (cache_holds_num_blocks 256 64 2 PSEUDO_LRU 0 0 pattern_memory
           constant_rand empty_storage sa_two_sets [(Write, 64); (Read, 0)]).
  - reflexivity.
  - vm_compute. discriminate.
Defined.

(** ** The pseudo-LRU tree *)

(** The cells of a tree as [CacheReplace::CacheReplace] leaves them. *)
Lemma fresh_tree_zero ways i :
  0 <= i < ways - 1 -> vec_get (fresh_tree ways) i = Some 0.
Proof.
  intros Hi. rewrite vec_get_lookup by lia. unfold fresh_tree.
  rewrite lookup_app_l by (rewrite length_replicate; lia).
  apply lookup_replicate_2. lia.
Qed.

Lemma fresh_walk_goes_left e md :
  (forall i, 0 <= i < 2 ^ e - 1 -> vec_get md i = Some 0) ->
  forall n d, 0 <= d -> d + Z.of_nat n = e ->
    walk_reaches (2 ^ e) md (2 ^ d - 1) (2 ^ e - 1).
Proof.
  intros Hzero. induction n as [|n IH]; intros d Hd Hn.
  - replace d with e by lia. apply walk_leaf. lia.
  - assert (0 < 2 ^ d) by (apply Z.pow_pos_nonneg; lia).
    assert (2 ^ d < 2 ^ e) by (apply Z.pow_lt_mono_r; lia).
    apply walk_left; [lia|apply Hzero; lia|].
    replace (2 * (2 ^ d - 1) + 1) with (2 ^ (d + 1) - 1)
      by (rewrite Z.pow_add_r by lia; lia).
    apply IH; lia.
Qed.

(** X16. [CacheReplace::CacheReplace] returns for pseudo-LRU and a power
    of two of ways, and on the policy object it builds the first victim of
    every set is way 0: every internal cell is 0 and the walk goes left
    down to the first leaf. *)
Theorem fresh_plru_victim_is_way_0 (nsets e set_index : Z)
    (seeded : nat -> Z) (data : list CacheBlock) :
  0 <= e <= 30 -> 0 <= set_index < nsets ->
  exists r,
    CacheReplace_new PSEUDO_LRU nsets (2 ^ e) seeded = Some r
    /\ get_victim_index r set_index data = Some (0, r).
Proof.
  intros He Hsi. pose proof (pow2_range e He) as Hw.
  rewrite CacheReplace_new_spec by lia.
  set (r := fresh_replace PSEUDO_LRU nsets (2 ^ e) seeded).
  exists r. split; [done|].
  assert (Hmd : vec_get (meta_data r) set_index
                = Some (fresh_tree (2 ^ e))).
  { rewrite vec_get_lookup by lia. simpl.
    apply lookup_replicate_2. lia. }
  destruct (get_victim_index_plru r set_index data (fresh_tree (2 ^ e)))
    as (v & Hv & Hrange & Hreach); [done|done|done| |].
  { unfold fresh_tree. rewrite length_app, !length_replicate. simpl. lia. }
  pose proof (fresh_walk_goes_left e (fresh_tree (2 ^ e))
                (fresh_tree_zero (2 ^ e)) (Z.to_nat e) 0
                ltac:(lia) ltac:(lia)) as Hleft.
  simpl in Hreach, Hleft.
  pose proof (walk_reaches_fun _ _ _ _ _ Hreach Hleft) as Heq.
  assert (v = 0) by lia. subst v. exact Hv.
Qed.

Lemma fresh_plru_victim_is_way_0_witness :
  exists r,
    CacheReplace_new PSEUDO_LRU 2 (2 ^ 3) constant_rand = Some r
    /\ get_victim_index r 1 [] = Some (0, r).
Proof. apply fresh_plru_victim_is_way_0; lia. Defined.

(** The leaves below a node: a walk from the node [o] of depth [d] ends
    on one of the ways [o * 2^(e-d)] to [(o+1) * 2^(e-d) - 1]. *)
Lemma walk_subtree e md i j :
  walk_reaches (2 ^ e) md i j ->
  forall d o, 0 <= d <= e -> 0 <= o < 2 ^ d -> i + 1 = 2 ^ d + o ->
    o * 2 ^ (e - d) <= j + 1 - 2 ^ e < (o + 1) * 2 ^ (e - d).
Proof.
  induction 1 as [i Hleaf|i j Hint Hcell _ IH|i j bit Hint Hcell Hbit _ IH];
    intros d o Hd Ho Hi.
  - assert (d = e) as ->.
    { assert (2 ^ e < 2 ^ (d + 1)).
      { rewrite Z.pow_add_r by lia. lia. }
      apply Z.pow_lt_mono_r_iff in H; lia. }
    rewrite Z.sub_diag. simpl. lia.
  - assert (Hde : d < e).
    { apply (Z.pow_lt_mono_r_iff 2); lia. }
    assert (Hp : 0 < 2 ^ (e - (d + 1))) by (apply Z.pow_pos_nonneg; lia).
    assert (Hsplit : 2 ^ (e - d) = 2 * 2 ^ (e - (d + 1))).
    { replace (e - d) with (1 + (e - (d + 1))) by lia.
      by rewrite Z.pow_add_r by lia. }
    specialize (IH (d + 1) (2 * o) ltac:(lia)).
    rewrite Z.pow_add_r in IH by lia.
    specialize (IH ltac:(lia) ltac:(lia)). rewrite Hsplit. nia.
  - assert (Hde : d < e).
    { apply (Z.pow_lt_mono_r_iff 2); lia. }
    assert (Hp : 0 < 2 ^ (e - (d + 1))) by (apply Z.pow_pos_nonneg; lia).
    assert (Hsplit : 2 ^ (e - d) = 2 * 2 ^ (e - (d + 1))).
    { replace (e - d) with (1 + (e - (d + 1))) by lia.
      by rewrite Z.pow_add_r by lia. }
    specialize (IH (d + 1) (2 * o + 1) ltac:(lia)).
    rewrite Z.pow_add_r in IH by lia.
    specialize (IH ltac:(lia) ltac:(lia)). rewrite Hsplit. nia.
Qed.

(** The root cell tells the half of the set the victim is in. *)
Lemma victim_half e md v root :
  1 <= e ->
  vec_get md 0 = Some root ->
  walk_reaches (2 ^ e) md 0 (v + (2 ^ e - 1)) ->
  (root = 0 <-> v < 2 ^ (e - 1)).
Proof.
  intros He Hroot Hreach.
  assert (2 ^ 1 <= 2 ^ e) by (apply Z.pow_le_mono_r; lia).
  assert (Hhalf : 2 ^ e = 2 * 2 ^ (e - 1)).
  { replace e with (1 + (e - 1)) at 1 by lia. by rewrite Z.pow_add_r by lia. }
  inversion Hreach as [i Hleaf|i j Hint Hcell Hnext|i j bit Hint Hcell Hbit Hnext];
    subst.
  - simpl in *. lia.
  - pose proof (walk_subtree _ _ _ _ Hnext 1 0 ltac:(lia) ltac:(simpl; lia)
                  ltac:(simpl; lia)) as Hr.
    assert (root = 0) by congruence. lia.
  - pose proof (walk_subtree _ _ _ _ Hnext 1 1 ltac:(lia) ltac:(simpl; lia)
                  ltac:(simpl; lia)) as Hr.
    assert (root = bit) by congruence. lia.
Qed.

Lemma root_is_ancestor i : 0 < i -> is_ancestor 0 i.
Proof.
  intros Hi. assert (Hnat : forall n : nat, forall i, 0 < i <= Z.of_nat n ->
                                                      is_ancestor 0 i).
  { clear. induction n as [|n IH]; intros i Hi; [lia|].
    destruct (decide ((i - 1) / 2 = 0)) as [Hz|Hnz].
    - rewrite <- Hz. apply ancestor_parent. lia.
    - apply ancestor_above; [lia|]. apply IH.
      assert (0 <= (i - 1) / 2) by (apply Z.div_pos; lia).
      assert ((i - 1) / 2 < i) by (apply Z.div_lt_upper_bound; lia).
      lia. }
  apply (Hnat (Z.to_nat i)). lia.
Qed.

(** The cells of a set after [mark_accessed] under pseudo-LRU. *)
Lemma mark_accessed_plru_cells r set_index data block_index md b :
  replacement_policy r = PSEUDO_LRU ->
  2 <= ways r <= 1073741824 ->
  0 <= block_index < ways r ->
  vec_get (meta_data r) set_index = Some md ->
  Z.of_nat (length md) = 2 * ways r - 1 ->
  vec_get data block_index = Some b ->
  exists md',
    mark_accessed r set_index data block_index
    = Some (set_meta_data r (<[Z.to_nat set_index := md']> (meta_data r)),
            data)
    /\ length md' = length md
    /\ (forall j, is_ancestor j (block_index + ways r - 1) ->
                  vec_get md' j = logical_not <$> vec_get md j)
    /\ (forall j, j <> block_index + ways r - 1 ->
                  ~ is_ancestor j (block_index + ways r - 1) ->
                  vec_get md' j = vec_get md j).
Proof.
  intros Hp Hw Hbi Hmd Hlen Hb.
  set (leaf := block_index + ways r - 1).
  unfold mark_accessed. rewrite Hp.
  destruct (decide (PSEUDO_LRU = LRU)) as [|_]; [done|].
  destruct (decide (PSEUDO_LRU = PSEUDO_LRU)) as [_|]; [|done].
  obind. rewrite Hb. obind. rewrite Hmd. obind.
  rewrite u32_small by lia.
  replace (ways r - 1 + block_index) with leaf by (subst leaf; lia).
  replace (block_index + ways r - 1) with leaf by done.
  rewrite u32_small, i32_small by (subst leaf; lia).
  rewrite (vec_set_in_range md leaf) by (subst leaf; lia). obind.
  set (md0 := <[Z.to_nat leaf := i32 (tag b)]> md).
  assert (Hlen0 : length md0 = length md) by apply length_insert.
  destruct (plru_toggle_spec (toggle_fuel leaf) md0 leaf)
    as (md' & Hrun & Hlen' & Hanc & Hoth).
  { subst leaf; lia. }
  { unfold toggle_fuel. subst leaf; lia. }
  rewrite Hrun. obind.
  apply vec_get_Some_range in Hmd as Hsi.
  rewrite vec_set_in_range by done. obind.
  exists md'. split; [done|]. split; [congruence|]. split.
  - intros j Hj. rewrite Hanc by done.
    apply is_ancestor_lt in Hj as Hlt.
    subst md0. by rewrite vec_get_insert_ne by (subst leaf; lia).
  - intros j Hne Hj. rewrite Hoth by done.
    subst md0. by rewrite vec_get_insert_ne by (subst leaf; lia).
Qed.

(** X17. Under pseudo-LRU every [mark_accessed] flips the root of the tree,
    so the victim changes halves with each access, whichever way was
    accessed: a victim in the lower half of the set is followed by one in
    the upper half and the other way round. The way an eviction has just
    filled is therefore not the next victim, while an access to a way of
    the other half brings the victim into the half of that way. *)
Theorem plru_access_moves_victim_to_other_half (r : CacheReplace)
    (set_index : Z) (data : list CacheBlock) (block_index : Z)
    (md : list Z) (b : CacheBlock) (e : Z) :
  replacement_policy r = PSEUDO_LRU ->
  1 <= e <= 30 -> ways r = 2 ^ e ->
  0 <= block_index < ways r ->
  vec_get (meta_data r) set_index = Some md ->
  Z.of_nat (length md) = 2 * ways r - 1 ->
  vec_get data block_index = Some b ->
  exists v r' v',
    get_victim_index r set_index data = Some (v, r)
    /\ mark_accessed r set_index data block_index = Some (r', data)
    /\ get_victim_index r' set_index data = Some (v', r')
    /\ 0 <= v < ways r /\ 0 <= v' < ways r
    /\ (v < 2 ^ (e - 1) <-> 2 ^ (e - 1) <= v').
Proof.
  intros Hp He Hways Hbi Hmd Hlen Hb.
  pose proof (pow2_range e ltac:(lia)) as Hr. rewrite <- Hways in Hr.
  assert (Hw2 : 2 <= ways r).
  { rewrite Hways. change 2 with (2 ^ 1) at 1. apply Z.pow_le_mono_r; lia. }
  destruct (get_victim_index_plru r set_index data md)
    as (v & Hv & Hvr & Hreach); [done|lia|done|done|].
  destruct (mark_accessed_plru_cells r set_index data block_index md b)
    as (md' & Hmark & Hlen' & Hanc & _); [done|lia|done|done|done|done|].
  set (r' := set_meta_data r (<[Z.to_nat set_index := md']> (meta_data r)))
    in *.
  apply vec_get_Some_range in Hmd as Hsi.
  assert (Hmd' : vec_get (meta_data r') set_index = Some md').
  { simpl. by apply vec_get_insert_eq. }
  destruct (get_victim_index_plru r' set_index data md')
    as (v' & Hv' & Hvr' & Hreach'); [done|simpl; lia|done| |].
  { simpl. rewrite Hlen'. done. }
  exists v, r', v'. repeat (split; [done|]).
  destruct (vec_get_in_range md 0) as [root Hroot]; [lia|].
  assert (Hroot' : vec_get md' 0 = Some (logical_not root)).
  { rewrite Hanc, Hroot; [done|]. apply root_is_ancestor. lia. }
  simpl in Hreach'. rewrite Hways in Hreach, Hreach'.
  pose proof (victim_half e md v root ltac:(lia) Hroot Hreach) as H1.
  pose proof (victim_half e md' v' _ ltac:(lia) Hroot' Hreach') as H2.
  unfold logical_not in H2.
  destruct (Z.eqb_spec root 0); lia.
Qed.

Lemma plru_access_moves_victim_to_other_half_witness :
  exists v r' v',
    get_victim_index plru_four_ways 0
      [mkCacheBlock 5 false true; mkCacheBlock 6 false true;
       mkCacheBlock 7 false true; mkCacheBlock 8 false true]
    = Some (v, plru_four_ways)
    /\ mark_accessed plru_four_ways 0
         [mkCacheBlock 5 false true; mkCacheBlock 6 false true;
          mkCacheBlock 7 false true; mkCacheBlock 8 false true] 3
       = Some (r', [mkCacheBlock 5 false true; mkCacheBlock 6 false true;
                    mkCacheBlock 7 false true; mkCacheBlock 8 false true])
    /\ get_victim_index r' 0
         [mkCacheBlock 5 false true; mkCacheBlock 6 false true;
          mkCacheBlock 7 false true; mkCacheBlock 8 false true]
       = Some (v', r')
    /\ 0 <= v < 4 /\ 0 <= v' < 4
    /\ (v < 2 ^ (2 - 1) <-> 2 ^ (2 - 1) <= v').
Proof.
  apply (plru_access_moves_victim_to_other_half plru_four_ways 0
           [mkCacheBlock 5 false true; mkCacheBlock 6 false true;
            mkCacheBlock 7 false true; mkCacheBlock 8 false true] 3
           [0; 0; 0; -1; -1; -1; -1] (mkCacheBlock 8 false true) 2);
    [reflexivity | lia | reflexivity | unfold plru_four_ways; simpl; lia
    | reflexivity | reflexivity | reflexivity].
Defined.

Lemma is_ancestor_dec a i : is_ancestor a i \/ ~ is_ancestor a i.
Proof.
  assert (Hnat : forall n : nat, forall i, i <= Z.of_nat n ->
                   is_ancestor a i \/ ~ is_ancestor a i).
  { clear. induction n as [|n IH]; intros i Hi.
    - right. intros [H _]%is_ancestor_inv. lia.
    - destruct (decide (0 < i)) as [Hpos|Hneg].
      2: { right. intros [H _]%is_ancestor_inv. lia. }
      destruct (decide (a = (i - 1) / 2)) as [->|Hne].
      { left. by apply ancestor_parent. }
      destruct (IH ((i - 1) / 2)) as [Hyes|Hno].
      + assert ((i - 1) / 2 < i) by (apply Z.div_lt_upper_bound; lia). lia.
      + left. by apply ancestor_above.
      + right. intros [_ [H|H]]%is_ancestor_inv; done. }
  apply (Hnat (Z.to_nat i)). lia.
Qed.

(** The walk reads the internal cells only, and only whether they are 0. *)
Lemma walk_reaches_ext ways md md' :
  (forall i, 0 <= i < ways - 1 ->
     exists x y, vec_get md i = Some x /\ vec_get md' i = Some y
                 /\ (x = 0 <-> y = 0)) ->
  forall i j, walk_reaches ways md i j -> walk_reaches ways md' i j.
Proof.
  intros Hsame i j. induction 1 as [i Hleaf|i j Hint Hcell _ IH
                                    |i j bit Hint Hcell Hbit _ IH].
  - by apply walk_leaf.
  - pose proof (vec_get_Some_range _ _ _ Hcell) as Hr.
    destruct (Hsame i ltac:(lia)) as (x & y & Hx & Hy & Hxy).
    assert (x = 0) by congruence.
    apply walk_left; [done| |done]. rewrite Hy. f_equal. tauto.
  - pose proof (vec_get_Some_range _ _ _ Hcell) as Hr.
    destruct (Hsame i ltac:(lia)) as (x & y & Hx & Hy & Hxy).
    assert (x = bit) by congruence.
    apply (walk_right _ _ _ _ y); [done|done| |done]. intros Hy0.
    apply Hbit. subst x. tauto.
Qed.

(** X18. Under pseudo-LRU two [mark_accessed] in a row on the same way
    cancel out in the tree: the victim after the second is the victim
    before the first, since each call replaces the cells above the leaf by
    their logical NOT. *)
Theorem plru_marking_twice_restores_victim (r : CacheReplace)
    (set_index : Z) (data : list CacheBlock) (block_index : Z)
    (md : list Z) (b : CacheBlock) :
  replacement_policy r = PSEUDO_LRU ->
  2 <= ways r <= 1073741824 ->
  0 <= block_index < ways r ->
  vec_get (meta_data r) set_index = Some md ->
  Z.of_nat (length md) = 2 * ways r - 1 ->
  vec_get data block_index = Some b ->
  exists v r1 r2,
    get_victim_index r set_index data = Some (v, r)
    /\ mark_accessed r set_index data block_index = Some (r1, data)
    /\ mark_accessed r1 set_index data block_index = Some (r2, data)
    /\ get_victim_index r2 set_index data = Some (v, r2).
Proof.
  intros Hp Hw Hbi Hmd Hlen Hb.
  set (leaf := block_index + ways r - 1).
  destruct (get_victim_index_plru r set_index data md)
    as (v & Hv & Hvr & Hreach); [done|lia|done|done|].
  destruct (mark_accessed_plru_cells r set_index data block_index md b)
    as (md1 & Hmark1 & Hlen1 & Hanc1 & Hoth1); [done..|].
  set (r1 := set_meta_data r (<[Z.to_nat set_index := md1]> (meta_data r)))
    in *.
  apply vec_get_Some_range in Hmd as Hsi.
  assert (Hmd1 : vec_get (meta_data r1) set_index = Some md1).
  { simpl. by apply vec_get_insert_eq. }
  destruct (mark_accessed_plru_cells r1 set_index data block_index md1 b)
    as (md2 & Hmark2 & Hlen2 & Hanc2 & Hoth2);
    [done|done|done|done|simpl; by rewrite Hlen1|done|].
  set (r2 := set_meta_data r1 (<[Z.to_nat set_index := md2]> (meta_data r1)))
    in *.
  assert (Hmd2 : vec_get (meta_data r2) set_index = Some md2).
  { simpl. apply vec_get_insert_eq. by rewrite length_insert. }
  destruct (get_victim_index_plru r2 set_index data md2)
    as (v2 & Hv2 & Hvr2 & Hreach2);
    [done|simpl; lia|done|simpl; by rewrite Hlen2, Hlen1|].
  simpl in Hanc2, Hoth2, Hreach2.
  assert (Hsame : walk_reaches (ways r) md2 0 (v + (ways r - 1))).
  { apply (walk_reaches_ext (ways r) md); [|done].
    intros i Hi. destruct (vec_get_in_range md i) as [x Hx]; [lia|].
    destruct (is_ancestor_dec i leaf) as [Hyes|Hno].
    - exists x, (logical_not (logical_not x)).
      split; [done|]. split.
      + rewrite Hanc2, Hanc1, Hx by done. done.
      + unfold logical_not. destruct (Z.eqb_spec x 0); simpl; split; lia.
    - exists x, x. split; [done|]. split; [|done].
      rewrite Hoth2, Hoth1 by (done || subst leaf; lia). done. }
  pose proof (walk_reaches_fun _ _ _ _ _ Hreach2 Hsame).
  assert (v2 = v) by lia. subst v2.
  exists v, r1, r2. done.
Qed.

Lemma plru_marking_twice_restores_victim_witness :
  exists v r1 r2,
    get_victim_index plru_four_ways 0
      [mkCacheBlock 5 false true; mkCacheBlock 6 false true;
       mkCacheBlock 7 false true; mkCacheBlock 8 false true]
    = Some (v, plru_four_ways)
    /\ mark_accessed plru_four_ways 0
         [mkCacheBlock 5 false true; mkCacheBlock 6 false true;
          mkCacheBlock 7 false true; mkCacheBlock 8 false true] 1
       = Some (r1, [mkCacheBlock 5 false true; mkCacheBlock 6 false true;
                    mkCacheBlock 7 false true; mkCacheBlock 8 false true])
    /\ mark_accessed r1 0
         [mkCacheBlock 5 false true; mkCacheBlock 6 false true;
          mkCacheBlock 7 false true; mkCacheBlock 8 false true] 1
       = Some (r2, [mkCacheBlock 5 false true; mkCacheBlock 6 false true;
                    mkCacheBlock 7 false true; mkCacheBlock 8 false true])
    /\ get_victim_index r2 0
         [mkCacheBlock 5 false true; mkCacheBlock 6 false true;
          mkCacheBlock 7 false true; mkCacheBlock 8 false true]
       = Some (v, r2).
Proof.
  apply (plru_marking_twice_restores_victim plru_four_ways 0
           [mkCacheBlock 5 false true; mkCacheBlock 6 false true;
            mkCacheBlock 7 false true; mkCacheBlock 8 false true] 1
           [0; 0; 0; -1; -1; -1; -1] (mkCacheBlock 6 false true));
    [reflexivity | unfold plru_four_ways; simpl; lia
    | unfold plru_four_ways; simpl; lia
    | reflexivity | reflexivity | reflexivity].
Defined.

(** ** Random replacement *)

(** X19. Under random replacement [get_victim_index] draws one number from
    the generator and returns its remainder by the number of ways: a way of
    the set whatever the number drawn, and the next call draws the next
    number. The blocks and their order play no part. *)
Theorem random_victim_in_range (r : CacheReplace) (set_index : Z)
    (data : list CacheBlock) :
  replacement_policy r = RANDOM ->
  1 <= ways r <= 2147483648 ->
  exists v,
    get_victim_index r set_index data = Some (v, next_rand r)
    /\ 0 <= v < ways r
    /\ v = u32 (rand_out r (rand_pos r)) mod ways r
    /\ rand_pos (next_rand r) = S (rand_pos r)
    /\ meta_data (next_rand r) = meta_data r.
Proof.
  intros Hp Hw. unfold get_victim_index, umod. rewrite Hp.
  rewrite (u32_small (ways r)) by lia.
  destruct (Z.eqb_spec (ways r) 0); [lia|]. obind.
  pose proof (Z.mod_pos_bound (u32 (rand_out r (rand_pos r))) (ways r)
                ltac:(lia)) as Hm.
  eexists. split; [reflexivity|].
  rewrite i32_small by lia. done.
Qed.

Lemma random_victim_in_range_witness :
  exists v,
    get_victim_index (fresh_replace RANDOM 1 4 (fun n => 7 + Z.of_nat n))
      0 []
    = Some (v, next_rand (fresh_replace RANDOM 1 4
                            (fun n => 7 + Z.of_nat n)))
    /\ 0 <= v < 4
    /\ v = u32 7 mod 4
    /\ rand_pos (next_rand (fresh_replace RANDOM 1 4
                              (fun n => 7 + Z.of_nat n))) = 1%nat
    /\ meta_data (next_rand (fresh_replace RANDOM 1 4
                               (fun n => 7 + Z.of_nat n))) = [].
Proof.
  apply (random_victim_in_range
           (fresh_replace RANDOM 1 4 (fun n => 7 + Z.of_nat n)) 0 []);
    [reflexivity | simpl; lia].
Defined.

(** ** The way an associative access resolves to, and the order it leaves *)

Lemma delete_insert_same {A} (l : list A) (k : nat) (x : A) :
  delete k (<[k := x]> l) = delete k l.
Proof.
  revert k. induction l as [|y l IH]; intros [|k]; simpl; try done.
  by rewrite IH.
Qed.

Lemma reorder_lru_back (l : list CacheBlock) (k : nat) (b nb : CacheBlock) :
  l !! k = Some b -> reorder LRU k (<[k := nb]> l) = delete k l ++ [nb].
Proof.
  intros Hk. unfold reorder.
  destruct (decide (LRU = LRU)) as [_|]; [|done].
  rewrite list_lookup_insert_eq by (by eapply lookup_lt_Some).
  by rewrite delete_insert_same.
Qed.

Lemma reorder_other policy (l : list CacheBlock) (k : nat) :
  policy <> LRU -> reorder policy k l = l.
Proof. intros Hp. unfold reorder. by destruct (decide (policy = LRU)). Qed.

(** One access of an associative cache, with the way it resolves to and
    the order of the ways it leaves. *)
Lemma assoc_access_ordered c op address p :
  wf c -> policy_of c = Some p ->
  exists c' r t si blocks (k : nat) b nb,
    access c (op, address) = Some c'
    /\ policy_of c' = Some p
    /\ repl_of c = Some r
    /\ addr_tag_of c address = Some t
    /\ set_index_of c address = Some si
    /\ vec_get (cache_sets c) si = Some blocks
    /\ vec_get (cache_sets c') si = Some (reorder p k (<[k := nb]> blocks))
    /\ blocks !! k = Some b
    /\ ((tag b = t
         /\ (forall (j : nat) b', (j < k)%nat -> blocks !! j = Some b' ->
                                  tag b' <> t)
         /\ nb = (if is_write op then set_dirty b true else b))
        \/ (Forall (fun b => tag b <> t) blocks
            /\ valid b = false
            /\ (forall (j : nat) b', (j < k)%nat -> blocks !! j = Some b' ->
                                     valid b' = true)
            /\ nb = mkCacheBlock t (is_write op || dirty b) true)
        \/ (Forall (fun b => valid b = true /\ tag b <> t) blocks
            /\ (exists r1,
                   get_victim_index r si blocks = Some (Z.of_nat k, r1))
            /\ nb = mkCacheBlock t (is_write op) true)).
Proof.
  intros [Hbase Hwf] Hp. destruct c as [c|c|c]; [done| |].
  - (* fully associative *)
    simpl in Hbase, Hwf, Hp. injection Hp as <-.
    destruct Hbase as (Hlb & Hib & Hsum).
    set (base := FullyAssocCache.base c) in *.
    destruct (ushr_total address (line_bits base + index_bits base))
      as [t Ht]; [lia|].
    destruct (ushr_total address (line_bits base)) as [ba Hba]; [lia|].
    pose proof (ushr_range _ _ _ Ht) as Htr.
    destruct (assoc_access_cases (is_write op) (access_info base)
                (accessed_blocks base) (FullyAssocCache.cache_repl c) 0
                (FullyAssocCache.cache_blocks c) t (u32 (i32 ba)) 1 _
                Hwf eq_refl ltac:(lia))
      as (ai' & repl' & k & b & nb & kind & vd & Hrun & Hwf' & Hp' & Hk
          & Hcount & Hcases).
    eexists _, (FullyAssocCache.cache_repl c), t, 0,
      (FullyAssocCache.cache_blocks c), k, b, nb.
    split.
    { unfold access. destruct op; simpl in Hrun |- *.
      - rewrite FullyAssocCache_read_eq. fold base. cbv zeta.
        rewrite Ht, Hba. obind. rewrite Hrun. obind. done.
      - rewrite FullyAssocCache_write_eq. fold base. cbv zeta.
        rewrite Ht, Hba. obind. rewrite Hrun. obind. done. }
    split; [simpl; by rewrite Hp'|]. split; [done|].
    split.
    { unfold addr_tag_of; simpl; fold base. rewrite Ht. obind.
      by rewrite u32_i32_small. }
    split; [unfold set_index_of; simpl; fold base; by rewrite Hba|].
    split; [done|]. split; [done|]. split; [done|].
    destruct Hcases as
      [(Htag & Hfirst & -> & _ & _)
      |[(Hall & Hv & Hfirst & -> & _ & _)|(Hall & Hvic & -> & _ & _)]];
      auto 10.
  - (* set associative *)
    simpl in Hbase, Hwf, Hp. injection Hp as <-.
    destruct Hbase as (Hlb & Hib & Hsum).
    destruct Hwf as (Hns & Hlen & Hsets & Hrepl).
    set (base := SetAssocCache.base c) in *.
    destruct (ushr_total address (line_bits base)) as [ba Hba]; [lia|].
    destruct (umod_total ba (SetAssocCache.num_sets c) Hns)
      as (si & Hsi & Hsir & Hsi32).
    destruct (ushr_total address (line_bits base + index_bits base))
      as [t Ht]; [lia|].
    destruct (vec_get_in_range (SetAssocCache.cache_blocks c) si)
      as [blocks Hblocks]; [lia|].
    pose proof Hblocks as Hbl. rewrite vec_get_lookup in Hbl by lia.
    apply (Forall_lookup_1 _ _ _ _ Hsets) in Hbl.
    destruct (assoc_access_cases (is_write op) (access_info base)
                (accessed_blocks base) (SetAssocCache.cache_repl c) si
                blocks (u32 (i32 t)) (u32 (i32 ba)) _ _ Hrepl Hbl ltac:(lia))
      as (ai' & repl' & k & b & nb & kind & vd & Hrun & Hwf' & Hp' & Hk
          & Hcount & Hcases).
    eexists _, (SetAssocCache.cache_repl c), (u32 (i32 t)), si, blocks, k,
      b, nb.
    split.
    { unfold access. destruct op; simpl in Hrun |- *.
      - rewrite SetAssocCache_read_eq. fold base. cbv zeta.
        rewrite Hba. obind. rewrite Hsi. obind. rewrite Ht. obind.
        rewrite Hsi32, Hblocks. obind. rewrite (u32_small si) by lia.
        rewrite Hrun. obind. rewrite vec_set_in_range by lia. done.
      - rewrite SetAssocCache_write_eq. fold base. cbv zeta.
        rewrite Hba. obind. rewrite Hsi. obind. rewrite Ht. obind.
        rewrite Hsi32, Hblocks. obind. rewrite (u32_small si) by lia.
        rewrite Hrun. obind. rewrite vec_set_in_range by lia. done. }
    split; [simpl; by rewrite Hp'|]. split; [done|].
    split; [unfold addr_tag_of; simpl; fold base; by rewrite Ht|].
    split.
    { unfold set_index_of; simpl; fold base. rewrite Hba. obind.
      rewrite Hsi. simpl. by rewrite Hsi32. }
    split; [done|].
    split; [simpl; apply vec_get_insert_eq; lia|]. split; [done|].
    destruct Hcases as
      [(Htag & Hfirst & -> & _ & _)
      |[(Hall & Hv & Hfirst & -> & _ & _)|(Hall & Hvic & -> & _ & _)]];
      auto 10.
Qed.

(** X20. An access of an associative cache [main] built and drove
    resolves to the lowest way that holds the tag, whether that way is
    valid or not; when no way holds the tag, to the lowest invalid way; and
    when every way is valid, to the way [get_victim_index] returns. *)
Theorem associative_access_picks_lowest_way (c : AnyCache) (op : Operation)
    (address : Z) (p : CacheReplacement_t) :
  reachable c -> policy_of c = Some p ->
  exists c' r t si blocks (k : nat) b nb,
    access c (op, address) = Some c'
    /\ repl_of c = Some r
    /\ addr_tag_of c address = Some t
    /\ set_index_of c address = Some si
    /\ vec_get (cache_sets c) si = Some blocks
    /\ vec_get (cache_sets c') si = Some (reorder p k (<[k := nb]> blocks))
    /\ blocks !! k = Some b
    /\ ((tag b = t
         /\ (forall (j : nat) b', (j < k)%nat -> blocks !! j = Some b' ->
                                  tag b' <> t)
         /\ nb = (if is_write op then set_dirty b true else b))
        \/ (Forall (fun b => tag b <> t) blocks
            /\ valid b = false
            /\ (forall (j : nat) b', (j < k)%nat -> blocks !! j = Some b' ->
                                     valid b' = true)
            /\ nb = mkCacheBlock t (is_write op || dirty b) true)
        \/ (Forall (fun b => valid b = true /\ tag b <> t) blocks
            /\ (exists r1,
                   get_victim_index r si blocks = Some (Z.of_nat k, r1))
            /\ nb = mkCacheBlock t (is_write op) true)).
Proof.
  intros Hwf%reachable_wf Hp.
  destruct (assoc_access_ordered c op address p Hwf Hp)
    as (c' & r & t & si & blocks & k & b & nb & H).
  exists c', r, t, si, blocks, k, b, nb. tauto.
Qed.

Lemma associative_access_picks_lowest_way_witness :
  exists c' r t si blocks (k : nat) b nb,
    access sa_two_sets (Write, 64) = Some c'
    /\ repl_of sa_two_sets = Some r
    /\ addr_tag_of sa_two_sets 64 = Some t
    /\ set_index_of sa_two_sets 64 = Some si
    /\ vec_get (cache_sets sa_two_sets) si = Some blocks
    /\ vec_get (cache_sets c') si
       = Some (reorder PSEUDO_LRU k (<[k := nb]> blocks))
    /\ blocks !! k = Some b
    /\ ((tag b = t
         /\ (forall (j : nat) b', (j < k)%nat -> blocks !! j = Some b' ->
                                  tag b' <> t)
         /\ nb = (if is_write Write then set_dirty b true else b))
        \/ (Forall (fun b => tag b <> t) blocks
            /\ valid b = false
            /\ (forall (j : nat) b', (j < k)%nat -> blocks !! j = Some b' ->
                                     valid b' = true)
            /\ nb = mkCacheBlock t (is_write Write || dirty b) true)
        \/ (Forall (fun b => valid b = true /\ tag b <> t) blocks
            /\ (exists r1,
                   get_victim_index r si blocks = Some (Z.of_nat k, r1))
            /\ nb = mkCacheBlock t (is_write Write) true)).
Proof.
  apply (associative_access_picks_lowest_way sa_two_sets Write 64 PSEUDO_LRU).
  - apply (sa_two_sets_reachable []). reflexivity.
  - reflexivity.
Defined.

(** X21. Under LRU an access of an associative cache [main] built and
    drove leaves the way it resolved to at the back of its set and the
    other ways in front, in the order they had; the block at the back
    holds the tag of the address and is dirty after a write. When the
    access needs an eviction, the way taken is the front one. *)
Theorem lru_access_moves_block_to_back (c : AnyCache) (op : Operation)
    (address : Z) :
  reachable c -> policy_of c = Some LRU ->
  exists c' t si blocks (k : nat) nb,
    access c (op, address) = Some c'
    /\ policy_of c' = Some LRU
    /\ addr_tag_of c address = Some t
    /\ set_index_of c address = Some si
    /\ vec_get (cache_sets c) si = Some blocks
    /\ (k < length blocks)%nat
    /\ vec_get (cache_sets c') si = Some (delete k blocks ++ [nb])
    /\ tag nb = t
    /\ (is_write op = true -> dirty nb = true)
    /\ (eviction_required c address -> k = 0%nat).
Proof.
  intros Hwf%reachable_wf Hp.
  destruct (assoc_access_ordered c op address LRU Hwf Hp)
    as (c' & r & t & si & blocks & k & b & nb & Hacc & Hp' & Hr & Ht & Hsi
        & Hblocks & Hblocks' & Hk & Hcases).
  exists c', t, si, blocks, k, nb. repeat (split; [done|]).
  split; [by eapply lookup_lt_Some|].
  split; [by rewrite Hblocks', (reorder_lru_back _ _ b)|].
  assert (Hpr : replacement_policy r = LRU).
  { destruct c as [c|c|c]; simpl in Hp, Hr; congruence. }
  destruct Hcases as
    [(Htag & _ & ->)|[(Hall & Hv & _ & ->)|(Hall & (r1 & Hvic) & ->)]].
  - split; [by destruct (is_write op)|]. split; [by destruct (is_write op)|].
    intros (blocks0 & t0 & Htarget & Ht0 & Hev).
    unfold target_set in Htarget. rewrite Hsi in Htarget. simpl in Htarget.
    assert (blocks0 = blocks) by congruence.
    assert (t0 = t) by congruence. subst.
    apply (Forall_lookup_1 _ _ _ _ Hev) in Hk. by destruct Hk.
  - split; [done|]. split; [simpl; by intros ->|].
    intros (blocks0 & t0 & Htarget & Ht0 & Hev).
    unfold target_set in Htarget. rewrite Hsi in Htarget. simpl in Htarget.
    assert (blocks0 = blocks) by congruence. subst.
    apply (Forall_lookup_1 _ _ _ _ Hev) in Hk. destruct Hk. congruence.
  - split; [done|]. split; [done|]. intros _.
    apply get_victim_index_lru in Hvic as [Hz _]; [lia|done].
Qed.

Lemma lru_access_moves_block_to_back_witness :
  exists c' t si blocks (k : nat) nb,
    access fa_two_ways (Write, 64) = Some c'
    /\ policy_of c' = Some LRU
    /\ addr_tag_of fa_two_ways 64 = Some t
    /\ set_index_of fa_two_ways 64 = Some si
    /\ vec_get (cache_sets fa_two_ways) si = Some blocks
    /\ (k < length blocks)%nat
    /\ vec_get (cache_sets c') si = Some (delete k blocks ++ [nb])
    /\ tag nb = t
    /\ (is_write Write = true -> dirty nb = true)
    /\ (eviction_required fa_two_ways 64 -> k = 0%nat).
Proof.
  apply (lru_access_moves_block_to_back fa_two_ways Write 64).
  - exists 128, 64, FULLY_ASSOCIATIVE, LRU, 0, 0, pattern_memory,
      constant_rand, empty_storage, fa_two_ways, [].
    split; [reflexivity|]. split; [vm_compute; discriminate|reflexivity].
  - reflexivity.
Defined.

(** X22. Only LRU reorders a set: under random and pseudo-LRU replacement
    an access of an associative cache [main] built and drove leaves every
    way of its set in place and rewrites the one it resolved to. *)
Theorem other_policies_keep_ways_in_place (c : AnyCache) (op : Operation)
    (address : Z) (p : CacheReplacement_t) :
  reachable c -> policy_of c = Some p -> p <> LRU ->
  exists c' t si blocks (k : nat) nb,
    access c (op, address) = Some c'
    /\ policy_of c' = Some p
    /\ addr_tag_of c address = Some t
    /\ set_index_of c address = Some si
    /\ vec_get (cache_sets c) si = Some blocks
    /\ (k < length blocks)%nat
    /\ vec_get (cache_sets c') si = Some (<[k := nb]> blocks)
    /\ tag nb = t
    /\ (is_write op = true -> dirty nb = true).
Proof.
  intros Hwf%reachable_wf Hp Hne.
  destruct (assoc_access_ordered c op address p Hwf Hp)
    as (c' & r & t & si & blocks & k & b & nb & Hacc & Hp' & Hr & Ht & Hsi
        & Hblocks & Hblocks' & Hk & Hcases).
  exists c', t, si, blocks, k, nb. repeat (split; [done|]).
  split; [by eapply lookup_lt_Some|].
  split; [by rewrite Hblocks', reorder_other|].
  destruct Hcases as
    [(Htag & _ & ->)|[(Hall & Hv & _ & ->)|(Hall & _ & ->)]].
  - split; by destruct (is_write op).
  - split; [done|]. simpl. by intros ->.
  - done.
Qed.

Lemma other_policies_keep_ways_in_place_witness :
  exists c' t si blocks (k : nat) nb,
    access sa_two_sets (Write, 64) = Some c'
    /\ policy_of c' = Some PSEUDO_LRU
    /\ addr_tag_of sa_two_sets 64 = Some t
    /\ set_index_of sa_two_sets 64 = Some si
    /\ vec_get (cache_sets sa_two_sets) si = Some blocks
    /\ (k < length blocks)%nat
    /\ vec_get (cache_sets c') si = Some (<[k := nb]> blocks)
    /\ tag nb = t
    /\ (is_write Write = true -> dirty nb = true).
Proof.
  apply (other_policies_keep_ways_in_place sa_two_sets Write 64 PSEUDO_LRU).
  - apply (sa_two_sets_reachable []). reflexivity.
  - reflexivity.
  - discriminate.
Defined.

(** ** The loop over the trace file *)

Lemma drive_simulate lines :
  forall c vars, drive c vars lines = simulate c (accesses_of vars lines).
Proof.
  induction lines as [|s lines IH]; intros c vars; [done|].
  simpl. destruct (access c _) as [c'|]; [|done]. simpl. apply IH.
Qed.

Lemma length_accesses_of lines :
  forall vars, length (accesses_of vars lines) = length lines.
Proof.
  induction lines as [|s lines IH]; intros vars; [done|].
  simpl. by rewrite IH.
Qed.

(** X23. The loop over the trace file makes one access per line, whatever
    [sscanf] could read of it: on a cache [main] built the loop runs to the
    end of the file and [cache_access] is the number of lines. A line of
    which nothing was read repeats the address and the operation of the
    line before it, and every operation character other than ['r'] is a
    write. *)
Theorem every_line_is_an_access
    (cache_size block_size associativity : Z)
    (policy : CacheReplacement_t) (ulb uib : Z) (uninit_tag seeded : nat -> Z)
    (raw_empty : nat -> bool)
    (c0 : AnyCache) (vars : Z * Z) (lines : list Scanned) :
  configure cache_size block_size associativity policy ulb uib uninit_tag
    seeded raw_empty = Some c0 ->
  fits cache_size block_size associativity ->
  exists c,
    drive c0 vars lines = Some c
    /\ cache_access (stats c) = u32 (Z.of_nat (length lines))
    /\ write_access (stats c)
       = u32 (Z.of_nat (writes_of (accesses_of vars lines)))
    /\ forall before address operation after,
         lines = before ++ scanned_both address operation
                             :: scanned_nothing :: after ->
         exists c1 c2 c3,
           drive c0 vars before = Some c1
           /\ access c1 (operation_of operation, u32 address) = Some c2
           /\ access c2 (operation_of operation, u32 address) = Some c3
           /\ drive c3 (u32 address, operation) after = Some c.
Proof.
  intros Hc Hfits.
  destruct (trace_counters _ _ _ _ _ _ _ _ _ _
              (accesses_of vars lines) Hc Hfits)
    as (c & Hsim & Hca & _ & Hwa & _).
  exists c. rewrite drive_simulate. split; [done|].
  rewrite length_accesses_of in Hca. split; [done|]. split; [done|].
  intros before address operation after ->.
  revert Hsim. rewrite <- drive_simulate. clear.
  revert c0 vars. induction before as [|s before IH]; intros c0 vars Hrun.
  - simpl in Hrun.
    destruct (access c0 _) as [c2|] eqn:H2; [|done]. simpl in Hrun.
    destruct (access c2 _) as [c3|] eqn:H3; [|done]. simpl in Hrun.
    exists c0, c2, c3. done.
  - simpl in Hrun |- *.
    destruct (access c0 _) as [c1|]; [|done]. simpl in Hrun |- *.
    by apply IH.
Qed.

Lemma every_line_is_an_access_witness :
  exists c,
    drive
      (DM (DirectMappedCache.mk (mkCache 128 64 2 6 1 AccessInfo_new [])
             [mkCacheBlock 7 false false; mkCacheBlock 7 false false]))
      (0, 0) [scanned_both 64 119; scanned_nothing] = Some c
    /\ cache_access (stats c) = u32 2
    /\ write_access (stats c) = u32 2
    /\ forall before address operation after,
         [scanned_both 64 119; scanned_nothing]
         = before ++ scanned_both address operation
                       :: scanned_nothing :: after ->
         exists c1 c2 c3,
           drive
             (DM (DirectMappedCache.mk
                    (mkCache 128 64 2 6 1 AccessInfo_new [])
                    [mkCacheBlock 7 false false; mkCacheBlock 7 false false]))
             (0, 0) before = Some c1
           /\ access c1 (operation_of operation, u32 address) = Some c2
           /\ access c2 (operation_of operation, u32 address) = Some c3
           /\ drive c3 (u32 address, operation) after = Some c.
Proof.
  apply (every_line_is_an_access 128 64 1 LRU 0 0 pattern_memory
           constant_rand empty_storage
           (DM (DirectMappedCache.mk (mkCache 128 64 2 6 1 AccessInfo_new [])
                  [mkCacheBlock 7 false false; mkCacheBlock 7 false false]))
           (0, 0) [scanned_both 64 119; scanned_nothing]).
  - reflexivity.
  - vm_compute. discriminate.
Defined.

(** ** Accesses to different sets *)

Lemma counted_commute w1 k1 v1 w2 k2 v2 s s1 s2 s12 s21 :
  counted w1 k1 v1 s s1 -> counted w2 k2 v2 s1 s12 ->
  counted w2 k2 v2 s s2 -> counted w1 k1 v1 s2 s21 -> s12 = s21.
Proof.
  unfold counted.
  intros (A1 & A2 & A3 & A4 & A5 & A6 & A7 & A8 & A9 & A10)
    (B1 & B2 & B3 & B4 & B5 & B6 & B7 & B8 & B9 & B10)
    (C1 & C2 & C3 & C4 & C5 & C6 & C7 & C8 & C9 & C10)
    (D1 & D2 & D3 & D4 & D5 & D6 & D7 & D8 & D9 & D10).
  destruct s12, s21; simpl in *. subst.
  rewrite A1, A2, A3, A4, A5, A6, A7, A8, A9, A10.
  rewrite C1, C2, C3, C4, C5, C6, C7, C8, C9, C10.
  f_equal; try done; try (by destruct w1, w2); try (by destruct k1, k2);
    try (by destruct v1, v2); by destruct k1, k2, w1, w2.
Qed.

Lemma snd_is_accessed h a :
  snd (is_accessed h a) = if history_mem h a then h else h ++ [a].
Proof. unfold is_accessed. by destruct (history_mem h a). Qed.

Lemma history_mem_snoc h a x :
  history_mem (h ++ [a]) x = history_mem h x || (a =? x).
Proof.
  induction h as [|y h IH]; simpl.
  - by destruct (a =? x).
  - destruct (y =? x); [done|apply IH].
Qed.

Lemma history_mem_other h a x :
  x <> a -> history_mem (snd (is_accessed h a)) x = history_mem h x.
Proof.
  intros Hne. rewrite snd_is_accessed.
  destruct (history_mem h a); [done|].
  rewrite history_mem_snoc. destruct (Z.eqb_spec a x); [congruence|].
  by rewrite orb_false_r.
Qed.

Lemma is_accessed_commute h a b :
  a <> b ->
  snd (is_accessed (snd (is_accessed h a)) b)
  ≡ₚ snd (is_accessed (snd (is_accessed h b)) a).
Proof.
  intros Hne.
  rewrite (snd_is_accessed (snd (is_accessed h a)) b),
    (snd_is_accessed (snd (is_accessed h b)) a).
  rewrite !history_mem_other by congruence.
  rewrite !snd_is_accessed.
  destruct (history_mem h a), (history_mem h b); try done.
  rewrite <- !app_assoc. apply Permutation_app_head, perm_swap.
Qed.

(** Equal block addresses map to one set. *)
Lemma set_index_of_block c a1 a2 :
  wf_base (cache_base c) ->
  block_address_of c a1 = block_address_of c a2 ->
  set_index_of c a1 = set_index_of c a2.
Proof.
  intros (Hlb & Hib & Hsum). unfold block_address_of, set_index_of.
  destruct (ushr a1 (line_bits (cache_base c))) as [b1|] eqn:H1,
    (ushr a2 (line_bits (cache_base c))) as [b2|] eqn:H2; simpl; try done.
  apply ushr_range in H1, H2.
  rewrite !u32_i32_small by lia. by intros [= ->].
Qed.

(** Outside random replacement the victim depends on the cells of the set
    alone, and [get_victim_index] hands the policy object back. *)
Lemma get_victim_index_local r r2 si data v r1 :
  replacement_policy r <> RANDOM ->
  replacement_policy r2 = replacement_policy r -> ways r2 = ways r ->
  vec_get (meta_data r2) si = vec_get (meta_data r) si ->
  get_victim_index r si data = Some (v, r1) ->
  r1 = r /\ get_victim_index r2 si data = Some (v, r2).
Proof.
  intros Hp Hp2 Hw2 Hmeta. unfold get_victim_index.
  rewrite Hp2, Hw2, Hmeta.
  destruct (replacement_policy r); [done| |].
  - by intros [= <- <-].
  - destruct (vec_get (meta_data r) si) as [md|]; [|done]. obind.
    destruct (plru_walk _ _ _ _) as [ci|]; [|done]. obind.
    by intros [= <- <-].
Qed.

(** Outside random replacement [mark_accessed] changes the cells of the
    set alone, and in a way that depends on them alone. *)
Lemma mark_accessed_local r r2 si data k r' data' :
  replacement_policy r <> RANDOM ->
  replacement_policy r2 = replacement_policy r -> ways r2 = ways r ->
  vec_get (meta_data r2) si = vec_get (meta_data r) si ->
  mark_accessed r si data k = Some (r', data') ->
  (r' = r /\ mark_accessed r2 si data k = Some (r2, data'))
  \/ (exists md',
         r' = set_meta_data r (<[Z.to_nat si := md']> (meta_data r))
         /\ mark_accessed r2 si data k
            = Some (set_meta_data r2 (<[Z.to_nat si := md']> (meta_data r2)),
                    data')).
Proof.
  intros Hp Hp2 Hw2 Hmeta. unfold mark_accessed.
  rewrite Hp2, Hw2, Hmeta.
  destruct (replacement_policy r); [done| |].
  - destruct (decide (LRU = LRU)) as [_|]; [|done].
    destruct (decide (LRU = PSEUDO_LRU)) as [|_]; [done|].
    destruct (vec_get data k) as [b|]; [|done]. obind.
    intros [= <- <-]. by left.
  - destruct (decide (PSEUDO_LRU = LRU)) as [|_]; [done|].
    destruct (decide (PSEUDO_LRU = PSEUDO_LRU)) as [_|]; [|done].
    obind.
    destruct (vec_get data k) as [b|]; [|done]. obind.
    destruct (vec_get (meta_data r) si) as [md|] eqn:Hmd; [|done]. obind.
    destruct (vec_set md _ _) as [md1|]; [|done]. obind.
    destruct (plru_toggle _ _ _) as [md2|]; [|done]. obind.
    pose proof Hmd as Hr. apply vec_get_Some_range in Hr.
    try rewrite Hmd in Hmeta. apply vec_get_Some_range in Hmeta.
    rewrite !vec_set_in_range by done. obind.
    intros [= <- <-]. right. by exists md2.
Qed.

(** An associative access with the call of [mark_accessed] it ends on. *)
Lemma assoc_access_full w ai hist repl si blocks t ba nsets nways :
  wf_replace repl nsets nways ->
  Z.of_nat (length blocks) = nways ->
  0 <= si < nsets ->
  exists ai' repl1 repl' (k : nat) b nb kind vd,
    assoc_access w ai hist repl si blocks t ba
    = Some (ai', snd (is_accessed hist ba), repl',
            reorder (replacement_policy repl) k (<[k := nb]> blocks))
    /\ mark_accessed repl1 si (<[k := nb]> blocks) (Z.of_nat k)
       = Some (repl', reorder (replacement_policy repl) k (<[k := nb]> blocks))
    /\ (replacement_policy repl <> RANDOM -> repl1 = repl)
    /\ wf_replace repl' nsets nways
    /\ replacement_policy repl' = replacement_policy repl
    /\ blocks !! k = Some b
    /\ counted w kind vd ai ai'
    /\ resolves w (history_mem hist ba) t blocks
         (fun k => exists r1,
              get_victim_index repl si blocks = Some (Z.of_nat k, r1))
         k b nb kind vd.
Proof.
  intros Hwf Hlen Hsi. rewrite assoc_access_unfold.
  set (prev := history_mem hist ba).
  cbv zeta.
  set (ai0 := if negb prev then _ else _).
  assert (Hfr := find_or_replace_cases
                   (if w then inc_write_misses else inc_read_misses)
                   ai0 repl si blocks t prev nsets nways Hwf Hlen Hsi).
  destruct Hfr as (ai1 & repl1 & k & b & nb0 & Hfr & Hwf1 & Hp1 & Hk & Hcases).
  apply lookup_lt_Some in Hk as Hklt.
  set (nb := if w then set_dirty nb0 true else nb0).
  assert (Hdirty :
            (if w then
               block ← vec_get (<[k := nb0]> blocks) (Z.of_nat k);
               vec_set (<[k := nb0]> blocks) (Z.of_nat k) (set_dirty block true)
             else Some (<[k := nb0]> blocks))
            = Some (<[k := nb]> blocks)).
  { subst nb. destruct w; [|done].
    rewrite vec_get_lookup, Nat2Z.id, list_lookup_insert_eq by lia. obind.
    rewrite vec_set_in_range, Nat2Z.id by (rewrite length_insert; lia).
    by rewrite list_insert_insert_eq. }
  destruct (mark_accessed_total repl1 nsets nways si (<[k := nb]> blocks) k)
    as (repl' & Hmark & Hwf' & Hp'); [done|by rewrite length_insert|lia|done|].
  rewrite Hfr. obind. rewrite Hdirty. obind. rewrite Hmark. obind.
  rewrite Hp1 in Hmark |- *.
  exists ai1, repl1, repl', k, b, nb.
  destruct Hcases as
    [(Ht & Hfirst & -> & -> & ->)
    |[(Hall & Hv & Hfirst & -> & -> & ->)|(Hall & Hvic & -> & ->)]].
  - exists (if prev then NoMiss else Compulsory), false.
    split; [done|]. split; [done|]. split; [done|]. split; [done|].
    split; [congruence|]. split; [done|].
    split; [|left; done].
    subst ai0. unfold counted. destruct w, prev; simpl; done.
  - exists (if prev then NoMiss else Compulsory), false.
    split; [done|]. split; [done|]. split; [done|]. split; [done|].
    split; [congruence|]. split; [done|].
    split; [|right; left; repeat split; try done; subst nb; by destruct w].
    subst ai0. unfold counted. destruct w, prev; simpl; done.
  - exists (if prev then Capacity else Compulsory), (dirty b).
    split; [done|]. split; [done|].
    split.
    { intros Hp.
      by destruct (get_victim_index_local repl repl si blocks _ _ Hp
                     eq_refl eq_refl eq_refl Hvic). }
    split; [done|]. split; [congruence|]. split; [done|].
    split; [|right; right; repeat split; try done;
             [by exists repl1 | subst nb; by destruct w]].
    subst ai0. unfold counted. destruct w, prev, (dirty b); simpl; done.
Qed.

(** The search and the branches after it leave no choice. *)
Lemma resolves_unique w prev t blocks (victim victim2 : nat -> Prop)
    k b nb kind vd k2 b2 nb2 kind2 vd2 :
  (forall x y, victim x -> victim2 y -> x = y) ->
  blocks !! k = Some b -> blocks !! k2 = Some b2 ->
  resolves w prev t blocks victim k b nb kind vd ->
  resolves w prev t blocks victim2 k2 b2 nb2 kind2 vd2 ->
  k2 = k /\ nb2 = nb /\ kind2 = kind /\ vd2 = vd.
Proof.
  intros Hvic Hk Hk2 H1 H2.
  assert (Hsame : k2 = k -> b2 = b) by (intros ->; congruence).
  destruct H1 as
    [(Ht & Hfirst & -> & -> & ->)
    |[(Hall & Hv & Hfirst & -> & -> & ->)|(Hall & Hv & -> & -> & ->)]],
    H2 as
    [(Ht2 & Hfirst2 & -> & -> & ->)
    |[(Hall2 & Hv2 & Hfirst2 & -> & -> & ->)|(Hall2 & Hv2 & -> & -> & ->)]].
  - assert (k2 = k).
    { destruct (Nat.lt_trichotomy k k2) as [Hlt|[Heq|Hgt]]; [|done|].
      - by destruct (Hfirst2 k b Hlt Hk).
      - by destruct (Hfirst k2 b2 Hgt Hk2). }
    rewrite (Hsame H). done.
  - by destruct (Forall_lookup_1 _ _ _ _ Hall2 Hk).
  - by destruct (Forall_lookup_1 _ _ _ _ Hall2 Hk) as [_ ?].
  - by destruct (Forall_lookup_1 _ _ _ _ Hall Hk2).
  - assert (k2 = k).
    { destruct (Nat.lt_trichotomy k k2) as [Hlt|[Heq|Hgt]]; [|done|].
      - specialize (Hfirst2 k b Hlt Hk). congruence.
      - specialize (Hfirst k2 b2 Hgt Hk2). congruence. }
    rewrite (Hsame H). done.
  - destruct (Forall_lookup_1 _ _ _ _ Hall2 Hk) as [? _]. congruence.
  - by destruct (Forall_lookup_1 _ _ _ _ Hall Hk2) as [_ ?].
  - destruct (Forall_lookup_1 _ _ _ _ Hall Hk2) as [? _]. congruence.
  - assert (k2 = k) by (symmetry; by apply Hvic).
    rewrite (Hsame H). done.
Qed.

(** Two runs of an associative access on the same ways, from policy
    objects that agree on the cells of the set and histories that agree on
    the block address: the ways, the counting and the cells come out the
    same. *)
Lemma assoc_two_runs w ai ai2 hist hist2 r r2 si blocks t ba nsets nways :
  wf_replace r nsets nways -> wf_replace r2 nsets nways ->
  Z.of_nat (length blocks) = nways -> 0 <= si < nsets ->
  replacement_policy r <> RANDOM ->
  replacement_policy r2 = replacement_policy r ->
  vec_get (meta_data r2) si = vec_get (meta_data r) si ->
  history_mem hist2 ba = history_mem hist ba ->
  exists ai' ai2' r' r2' S kind vd md,
    assoc_access w ai hist r si blocks t ba
    = Some (ai', snd (is_accessed hist ba), r', S)
    /\ assoc_access w ai2 hist2 r2 si blocks t ba
       = Some (ai2', snd (is_accessed hist2 ba), r2', S)
    /\ counted w kind vd ai ai' /\ counted w kind vd ai2 ai2'
    /\ Z.of_nat (length S) = nways
    /\ wf_replace r' nsets nways /\ wf_replace r2' nsets nways
    /\ replacement_policy r' = replacement_policy r
    /\ replacement_policy r2' = replacement_policy r
    /\ repl_step si (Some r) (Some r') md
    /\ repl_step si (Some r2) (Some r2') md.
Proof.
  intros Hwf Hwf2 Hlen Hsi Hp Hp2 Hmeta Hhist.
  assert (Hw2 : ways r2 = ways r).
  { destruct Hwf as (-> & _), Hwf2 as (-> & _). done. }
  destruct (assoc_access_full w ai hist r si blocks t ba nsets nways
              Hwf Hlen Hsi)
    as (ai' & r1 & r' & k & b & nb & kind & vd & Hrun & Hmark & Hr1 & Hwf'
        & Hp' & Hk & Hcount & Hres).
  destruct (assoc_access_full w ai2 hist2 r2 si blocks t ba nsets nways
              Hwf2 Hlen Hsi)
    as (ai2' & r12 & r2' & k2 & b2 & nb2 & kind2 & vd2 & Hrun2 & Hmark2
        & Hr12 & Hwf2' & Hp2' & Hk2 & Hcount2 & Hres2).
  rewrite Hhist in Hres2.
  assert (Hvic : forall x y,
             (exists r1, get_victim_index r si blocks = Some (Z.of_nat x, r1)) ->
             (exists r1, get_victim_index r2 si blocks = Some (Z.of_nat y, r1)) ->
             x = y).
  { intros x y (rx & Hx) (ry & Hy).
    destruct (get_victim_index_local r r2 si blocks _ _ Hp Hp2 Hw2 Hmeta Hx)
      as [_ Hx2].
    rewrite Hx2 in Hy. injection Hy as Hxy _. lia. }
  destruct (resolves_unique w (history_mem hist ba) t blocks _ _
              k b nb kind vd k2 b2 nb2 kind2 vd2 Hvic Hk Hk2 Hres Hres2)
    as (-> & -> & -> & ->).
  rewrite (Hr1 Hp) in Hmark. rewrite Hr12 in Hmark2 by congruence.
  rewrite Hp2 in Hrun2, Hmark2.
  exists ai', ai2', r', r2',
    (reorder (replacement_policy r) k (<[k := nb]> blocks)), kind, vd.
  destruct (mark_accessed_local r r2 si _ _ _ _ Hp Hp2 Hw2 Hmeta Hmark)
    as [[-> Hm2]|(md' & -> & Hm2)];
    rewrite Hm2 in Hmark2; injection Hmark2 as <-;
    [exists None|exists (Some md')];
    (split; [done|]); (split; [done|]); (split; [done|]);
    (split; [done|]);
    (split; [by rewrite length_reorder, length_insert|]);
    (split; [done|]); (split; [done|]); (split; [done|]);
    (split; [congruence|]); simpl; split; eauto.
Qed.

Lemma vec_get_fmap {A B} (f : A -> B) (l : list A) (i : Z) :
  vec_get (f <$> l) i = f <$> vec_get l i.
Proof. unfold vec_get. destruct (0 <=? i); [apply list_lookup_fmap|done]. Qed.

Lemma alike_refl c : alike c c.
Proof.
  unfold alike. destruct c; simpl; repeat split; done.
Qed.

(** Two runs of one access, on caches of one geometry that agree on the
    set of the address, on its cells and on whether the history holds the
    block address. *)
Lemma access_two_runs c d op address si ba :
  wf c -> wf d -> alike c d ->
  policy_of c <> Some RANDOM ->
  set_index_of c address = Some si ->
  block_address_of c address = Some ba ->
  vec_get (cache_sets d) si = vec_get (cache_sets c) si ->
  cells_of d si = cells_of c si ->
  history_mem (history d) ba = history_mem (history c) ba ->
  exists c' d' S kind vd md,
    access c (op, address) = Some c' /\ access d (op, address) = Some d'
    /\ alike c c'
    /\ policy_of c' = policy_of c
    /\ cache_sets c' = <[Z.to_nat si := S]> (cache_sets c)
    /\ cache_sets d' = <[Z.to_nat si := S]> (cache_sets d)
    /\ counted (is_write op) kind vd (stats c) (stats c')
    /\ counted (is_write op) kind vd (stats d) (stats d')
    /\ history c' = snd (is_accessed (history c) ba)
    /\ history d' = snd (is_accessed (history d) ba)
    /\ repl_step si (repl_of c) (repl_of c') md
    /\ repl_step si (repl_of d) (repl_of d') md.
Proof.
  intros Hwfc Hwfd (Hkind & Hlb & Hib & Hnb & Hlen & Hrepl) Hpol Hsi Hba
    Hsets Hcells Hhist.
  destruct c as [c|c|c], d as [d|d|d]; try done;
    unfold history, stats in *; simpl in *.
  - (* direct-mapped *)
    destruct (dm_access c op address Hwfc)
      as (ai' & si1 & ba1 & t & b & Hsi1 & Hba1 & Ht & Hb & Hacc & Hcount).
    destruct (dm_access d op address Hwfd)
      as (ai2' & si2 & ba2 & t2 & b2 & Hsi2 & Hba2 & Ht2 & Hb2 & Hacc2
          & Hcount2).
    assert (si1 = si) by congruence. assert (ba1 = ba) by congruence.
    subst si1 ba1.
    assert (si2 = si /\ ba2 = ba /\ t2 = t) as (-> & -> & ->).
    { revert Hsi2 Hba2 Ht2 Hsi Hba Ht.
      unfold set_index_of, block_address_of, addr_tag_of. simpl.
      rewrite Hlb, Hib, Hnb. intros. repeat split; congruence. }
    assert (b2 = b) as ->.
    { rewrite !vec_get_fmap, Hb, Hb2 in Hsets. simpl in Hsets. congruence. }
    rewrite Hhist in Hcount2.
    eexists _, _, [_], _, _, None.
    split; [exact Hacc|]. split; [exact Hacc2|].
    split.
    { unfold alike. simpl.
      rewrite !length_fmap, length_insert. repeat split; done. }
    split; [done|].
    split; [simpl; by rewrite list_fmap_insert|].
    split; [simpl; by rewrite list_fmap_insert|].
    split; [exact Hcount|]. split; [exact Hcount2|].
    repeat split; done.
  - (* fully associative *)
    destruct Hwfc as [Hbase Hwf], Hwfd as [Hbase2 Hwf2].
    simpl in Hbase, Hwf, Hbase2, Hwf2.
    destruct Hbase as (Hlb0 & Hib0 & Hsum). destruct Hrepl as [Hp2 Hw2].
    set (base := FullyAssocCache.base c) in *.
    set (base2 := FullyAssocCache.base d) in *.
    destruct (ushr_total address (line_bits base + index_bits base))
      as [t Ht]; [lia|].
    destruct (ushr_total address (line_bits base)) as [ba0 Hba0]; [lia|].
    assert (si = 0) as ->.
    { revert Hsi. unfold set_index_of. simpl. fold base. rewrite Hba0.
      simpl. congruence. }
    assert (ba = u32 (i32 ba0)) as ->.
    { revert Hba. unfold block_address_of. simpl. fold base. rewrite Hba0.
      simpl. congruence. }
    assert (Hblocks : FullyAssocCache.cache_blocks d
                      = FullyAssocCache.cache_blocks c).
    { unfold vec_get in Hsets. simpl in Hsets. congruence. }
    rewrite Hblocks in Hwf2.
    unfold cells_of in Hcells. simpl in Hcells.
    destruct (assoc_two_runs (is_write op) (access_info base)
                (access_info base2) (accessed_blocks base)
                (accessed_blocks base2) (FullyAssocCache.cache_repl c)
                (FullyAssocCache.cache_repl d) 0
                (FullyAssocCache.cache_blocks c) t (u32 (i32 ba0)) 1 _
                Hwf Hwf2 eq_refl ltac:(lia))
      as (ai' & ai2' & r' & r2' & S & kind & vd & md & Hrun & Hrun2 & Hcount
          & Hcount2 & HlenS & Hwf' & Hwf2' & Hp' & Hp2' & Hstep & Hstep2);
      [congruence|done|done|done|].
    eexists _, _, S, kind, vd, md.
    split.
    { unfold access. destruct op; simpl in Hrun |- *.
      - rewrite FullyAssocCache_read_eq. fold base. cbv zeta.
        rewrite Ht, Hba0. obind. rewrite Hrun. obind. reflexivity.
      - rewrite FullyAssocCache_write_eq. fold base. cbv zeta.
        rewrite Ht, Hba0. obind. rewrite Hrun. obind. reflexivity. }
    split.
    { unfold access. destruct op; simpl in Hrun2 |- *.
      - rewrite FullyAssocCache_read_eq. fold base2. cbv zeta.
        rewrite Hlb, Hib, Ht, Hba0, Hblocks. obind. rewrite Hrun2. obind.
        reflexivity.
      - rewrite FullyAssocCache_write_eq. fold base2. cbv zeta.
        rewrite Hlb, Hib, Ht, Hba0, Hblocks. obind. rewrite Hrun2. obind.
        reflexivity. }
    split.
    { unfold alike. simpl. repeat split; try done.
      destruct Hwf as (-> & _), Hwf' as (-> & _). done. }
    split; [simpl; congruence|].
    split; [done|]. split; [done|].
    split; [exact Hcount|]. split; [exact Hcount2|].
    split; [done|]. split; [done|]. split; [exact Hstep|exact Hstep2].
  - (* set associative *)
    destruct Hwfc as [Hbase Hwf], Hwfd as [Hbase2 Hwf2].
    simpl in Hbase, Hwf, Hbase2, Hwf2.
    destruct Hbase as (Hlb0 & Hib0 & Hsum). destruct Hrepl as [Hp2 Hw2].
    destruct Hwf as (Hns & Hlenc & Hall & Hwr).
    destruct Hwf2 as (Hns2 & Hlend & Hall2 & Hwr2).
    set (base := SetAssocCache.base c) in *.
    set (base2 := SetAssocCache.base d) in *.
    assert (Hnsets : SetAssocCache.num_sets d = SetAssocCache.num_sets c)
      by lia.
    destruct (ushr_total address (line_bits base)) as [ba0 Hba0]; [lia|].
    destruct (umod_total ba0 (SetAssocCache.num_sets c) Hns)
      as (si0 & Hsi0 & Hsir & Hsi32).
    destruct (ushr_total address (line_bits base + index_bits base))
      as [t Ht]; [lia|].
    assert (si = si0) as ->.
    { revert Hsi. unfold set_index_of. simpl. fold base. rewrite Hba0.
      obind. rewrite Hsi0. simpl. congruence. }
    assert (ba = u32 (i32 ba0)) as ->.
    { revert Hba. unfold block_address_of. simpl. fold base. rewrite Hba0.
      simpl. congruence. }
    destruct (vec_get_in_range (SetAssocCache.cache_blocks c) si0)
      as [blocks Hblocks]; [lia|].
    pose proof Hblocks as Hbl. rewrite vec_get_lookup in Hbl by lia.
    apply (Forall_lookup_1 _ _ _ _ Hall) in Hbl.
    rewrite Hblocks in Hsets.
    unfold cells_of in Hcells. simpl in Hcells.
    rewrite Hw2, Hnsets in Hwr2.
    destruct (assoc_two_runs (is_write op) (access_info base)
                (access_info base2) (accessed_blocks base)
                (accessed_blocks base2) (SetAssocCache.cache_repl c)
                (SetAssocCache.cache_repl d) si0 blocks (u32 (i32 t))
                (u32 (i32 ba0)) _ _ Hwr Hwr2 Hbl ltac:(lia))
      as (ai' & ai2' & r' & r2' & S & kind & vd & md & Hrun & Hrun2 & Hcount
          & Hcount2 & HlenS & Hwf' & Hwf2' & Hp' & Hp2' & Hstep & Hstep2);
      [congruence|done|done|done|].
    eexists _, _, S, kind, vd, md.
    split.
    { unfold access. destruct op; simpl in Hrun |- *.
      - rewrite SetAssocCache_read_eq. fold base. cbv zeta.
        rewrite Hba0. obind. rewrite Hsi0. obind. rewrite Ht. obind.
        rewrite Hsi32, Hblocks. obind. rewrite (u32_small si0) by lia.
        rewrite Hrun. obind. rewrite vec_set_in_range by lia. reflexivity.
      - rewrite SetAssocCache_write_eq. fold base. cbv zeta.
        rewrite Hba0. obind. rewrite Hsi0. obind. rewrite Ht. obind.
        rewrite Hsi32, Hblocks. obind. rewrite (u32_small si0) by lia.
        rewrite Hrun. obind. rewrite vec_set_in_range by lia. reflexivity. }
    split.
    { unfold access. destruct op; simpl in Hrun2 |- *.
      - rewrite SetAssocCache_read_eq. fold base2. cbv zeta.
        rewrite Hlb, Hib, Hnsets, Hba0. obind. rewrite Hsi0. obind.
        rewrite Ht. obind.
        rewrite Hsi32, Hsets. obind. rewrite (u32_small si0) by lia.
        rewrite Hrun2. obind. rewrite vec_set_in_range by lia. reflexivity.
      - rewrite SetAssocCache_write_eq. fold base2. cbv zeta.
        rewrite Hlb, Hib, Hnsets, Hba0. obind. rewrite Hsi0. obind.
        rewrite Ht. obind.
        rewrite Hsi32, Hsets. obind. rewrite (u32_small si0) by lia.
        rewrite Hrun2. obind. rewrite vec_set_in_range by lia. reflexivity. }
    split.
    { unfold alike. simpl. rewrite length_insert. repeat split; try done.
      by destruct Hwf' as (-> & _). }
    split; [simpl; congruence|].
    split; [done|]. split; [done|].
    split; [exact Hcount|]. split; [exact Hcount2|].
    split; [done|]. split; [done|]. split; [exact Hstep|exact Hstep2].
Qed.

Lemma cells_of_step c c' si sj md :
  repl_step si (repl_of c) (repl_of c') md ->
  0 <= si -> si <> sj ->
  cells_of c' sj = cells_of c sj.
Proof.
  intros Hstep Hsi Hne. unfold cells_of.
  destruct md as [md'|]; simpl in Hstep.
  - destruct Hstep as (r & -> & ->). simpl.
    by apply vec_get_insert_ne.
  - by rewrite Hstep.
Qed.

Lemma repl_steps_commute si1 si2 r0 r1 r2 r12 r21 md1 md2 :
  si1 <> si2 -> 0 <= si1 -> 0 <= si2 ->
  repl_step si1 r0 r1 md1 -> repl_step si2 r1 r12 md2 ->
  repl_step si2 r0 r2 md2 -> repl_step si1 r2 r21 md1 ->
  r12 = r21.
Proof.
  intros Hne H1 H2.
  destruct md1 as [m1|], md2 as [m2|]; simpl.
  - intros (r & -> & ->) (r' & [= <-] & ->) (r'' & [= <-] & ->)
      (r''' & [= <-] & ->).
    unfold set_meta_data. simpl. do 2 f_equal.
    apply list_insert_insert_ne. lia.
  - intros (r & -> & ->) -> -> (r' & [= <-] & ->). done.
  - intros -> (r & -> & ->) (r' & [= <-] & ->) ->. done.
  - by intros -> -> -> ->.
Qed.

(** X24. Outside random replacement, two accesses to different sets of a
    cache [main] built and drove can be made in either order: both orders
    run, and they leave the same blocks in the same ways of every set, the
    same counters and the same state of the replacement policy; only the
    order of the two block addresses in the history can differ. *)
Theorem accesses_to_different_sets_commute (c : AnyCache)
    (op1 op2 : Operation) (a1 a2 : Z) :
  reachable c -> policy_of c <> Some RANDOM ->
  set_index_of c a1 <> set_index_of c a2 ->
  exists c12 c21,
    simulate c [(op1, a1); (op2, a2)] = Some c12
    /\ simulate c [(op2, a2); (op1, a1)] = Some c21
    /\ cache_sets c12 = cache_sets c21
    /\ stats c12 = stats c21
    /\ repl_of c12 = repl_of c21
    /\ history c12 ≡ₚ history c21.
Proof.
  intros Hwf%reachable_wf Hpol Hne.
  destruct (access_cases c op1 a1 Hwf)
    as (c1 & ba1 & t1 & si1 & blocks1 & k1 & b1 & nb1 & kind1 & vd1 & blocks1'
        & Hacc1 & Hwf1 & _ & Hba1 & _ & Hsi1 & Hblocks1 & _).
  destruct (access_cases c op2 a2 Hwf)
    as (c2 & ba2 & t2 & si2 & blocks2 & k2 & b2 & nb2 & kind2 & vd2 & blocks2'
        & Hacc2 & Hwf2 & _ & Hba2 & _ & Hsi2 & Hblocks2 & _).
  apply vec_get_Some_range in Hblocks1, Hblocks2.
  assert (Hsne : si1 <> si2) by congruence.
  assert (Hbne : ba1 <> ba2).
  { intros ->. apply Hne. apply set_index_of_block; [apply Hwf|congruence]. }
  (* the first access alone *)
  destruct (access_two_runs c c op1 a1 si1 ba1 Hwf Hwf (alike_refl c) Hpol
              Hsi1 Hba1 eq_refl eq_refl eq_refl)
    as (c1' & _ & S1 & k1a & v1a & md1 & Hacc1' & _ & Halike1 & _ & Hsets1
        & _ & _ & _ & Hhist1 & _ & Hstep1 & _).
  assert (c1' = c1) by congruence. subst c1'.
  (* the second access, before and after the first *)
  destruct (access_two_runs c c1 op2 a2 si2 ba2 Hwf Hwf1 Halike1 Hpol
              Hsi2 Hba2)
    as (c2' & c12 & S2 & k2b & v2b & md2 & Hacc2' & Hacc12 & Halike2 & _
        & Hsets2 & Hsets12 & Hcount2 & Hcount12 & Hhist2 & Hhist12 & Hstep2
        & Hstep12).
  { rewrite Hsets1. apply vec_get_insert_ne; lia. }
  { apply (cells_of_step c c1 si1 si2 md1); done || lia. }
  { rewrite Hhist1. apply history_mem_other. congruence. }
  assert (c2' = c2) by congruence. subst c2'.
  (* the first access, before and after the second *)
  destruct (access_two_runs c c2 op1 a1 si1 ba1 Hwf Hwf2 Halike2 Hpol
              Hsi1 Hba1)
    as (c1' & c21 & S1' & k1c & v1c & md1' & Hacc1'' & Hacc21 & _ & _
        & Hsets1' & Hsets21 & Hcount1 & Hcount21 & _ & Hhist21 & Hstep1'
        & Hstep21).
  { rewrite Hsets2. apply vec_get_insert_ne; lia. }
  { apply (cells_of_step c c2 si2 si1 md2); done || lia. }
  { rewrite Hhist2. by apply history_mem_other. }
  assert (c1' = c1) by congruence. subst c1'.
  exists c12, c21.
  split; [simpl; rewrite Hacc1; obind; by rewrite Hacc12|].
  split; [simpl; rewrite Hacc2; obind; by rewrite Hacc21|].
  split.
  { rewrite Hsets12, Hsets21, Hsets2, Hsets1'.
    apply list_insert_insert_ne. lia. }
  split; [exact (counted_commute _ _ _ _ _ _ _ _ _ _ _
                   Hcount1 Hcount12 Hcount2 Hcount21)|].
  split.
  { apply (repl_steps_commute si1 si2 (repl_of c) (repl_of c1) (repl_of c2)
             _ _ md1' md2); done || lia. }
  rewrite Hhist12, Hhist21, Hhist1, Hhist2.
  by apply is_accessed_commute.
Qed.

Lemma accesses_to_different_sets_commute_witness :
  exists c12 c21,
    simulate sa_two_sets [(Write, 0); (Read, 64)] = Some c12
    /\ simulate sa_two_sets [(Read, 64); (Write, 0)] = Some c21
    /\ cache_sets c12 = cache_sets c21
    /\ stats c12 = stats c21
    /\ repl_of c12 = repl_of c21
    /\ history c12 ≡ₚ history c21.
Proof.
  apply (accesses_to_different_sets_commute sa_two_sets Write Read 0 64).
  - apply (sa_two_sets_reachable []). reflexivity.
  - discriminate.
  - vm_compute. discriminate.
Defined.

(** ** A set-associative cache of one set *)

(** [FullyAssocCache] and [SetAssocCache] repeat the same code; on a
    single set they go through the same steps. *)
Lemma single_set_step f s op address f' :
  SetAssocCache.base s = FullyAssocCache.base f ->
  SetAssocCache.cache_blocks s = [FullyAssocCache.cache_blocks f] ->
  SetAssocCache.cache_repl s = FullyAssocCache.cache_repl f ->
  SetAssocCache.num_sets s = 1 ->
  access (FA f) (op, address) = Some (FA f') ->
  exists s',
    access (SA s) (op, address) = Some (SA s')
    /\ SetAssocCache.base s' = FullyAssocCache.base f'
    /\ SetAssocCache.cache_blocks s' = [FullyAssocCache.cache_blocks f']
    /\ SetAssocCache.cache_repl s' = FullyAssocCache.cache_repl f'
    /\ SetAssocCache.num_sets s' = 1.
Proof.
  intros Hbase Hblocks Hrepl Hns. unfold access.
  destruct op; simpl.
  - rewrite FullyAssocCache_read_eq, SetAssocCache_read_eq.
    rewrite Hbase, Hblocks, Hrepl, Hns. cbv zeta.
    destruct (ushr address (line_bits _ + index_bits _)) as [t|] eqn:Ht;
      [|done].
    destruct (ushr address (line_bits _)) as [ba|]; [|done]. obind.
    apply ushr_range in Ht.
    unfold umod. change (u32 1 =? 0) with false. cbv iota.
    rewrite Z.mod_1_r. obind.
    change (i32 0) with 0. change (u32 0) with 0.
    change (vec_get [FullyAssocCache.cache_blocks f] 0)
      with (Some (FullyAssocCache.cache_blocks f)).
    obind. rewrite (u32_i32_small t) by lia.
    destruct (assoc_access _ _ _ _ _ _ _ _) as [[[[ai' hist'] r'] S]|];
      [|done].
    obind. intros [= <-]. eexists. split; [reflexivity|]. done.
  - rewrite FullyAssocCache_write_eq, SetAssocCache_write_eq.
    rewrite Hbase, Hblocks, Hrepl, Hns. cbv zeta.
    destruct (ushr address (line_bits _ + index_bits _)) as [t|] eqn:Ht;
      [|done].
    destruct (ushr address (line_bits _)) as [ba|]; [|done]. obind.
    apply ushr_range in Ht.
    unfold umod. change (u32 1 =? 0) with false. cbv iota.
    rewrite Z.mod_1_r. obind.
    change (i32 0) with 0. change (u32 0) with 0.
    change (vec_get [FullyAssocCache.cache_blocks f] 0)
      with (Some (FullyAssocCache.cache_blocks f)).
    obind. rewrite (u32_i32_small t) by lia.
    destruct (assoc_access _ _ _ _ _ _ _ _) as [[[[ai' hist'] r'] S]|];
      [|done].
    obind. intros [= <-]. eexists. split; [reflexivity|]. done.
Qed.

(** X25. A set-associative cache whose associativity is the number of
    blocks has one set, and it behaves as the fully associative cache of
    the same sizes and policy: on every trace the two classes leave the
    same blocks in the same ways, the same counters, the same history and
    the same state of the replacement policy. *)
Theorem single_set_cache_is_fully_associative
    (cache_size block_size associativity : Z)
    (policy : CacheReplacement_t) (ulb uib : Z) (uninit_tag seeded : nat -> Z)
    (raw_empty : nat -> bool)
    (fa0 sa0 : AnyCache) (trace : list (Operation * Z)) :
  configure cache_size block_size FULLY_ASSOCIATIVE policy ulb uib
    uninit_tag seeded raw_empty = Some fa0 ->
  configure cache_size block_size associativity policy ulb uib
    uninit_tag seeded raw_empty = Some sa0 ->
  valid_assoc associativity = true ->
  u32 cache_size = u32 block_size * u32 associativity ->
  exists fa sa,
    simulate fa0 trace = Some fa /\ simulate sa0 trace = Some sa
    /\ cache_sets sa = cache_sets fa
    /\ stats sa = stats fa
    /\ history sa = history fa
    /\ repl_of sa = repl_of fa.
Proof.
  intros Hfa Hsa Hassoc Hsize.
  pose proof Hassoc as (j & Hj & Hj2)%valid_assoc_spec.
  pose proof (pow2_range j ltac:(lia)) as Hpj.
  assert (Hfits0 : fits cache_size block_size FULLY_ASSOCIATIVE).
  { unfold fits, FULLY_ASSOCIATIVE. change (Z.max 1 (u32 0)) with 1.
    pose proof (u32_range block_size). rewrite Hsize, Hj2. nia. }
  assert (Hfits : fits cache_size block_size associativity).
  { unfold fits. rewrite Hsize, Hj2, Z.max_r by lia. lia. }
  destruct (configure_geometry _ _ _ _ _ _ _ _ _ _ Hfa Hfits0)
    as (a & b & Hb & Ha & Hcs & Hbs & Hbase & Horg).
  destruct (configure_geometry _ _ _ _ _ _ _ _ _ _ Hsa Hfits)
    as (a' & b' & Hb' & Ha' & Hcs' & Hbs' & Hbase' & Horg').
  assert (a' = a) as ->.
  { apply (Z.pow_inj_r 2); lia. }
  assert (b' = b) as ->.
  { apply (Z.pow_inj_r 2); lia. }
  destruct fa0 as [?|f0|?].
  1, 3: (revert Hfa; unfold configure;
         destruct (valid_pow2 cache_size); [|done];
         destruct (valid_pow2 block_size); [|done]; simpl;
         destruct (FullyAssocCache.new _ _ _ _ _ _ _); done).
  destruct sa0 as [?|?|s0].
  1, 2: (destruct Horg' as [Hx _]; rewrite Hj2 in Hx;
         assert (2 ^ 1 <= 2 ^ j) by (apply Z.pow_le_mono_r; lia); lia).
  destruct Horg as (_ & Hfblocks & Hfrepl).
  destruct Horg' as (j' & Hj' & Hja & Hassoc' & Hns & Hsblocks & Hsrepl).
  assert (j' = j) as ->.
  { apply (Z.pow_inj_r 2); lia. }
  assert (Hab : a - b = j).
  { apply (Z.pow_inj_r 2); [lia|lia|lia|].
    assert (2 ^ a = 2 ^ b * 2 ^ j) by lia.
    assert (2 ^ a = 2 ^ b * 2 ^ (a - b)).
    { rewrite <- Z.pow_add_r by lia. f_equal. lia. }
    pose proof (pow2_range b ltac:(lia)). nia. }
  rewrite Hab in *. replace (j - j) with 0 in * by lia.
  change (2 ^ 0) with 1 in *.
  destruct (configure_wf _ _ _ _ _ _ _ _ _ _ Hfa Hfits0) as (Hwf & _ & _).
  destruct (simulate_invariant (FA f0)
              (fun done c =>
                 exists f s,
                   c = FA f /\ simulate (SA s0) done = Some (SA s)
                   /\ SetAssocCache.base s = FullyAssocCache.base f
                   /\ SetAssocCache.cache_blocks s
                      = [FullyAssocCache.cache_blocks f]
                   /\ SetAssocCache.cache_repl s = FullyAssocCache.cache_repl f
                   /\ SetAssocCache.num_sets s = 1)
              Hwf) with (trace := trace)
    as (c & Hsim & _ & _ & f & s & -> & Hsims & Hb1 & Hb2 & Hb3 & Hb4).
  - exists f0, s0. simpl in Hbase, Hbase'.
    split; [done|]. split; [done|]. split; [congruence|].
    split; [rewrite Hsblocks, Hfblocks; done|].
    split; [congruence|done].
  - intros done c op address c' Hwfc _
      (f & s & -> & Hsims & Hb1 & Hb2 & Hb3 & Hb4) Hacc.
    destruct c' as [?|f'|?].
    1, 3: (unfold access in Hacc; destruct op;
           [destruct (FullyAssocCache.read f address)
           |destruct (FullyAssocCache.write f address)]; done).
    destruct (single_set_step f s op address f' Hb1 Hb2 Hb3 Hb4 Hacc)
      as (s' & Haccs & Hs1 & Hs2 & Hs3 & Hs4).
    exists f', s'. split; [done|].
    split; [|done].
    rewrite simulate_app, Hsims. obind. cbn [simulate]. by rewrite Haccs.
  - exists (FA f), (SA s). split; [done|]. split; [done|].
    unfold stats, history. simpl. rewrite Hb1, Hb2, Hb3. done.
Qed.

Lemma single_set_cache_is_fully_associative_witness :
  exists fa sa,
    simulate fa_two_ways [(Write, 0); (Read, 64); (Read, 128)] = Some fa
    /\ simulate
         (SA (SetAssocCache.mk (mkCache 128 64 2 6 1 AccessInfo_new [])
                [[mkCacheBlock 7 false false; mkCacheBlock 7 false false]]
                1 2 (mkCacheReplace 1 2 LRU [] constant_rand O)))
         [(Write, 0); (Read, 64); (Read, 128)] = Some sa
    /\ cache_sets sa = cache_sets fa
    /\ stats sa = stats fa
    /\ history sa = history fa
    /\ repl_of sa = repl_of fa.
Proof.
  apply (single_set_cache_is_fully_associative 128 64 2 LRU 0 0
           pattern_memory constant_rand empty_storage).
  - reflexivity.
  - reflexivity.
  - reflexivity.
  - reflexivity.
Defined.

(** ** Fresh memory that holds none of the tags of the trace *)

(** Induction along the driver's loop, for a step that holds for the
    accesses of the trace. *)
Lemma simulate_invariant_on c0 (Inv : list (Operation * Z) -> AnyCache -> Prop)
    trace :
  wf c0 -> Inv [] c0 ->
  (forall done c op address c',
      wf c -> same_geometry c0 c -> Inv done c ->
      (op, address) ∈ trace ->
      access c (op, address) = Some c' -> Inv (done ++ [(op, address)]) c') ->
  exists c, simulate c0 trace = Some c /\ wf c /\ same_geometry c0 c
            /\ Inv trace c.
Proof.
  intros Hwf0 Hinv0.
  induction trace as [|[op address] trace IH] using rev_ind; intros Hstep.
  - exists c0. split; [done|]. split; [done|].
    split; [apply same_geometry_refl|done].
  - destruct IH as (c & Hsim & Hwf & Hgeo & Hinv).
    { intros done c op' address' c' Hwfc Hgeo Hinv Hin.
      apply Hstep; try done. apply elem_of_app. by left. }
    destruct (access_cases c op address Hwf)
      as (c' & ba & t & si & blocks & k & b & nb & kind & vd & blocks'
          & Hacc & Hwf' & Hgeo' & _).
    exists c'. rewrite simulate_app, Hsim. obind. simpl. rewrite Hacc. obind.
    split; [done|]. split; [done|].
    split; [by eapply same_geometry_trans|].
    apply (Hstep _ _ _ _ _ Hwf Hgeo Hinv); [|done].
    apply elem_of_app. right. by apply list_elem_of_singleton.
Qed.

(** A property of all blocks that the block an access leaves has. *)
Lemma Forall_after_access (P : CacheBlock -> Prop) c c' si blocks blocks'
    (k : nat) nb :
  vec_get (cache_sets c) si = Some blocks ->
  cache_sets c' = <[Z.to_nat si := blocks']> (cache_sets c) ->
  blocks' ≡ₚ <[k := nb]> blocks ->
  Forall P (all_blocks c) -> P nb -> Forall P (all_blocks c').
Proof.
  intros Hblocks Hsets Hperm Hall Hnb. unfold all_blocks in *.
  rewrite Hsets. apply Forall_concat. apply Forall_concat in Hall.
  pose proof (vec_get_Some_range _ _ _ Hblocks) as Hr.
  rewrite vec_get_lookup in Hblocks by lia.
  apply Forall_insert; [done|].
  rewrite Hperm. apply Forall_insert; [|done].
  exact (Forall_lookup_1 _ _ _ _ Hall Hblocks).
Qed.

(** X26. When the memory the blocks are allocated on holds none of the
    tags the trace uses, the invalid blocks never match: in every
    organisation [main] builds, at any point of the trace no block is dirty
    while invalid, and every invalid block still holds one of the values
    the tags had at allocation. *)
Theorem blocks_have_three_states_on_unused_tags
    (cache_size block_size associativity : Z)
    (policy : CacheReplacement_t) (ulb uib : Z) (uninit_tag seeded : nat -> Z)
    (raw_empty : nat -> bool)
    (c0 : AnyCache) (trace : list (Operation * Z)) :
  configure cache_size block_size associativity policy ulb uib uninit_tag
    seeded raw_empty = Some c0 ->
  fits cache_size block_size associativity ->
  (forall (i : nat) acc,
      Z.of_nat i < num_blocks (cache_base c0) -> acc ∈ trace ->
      uninit_tag i <> tag_of c0 (snd acc)) ->
  exists c,
    simulate c0 trace = Some c
    /\ Forall block_state_ok (all_blocks c)
    /\ Forall (fun b => valid b = false ->
                        exists i : nat,
                          Z.of_nat i < num_blocks (cache_base c0)
                          /\ tag b = uninit_tag i) (all_blocks c).
Proof.
  intros Hc Hfits Hunused.
  destruct (configure_wf _ _ _ _ _ _ _ _ _ _ Hc Hfits) as (Hwf & _ & _).
  set (P := fun b : CacheBlock =>
              valid b = false ->
              dirty b = false
              /\ exists i : nat,
                   Z.of_nat i < num_blocks (cache_base c0)
                   /\ tag b = uninit_tag i).
  destruct (simulate_invariant_on c0 (fun _ c => Forall P (all_blocks c))
              trace Hwf) as (c & Hsim & _ & _ & Hall).
  - pose proof (configure_blocks_fresh _ _ _ _ _ _ _ _ _ _ Hc Hfits) as Hfresh.
    destruct (configure_geometry _ _ _ _ _ _ _ _ _ _ Hc Hfits)
      as (a & b & Hb & Ha & Hcs & Hbs & Hbase & Horg).
    pose proof (pow2_range (a - b) ltac:(lia)) as Hpab.
    assert (Hnb : num_blocks (cache_base c0) = 2 ^ (a - b))
      by (by rewrite Hbase).
    assert (Htags : Forall (fun g => exists i : nat,
                              Z.of_nat i < num_blocks (cache_base c0)
                              /\ tag g = uninit_tag i) (all_blocks c0)).
    { rewrite Hnb. clear Hnb Hbase Hunused P Hwf Hfresh.
      unfold all_blocks. apply Forall_concat.
      destruct c0 as [c|c|c]; simpl.
      - destruct Horg as (_ & ->). apply Forall_fmap, Forall_forall.
        intros g Hg. constructor; [|done].
        apply list_elem_of_In, new_blocks_tag in Hg as (i & Hi & Hg).
        exists i. split; [lia|done].
      - destruct Horg as (_ & -> & _). constructor; [|done].
        apply Forall_forall. intros g Hg.
        apply list_elem_of_In, new_blocks_tag in Hg as (i & Hi & Hg).
        exists i. split; [lia|done].
      - destruct Horg as (j & Hj & Hja & _ & _ & -> & _).
        pose proof (pow2_range j ltac:(lia)) as Hpj.
        pose proof (pow2_range (a - b - j) ltac:(lia)) as Hps.
        assert (Hprod : 2 ^ (a - b) = 2 ^ (a - b - j) * 2 ^ j).
        { rewrite <- Z.pow_add_r by lia. f_equal. lia. }
        apply Forall_forall. intros s (n & -> & Hn)%list_elem_of_fmap.
        apply elem_of_seq in Hn.
        apply Forall_forall. intros g Hg.
        unfold new_blocks in Hg.
        apply list_elem_of_fmap in Hg as (i & -> & Hi).
        apply elem_of_seq in Hi. exists i. split; [|done]. nia. }
    apply Forall_forall. intros g Hg Hv.
    rewrite Forall_forall in Hfresh, Htags.
    split; [by apply Hfresh|]. by apply Htags.
  - intros done c op address c' Hwfc Hgeo Hall Hin Hacc.
    destruct (access_cases c op address Hwfc)
      as (c'' & ba & t & si & blocks & k & b & nb & kind & vd & blocks'
          & Hacc' & _ & _ & _ & Ht & _ & Hblocks & _ & Hsets & Hperm & Hk
          & _ & Hres).
    assert (c'' = c') by congruence. subst c''.
    apply (Forall_after_access P c c' si blocks blocks' k nb); try done.
    assert (Hb : P b).
    { pose proof (vec_get_Some_range _ _ _ Hblocks) as Hr.
      rewrite vec_get_lookup in Hblocks by lia.
      unfold all_blocks in Hall. apply Forall_concat in Hall.
      pose proof (Forall_lookup_1 _ _ _ _ Hall Hblocks) as Hset.
      exact (Forall_lookup_1 _ _ _ _ Hset Hk). }
    assert (Htag : tag_of c0 address = t).
    { unfold tag_of. destruct (Hgeo address) as (_ & Ht0 & _).
      by rewrite <- Ht0, Ht. }
    inversion Hres as [Htg Hnb | Hv _ Hnb | _ Hnb]; subst nb.
    + assert (Hvalid : valid b = true).
      { destruct (valid b) eqn:Hv; [done|].
        destruct (Hb Hv) as (_ & i & Hi & Hti).
        destruct (Hunused i (op, address) Hi Hin). simpl. congruence. }
      intros Hv. destruct (is_write op); simpl in Hv; congruence.
    + intros Hv'. simpl in Hv'. done.
    + intros Hv'. simpl in Hv'. done.
  - exists c. split; [done|]. split.
    + eapply Forall_impl; [exact Hall|]. intros g Hg Hv. by apply Hg.
    + eapply Forall_impl; [exact Hall|]. intros g Hg Hv. by apply Hg.
Qed.

Lemma blocks_have_three_states_on_unused_tags_witness :
  exists c,
    simulate fa_two_ways [(Write, 0); (Read, 128); (Write, 256)] = Some c
    /\ Forall block_state_ok (all_blocks c)
    /\ Forall (fun b => valid b = false ->
                        exists i : nat,
                          Z.of_nat i < num_blocks (cache_base fa_two_ways)
                          /\ tag b = pattern_memory i) (all_blocks c).
Proof.
  apply (blocks_have_three_states_on_unused_tags 128 64 FULLY_ASSOCIATIVE
           LRU 0 0 pattern_memory constant_rand empty_storage fa_two_ways
           [(Write, 0); (Read, 128); (Write, 256)]).
  - reflexivity.
  - vm_compute. discriminate.
  - intros i acc _ Hacc.
    apply list_elem_of_In in Hacc. simpl in Hacc.
    destruct Hacc as [<-|[<-|[<-|[]]]]; vm_compute; discriminate.
Defined.

(** ** The miss labels of an organisation, and reads *)

Lemma access_same_kind c op c' : access c op = Some c' -> same_kind c c'.
Proof.
  destruct c as [c|c|c], op as [[] address]; simpl;
    match goal with
    | |- context [?f c address] => destruct (f c address)
    end; simpl; intros [= <-]; done.
Qed.

(** X27. A direct-mapped cache [main] built never counts a capacity miss
    and an associative one never counts a conflict miss, whatever the
    trace: the label of a miss that evicts is fixed by the class of the
    cache. *)
Theorem miss_label_is_fixed_by_the_organisation
    (cache_size block_size associativity : Z)
    (policy : CacheReplacement_t) (ulb uib : Z) (uninit_tag seeded : nat -> Z)
    (raw_empty : nat -> bool)
    (c0 : AnyCache) (trace : list (Operation * Z)) :
  configure cache_size block_size associativity policy ulb uib uninit_tag
    seeded raw_empty = Some c0 ->
  fits cache_size block_size associativity ->
  exists c,
    simulate c0 trace = Some c
    /\ match c0 with
       | DM _ => capacity_misses (stats c) = 0
       | _ => conflict_misses (stats c) = 0
       end.
Proof.
  intros Hc Hfits.
  destruct (configure_wf _ _ _ _ _ _ _ _ _ _ Hc Hfits) as (Hwf & Hstats & _).
  destruct (simulate_invariant c0
              (fun _ c =>
                 same_kind c0 c
                 /\ match c0 with
                    | DM _ => capacity_misses (stats c) = 0
                    | _ => conflict_misses (stats c) = 0
                    end)
              Hwf) with (trace := trace) as (c & Hsim & _ & _ & _ & Hzero).
  - rewrite Hstats. by destruct c0.
  - intros done c op address c' Hwfc _ (Hkind & Hzero) Hacc.
    pose proof (access_same_kind _ _ _ Hacc) as Hkind'.
    destruct (access_cases c op address Hwfc)
      as (c'' & ba & t & si & blocks & k & b & nb & kind & vd & blocks'
          & Hacc' & _ & _ & _ & _ & _ & _ & _ & _ & _ & _ & Hcount & Hres).
    assert (c'' = c') by congruence. subst c''.
    destruct Hcount as (_ & _ & _ & _ & _ & Hcap & Hconf & _).
    split; [by destruct c0, c, c'|].
    destruct c0, c; try done;
      inversion Hres; subst;
      destruct (history_mem (history _) ba); simpl in *; congruence.
  - by exists c.
Qed.

Lemma miss_label_is_fixed_by_the_organisation_witness :
  exists c,
    simulate
      (DM (DirectMappedCache.mk (mkCache 128 64 2 6 1 AccessInfo_new [])
             [mkCacheBlock 7 false false; mkCacheBlock 7 false false]))
      [(Read, 0); (Read, 128); (Read, 0)] = Some c
    /\ capacity_misses (stats c) = 0.
Proof.
  apply (miss_label_is_fixed_by_the_organisation 128 64 1 LRU 0 0
           pattern_memory constant_rand empty_storage
           (DM (DirectMappedCache.mk (mkCache 128 64 2 6 1 AccessInfo_new [])
                  [mkCacheBlock 7 false false; mkCacheBlock 7 false false]))
           [(Read, 0); (Read, 128); (Read, 0)]).
  - reflexivity.
  - vm_compute. discriminate.
Defined.

(** X28. A read never makes a block dirty: on a cache [main] built and
    drove, a read returns, the blocks whose dirty flag is set are after it
    at most as many as before, and exactly as many when the read leaves
    [dirty_blocks_evicted] as it was, that is, unless it evicted a dirty
    block. *)
Theorem read_makes_no_block_dirty (c : AnyCache) (address : Z) :
  reachable c ->
  exists c',
    access c (Read, address) = Some c'
    /\ (dirty_count c' <= dirty_count c)%nat
    /\ (dirty_blocks_evicted (stats c') = dirty_blocks_evicted (stats c) ->
        dirty_count c' = dirty_count c).
Proof.
  intros Hwf%reachable_wf.
  destruct (access_cases c Read address Hwf)
    as (c' & ba & t & si & blocks & k & b & nb & kind & vd & blocks'
        & Hacc & _ & _ & _ & _ & _ & Hblocks & _ & Hsets & Hperm & Hk
        & Hcount & Hres).
  exists c'. split; [done|].
  pose proof (count_after_access (fun b => dirty b) c c' si blocks blocks'
                k b nb Hblocks Hsets Hperm Hk) as Hcnt.
  fold (dirty_count c) in Hcnt. fold (dirty_count c') in Hcnt.
  destruct Hcount as (_ & _ & _ & _ & _ & _ & _ & _ & _ & Hde).
  simpl in Hres.
  inversion Hres as [Htg Hnb | Hv _ Hnb | _ Hnb]; subst nb vd.
  - split; [|intros _]; destruct (dirty b); simpl in Hcnt; lia.
  - split; [|intros _]; simpl in Hcnt; destruct (dirty b); simpl in Hcnt; lia.
  - split; [destruct (dirty b); simpl in Hcnt; lia|].
    intros Heq. destruct (dirty b); simpl in Hcnt; [|lia].
    exfalso. rewrite Hde in Heq. revert Heq. zwrap.
Qed.

Lemma read_makes_no_block_dirty_witness :
  exists c',
    access dm_after_read_0 (Read, 128) = Some c'
    /\ (dirty_count c' <= dirty_count dm_after_read_0)%nat
    /\ (dirty_blocks_evicted (stats c')
        = dirty_blocks_evicted (stats dm_after_read_0) ->
        dirty_count c' = dirty_count dm_after_read_0).
Proof.
  apply (read_makes_no_block_dirty dm_after_read_0 128).
  exists 128, 64, DIRECT_MAPPED, LRU, 0, 0, pattern_memory,
    constant_rand, empty_storage,
    (DM (DirectMappedCache.mk
           (mkCache 128 64 2 6 1 AccessInfo_new [])
           [mkCacheBlock 7 false false; mkCacheBlock 7 false false])),
    [(Read, 0)].
  split; [reflexivity|]. split; [vm_compute; discriminate|reflexivity].
Defined.
